(** * grp-cli execution engine: job graph, wave executor, orchestrator,
      variable resolver

    A shallow embedding of the Go sources
      - internal/engine  (JobGraph, Executor, Orchestrator),
      - internal/plugins (Manager),
      - internal/config  (Resolver, Validator, Loader),
      - internal/models  (Plan, Stage, Job, results),
      - plugins/kubernetes (KubernetesPlugin)
    together with the properties of the execution engine.

    Conventions of the embedding.
    - A Go [map[string]T] is a [gmap string T]; reading a missing key
      yields the zero value of [T].  A [map[string]bool] that is only
      read through that zero value is a [gset string] (the keys mapped
      to [true]): [m[k] = true] is [{[k]} ∪ m], [m[k] = false] is
      [m ∖ {[k]}], and the read [m[k]] is [bool_decide (k ∈ m)].
    - [for k := range m] visits the keys of [m] in an order Go leaves
      unspecified.  Every function that ranges over a map takes the
      order of that visit as an explicit list of keys; the theorems hold
      for every order ([range_of]).
    - A [map[string]interface{}] configuration tree is a [Value]; its
      mappings are association lists with first-match lookup.
    - Wall-clock fields (StartTime, EndTime, Duration) are not part of
      the model.
    - A Go [error] is the text of its message. *)

From Stdlib Require Import ZArith String Ascii List.
From stdpp Require Import base option list relations strings gmap pretty.

Local Open Scope string_scope.
Local Open Scope list_scope.
Local Open Scope nat_scope.
Set Warnings "-register-all".

(* ===================================================================== *)
(** * Data model (internal/models, pkg/plugin) *)
(* ===================================================================== *)

(** Dynamically typed configuration values ([interface{}] as produced by
    the YAML decoder).  [VFloat] carries a float64 by its [%v] rendering. *)
Inductive Value : Type :=
| VNil
| VBool (b : bool)
| VInt (n : Z)
| VFloat (rendering : string)
| VStr (s : string)
| VList (items : list Value)
| VMap (entries : list (string * Value)).

(** [map[string]interface{}] *)
Abbreviation Config := (list (string * Value)).

(** [m[key]] with its [exists] flag. *)
Fixpoint lookup_key (key : string) (m : Config) : option Value :=
  match m with
  | [] => None
  | (k, v) :: rest => if String.eqb k key then Some v else lookup_key key rest
  end.

Record Job : Type := mkJob {
  Name : string;
  Type_ : string;
  DependsOn : list string;
  Timeout : string;
  Retries : Z;
  Config_ : Config
}.

Record Stage : Type := mkStage {
  StageName : string;
  Description : string;
  RequireApproval : bool;
  Approvers : list string;
  Jobs : list Job
}.

Record Rollback : Type := mkRollback { RollbackStages : list Stage }.

Record Plan : Type := mkPlan {
  Variables : Config;
  Stages : list Stage;
  Rollback_ : option Rollback
}.

Record JobResult : Type := mkJobResult {
  jrName : string;
  jrType : string;
  jrSuccess : bool;
  jrMessage : string;
  jrData : Config
}.

Record StageResult : Type := mkStageResult {
  srName : string;
  srSuccess : bool;
  srJobs : list JobResult
}.

Record ExecutionResult : Type := mkExecutionResult {
  erID : string;
  erSuccess : bool;
  erTotalStages : nat;
  erTotalJobs : nat;
  erCompletedJobs : nat;
  erFailedJobs : nat;
  erStages : list StageResult
}.

(* ===================================================================== *)
(** * JobGraph (internal/engine, graph) *)
(* ===================================================================== *)

Record JobGraph : Type := mkJobGraph {
  jobs : gmap string Job;
  dependencies : gmap string (list string);
  dependents : gmap string (list string);
  completed : gset string
}.

Definition NewJobGraph : JobGraph :=
  {| jobs := ∅; dependencies := ∅; dependents := ∅; completed := ∅ |}.

(** [g.dependencies[name]]: the zero value of a slice is the empty one. *)
Definition deps_of (g : JobGraph) (name : string) : list string :=
  default [] (dependencies g !! name).

Definition dependents_of (g : JobGraph) (name : string) : list string :=
  default [] (dependents g !! name).

Definition AddJob (job : Job) (g : JobGraph) : JobGraph :=
  {| jobs := <[Name job := job]> (jobs g);
     dependencies :=
       match dependencies g !! Name job with
       | Some _ => dependencies g
       | None => <[Name job := []]> (dependencies g)
       end;
     dependents :=
       match dependents g !! Name job with
       | Some _ => dependents g
       | None => <[Name job := []]> (dependents g)
       end;
     completed := completed g |}.

Definition AddDependency (jobName dependsOn : string) (g : JobGraph) : JobGraph :=
  {| jobs := jobs g;
     dependencies := <[jobName := deps_of g jobName ++ [dependsOn]]> (dependencies g);
     dependents := <[dependsOn := dependents_of g dependsOn ++ [jobName]]> (dependents g);
     completed := completed g |}.

Definition MarkCompleted (jobName : string) (g : JobGraph) : JobGraph :=
  {| jobs := jobs g;
     dependencies := dependencies g;
     dependents := dependents g;
     completed := {[jobName]} ∪ completed g |}.

(** [keys] is an order in which [range g.jobs] may yield the names. *)
Definition range_of (g : JobGraph) (keys : list string) : Prop :=
  NoDup keys ∧ ∀ k, k ∈ keys ↔ k ∈ dom (jobs g).

(** The inner loop of GetReadyJobs: [allDepsCompleted]. *)
Definition allDepsCompleted (g : JobGraph) (name : string) : bool :=
  forallb (λ dep, bool_decide (dep ∈ completed g)) (deps_of g name).

Definition GetReadyJobs (keys : list string) (g : JobGraph) : list Job :=
  omap (λ name,
          match jobs g !! name with
          | Some job =>
              if bool_decide (name ∈ completed g) then None
              else if allDepsCompleted g name then Some job else None
          | None => None
          end) keys.

Definition IsCompleted (keys : list string) (g : JobGraph) : bool :=
  forallb (λ name, bool_decide (name ∈ completed g)) keys.

(** The result of one call of hasCyclesDFS: the verdict and the two maps
    as the call leaves them. *)
Abbreviation DfsResult := (option (bool * gset string * gset string)).

(** The [for _, dep := range g.dependencies[node]] loop of hasCyclesDFS;
    [rec] is the recursive call. *)
Fixpoint dfs_deps (rec : string → gset string → gset string → DfsResult)
    (node : string) (deps : list string) (visited recStack : gset string)
    : DfsResult :=
  match deps with
  | [] => Some (false, visited, recStack ∖ {[node]})
  | dep :: rest =>
      if bool_decide (dep ∈ visited) then
        if bool_decide (dep ∈ recStack) then Some (true, visited, recStack)
        else dfs_deps rec node rest visited recStack
      else
        match rec dep visited recStack with
        | None => None
        | Some (true, v, r) => Some (true, v, r)
        | Some (false, v, r) => dfs_deps rec node rest v r
        end
  end.

(** hasCyclesDFS; the recursion is on the depth budget [fuel]
    ([None]: budget exhausted). *)
Fixpoint hasCyclesDFS (fuel : nat) (g : JobGraph) (node : string)
    (visited recStack : gset string) : DfsResult :=
  match fuel with
  | O => None
  | S fuel' =>
      dfs_deps (hasCyclesDFS fuel' g) node (deps_of g node)
        ({[node]} ∪ visited) ({[node]} ∪ recStack)
  end.

(** The [for name := range g.jobs] loop of HasCycles. *)
Fixpoint HasCycles_loop (fuel : nat) (g : JobGraph) (names : list string)
    (visited recStack : gset string) : option bool :=
  match names with
  | [] => Some false
  | name :: rest =>
      if bool_decide (name ∈ visited) then
        HasCycles_loop fuel g rest visited recStack
      else
        match hasCyclesDFS fuel g name visited recStack with
        | None => None
        | Some (true, _, _) => Some true
        | Some (false, v, r) => HasCycles_loop fuel g rest v r
        end
  end.

Definition HasCycles_fuel (fuel : nat) (keys : list string) (g : JobGraph)
    : option bool :=
  HasCycles_loop fuel g keys ∅ ∅.

(** A recursion never nests deeper than the number of names that own a
    dependency list, plus one. *)
Definition dfs_budget (g : JobGraph) : nat := S (size (dom (dependencies g))).

Definition HasCycles (keys : list string) (g : JobGraph) : option bool :=
  HasCycles_fuel (dfs_budget g) keys g.

(** The dependency relation: [job → dependsOn]. *)
Definition edge (g : JobGraph) (a b : string) : Prop := b ∈ deps_of g a.

Definition cyclic (g : JobGraph) : Prop := ∃ x, tc (edge g) x x.

(** Every dependency edge targets a registered job. *)
Definition deps_registered (g : JobGraph) : Prop :=
  ∀ a b, edge g a b → b ∈ dom (jobs g).

(* ===================================================================== *)
(** * PluginManager (internal/plugins, pkg/plugin) *)
(* ===================================================================== *)

(** The text of a Go [error]; [None] is [nil]. *)
Abbreviation error := string.

(** The values the engine attaches to the per-call context:
    [ctx.Value("executionID")], [ctx.Value("variables")] and
    [ctx.Value("stageName")]; [None] is an absent key. *)
Record Context : Type := mkContext {
  executionID : option string;
  variables : option Config;
  stageName : option string
}.

Definition background : Context :=
  {| executionID := None; variables := None; stageName := None |}.

(** plugin.Result *)
Record PluginResult : Type := mkPluginResult {
  Success : bool;
  Data : Config;
  Message : string;
  ExecutionID : string
}.

(** What the engine can observe of the handlers: each call of a
    capability, with the context and configuration it was given.  The
    tasks of one wave run concurrently; the model records their calls in
    dispatch order and lets a handler's answer depend on the calls
    recorded before it. *)
Inductive Event : Type :=
| EvValidate (plugin : string) (ctx : Context) (config : Config)
| EvExecute (plugin : string) (ctx : Context) (config : Config).

Abbreviation Trace := (list Event).

(** plugin.Plugin, restricted to the capabilities the engine calls.
    [Execute] answers with a result or with an error, the two outcomes
    executeJob distinguishes. *)
Record Plugin : Type := mkPlugin {
  PluginName : string;
  Validate : Trace → Context → Config → option error;
  Execute : Trace → Context → Config → PluginResult + error
}.

Record Manager : Type := mkManager {
  registry : gmap string Plugin;
  pluginDir : string
}.

Definition NewManager (dir : string) : Manager :=
  {| registry := ∅; pluginDir := dir |}.

Definition RegisterPlugin (plg : Plugin) (pm : Manager) : option error * Manager :=
  let name := PluginName plg in
  match registry pm !! name with
  | Some _ => (Some ("plugin " +:+ name +:+ " is already registered"), pm)
  | None => (None, {| registry := <[name := plg]> (registry pm); pluginDir := pluginDir pm |})
  end.

Definition GetPlugin (pm : Manager) (name : string) : Plugin + error :=
  match registry pm !! name with
  | Some plg => inl plg
  | None => inr ("plugin " +:+ name +:+ " not found")
  end.

Definition ExecutePlugin (pm : Manager) (tr : Trace) (ctx : Context)
    (jobType : string) (config : Config) : (PluginResult + error) * Trace :=
  match GetPlugin pm jobType with
  | inr err => (inr err, tr)
  | inl plg =>
      (* Get variables from context *)
      let vars := default [] (variables ctx) in
      (* Create a new context with variables if needed *)
      let execCtx :=
        if (0 <? length vars)%nat && bool_decide (variables ctx = None)
        then {| executionID := executionID ctx; variables := Some vars;
                stageName := stageName ctx |}
        else ctx in
      (* Validate plugin configuration *)
      let tr1 := tr ++ [EvValidate (PluginName plg) execCtx config] in
      match Validate plg tr execCtx config with
      | Some err => (inr ("invalid configuration: " +:+ err), tr1)
      | None =>
          (* Execute the plugin *)
          (Execute plg tr1 execCtx config,
           tr1 ++ [EvExecute (PluginName plg) execCtx config])
      end
  end.

(* ===================================================================== *)
(** * Executor (internal/engine, executor) *)
(* ===================================================================== *)

Definition executeJob (pm : Manager) (tr : Trace) (ctx : Context) (job : Job)
    : (bool * string * Config) * Trace :=
  match ExecutePlugin pm tr ctx (Type_ job) (Config_ job) with
  | (inr err, tr') => ((false, "Failed to execute job: " +:+ err, []), tr')
  | (inl result, tr') =>
      if negb (Success result)
      then ((false, Message result, Data result), tr')
      else ((true, Message result, Data result), tr')
  end.

(** The task dispatched for one ready job. *)
Definition runJob (pm : Manager) (dryRun : bool) (tr : Trace) (ctx : Context)
    (job : Job) : JobResult * Trace :=
  if dryRun then
    ({| jrName := Name job; jrType := Type_ job; jrSuccess := true;
        jrMessage := "Dry run simulation"; jrData := [] |}, tr)
  else
    let '((success, message, data), tr') := executeJob pm tr ctx job in
    ({| jrName := Name job; jrType := Type_ job; jrSuccess := success;
        jrMessage := message; jrData := data |}, tr').

(** One wave up to its barrier ([wg.Wait()]): every ready job is
    dispatched and [jobResults[i]] is the result of [readyJobs[i]]. *)
Fixpoint runWave (pm : Manager) (dryRun : bool) (tr : Trace) (ctx : Context)
    (readyJobs : list Job) : list JobResult * Trace :=
  match readyJobs with
  | [] => ([], tr)
  | job :: rest =>
      let '(result, tr1) := runJob pm dryRun tr ctx job in
      let '(results, tr2) := runWave pm dryRun tr1 ctx rest in
      (result :: results, tr2)
  end.

Definition appendJob (sr : StageResult) (result : JobResult) : StageResult :=
  {| srName := srName sr; srSuccess := srSuccess sr;
     srJobs := srJobs sr ++ [result] |}.

(** The [for _, result := range jobResults] loop after the barrier. *)
Fixpoint processResults (jobResults : list JobResult) (graph : JobGraph)
    (stageResult : StageResult) : option error * JobGraph * StageResult :=
  match jobResults with
  | [] => (None, graph, stageResult)
  | result :: rest =>
      let stageResult := appendJob stageResult result in
      if jrSuccess result then
        processResults rest (MarkCompleted (jrName result) graph) stageResult
      else
        (Some ("job " +:+ jrName result +:+ " failed: " +:+ jrMessage result),
         graph, stageResult)
  end.

(** What an execution leaves behind: the returned error, the graph, the
    stage accumulator and the handler calls made.  [exWaves] is history
    kept for the statements only: the [jobResults] slice of every wave
    run, in order. *)
Record ExecState : Type := mkExecState {
  exErr : option error;
  exGraph : JobGraph;
  exStage : StageResult;
  exTrace : Trace;
  exWaves : list (list JobResult)
}.

(** The [for len(readyJobs) > 0] loop.  [ord k] is the order in which the
    [k]-th range over [g.jobs] of this call yields the names; [fuel]
    bounds the number of waves ([None]: bound exhausted). *)
Fixpoint waves (fuel : nat) (ord : nat → list string) (k : nat) (pm : Manager)
    (dryRun : bool) (ctx : Context) (readyJobs : list Job) (graph : JobGraph)
    (stageResult : StageResult) (tr : Trace) (ws : list (list JobResult))
    : option ExecState :=
  match readyJobs with
  | [] => Some (mkExecState None graph stageResult tr ws)
  | _ :: _ =>
      match fuel with
      | O => None
      | S fuel' =>
          let '(jobResults, tr') := runWave pm dryRun tr ctx readyJobs in
          match processResults jobResults graph stageResult with
          | (Some err, graph', stageResult') =>
              Some (mkExecState (Some err) graph' stageResult' tr' (ws ++ [jobResults]))
          | (None, graph', stageResult') =>
              waves fuel' ord (S k) pm dryRun ctx
                (GetReadyJobs (ord (S k)) graph') graph' stageResult' tr'
                (ws ++ [jobResults])
          end
      end
  end.

Definition ExecuteGraph_fuel (fuel : nat) (ord : nat → list string)
    (pm : Manager) (ctx : Context) (graph : JobGraph)
    (stageResult : StageResult) (dryRun : bool) (tr : Trace) : option ExecState :=
  match HasCycles (ord 0%nat) graph with
  | None => None
  | Some true =>
      Some (mkExecState (Some "dependency cycle detected in job graph")
              graph stageResult tr [])
  | Some false =>
      waves fuel ord 1 pm dryRun ctx (GetReadyJobs (ord 1%nat) graph)
        graph stageResult tr []
  end.

(** Every wave that does not fail completes at least one more job, so
    there are at most as many waves as jobs. *)
Definition ExecuteGraph (ord : nat → list string) (pm : Manager) (ctx : Context)
    (graph : JobGraph) (stageResult : StageResult) (dryRun : bool) (tr : Trace)
    : option ExecState :=
  ExecuteGraph_fuel (size (jobs graph)) ord pm ctx graph stageResult dryRun tr.

(* ===================================================================== *)
(** * Orchestrator (internal/engine, orchestrator) *)
(* ===================================================================== *)

Record ExecuteOptions : Type := mkExecuteOptions {
  AutoRollback : bool;
  SkipApproval : bool;
  DryRun : bool
}.

Definition buildDependencyGraph (jobs : list Job) : JobGraph :=
  let graph := foldl (λ g job, AddJob job g) NewJobGraph jobs in
  foldl (λ g job, foldl (λ g depName, AddDependency (Name job) depName g) g (DependsOn job))
    graph jobs.

Definition countTotalJobs (plan : Plan) : nat :=
  foldl (λ count stage, (count + length (Jobs stage))%nat) 0%nat (Stages plan).

(** executeStage; [ord] orders the map ranges of its ExecuteGraph call. *)
Definition executeStage (ord : nat → list string) (pm : Manager) (ctx : Context)
    (stage : Stage) (result : StageResult) (options : ExecuteOptions) (tr : Trace)
    : option ExecState :=
  let graph := buildDependencyGraph (Jobs stage) in
  let stageCtx := {| executionID := executionID ctx; variables := variables ctx;
                     stageName := Some (StageName stage) |} in
  ExecuteGraph ord pm stageCtx graph result (DryRun options) tr.

(** The loop of executeRollback over the rollback stages from index [j]
    on.  The stage result is a local of the loop body and the error of a
    stage is only printed; what leaves the loop is the handler calls. *)
Fixpoint rollback_loop (rord : nat → nat → list string) (pm : Manager)
    (ctx : Context) (j : nat) (stages : list Stage) (tr : Trace) : option Trace :=
  match stages with
  | [] => Some tr
  | stage :: rest =>
      let graph := buildDependencyGraph (Jobs stage) in
      let stageResult := {| srName := StageName stage; srSuccess := false; srJobs := [] |} in
      match ExecuteGraph (rord j) pm ctx graph stageResult false tr with
      | None => None
      | Some st => rollback_loop rord pm ctx (S j) rest (exTrace st)
      end
  end.

(** executeRollback always returns [nil]. *)
Definition executeRollback (rord : nat → nat → list string) (pm : Manager)
    (ctx : Context) (rollback : Rollback) (tr : Trace) : option Trace :=
  rollback_loop rord pm ctx 0 (RollbackStages rollback) tr.

Definition countJobs (success : bool) (stages : list StageResult) : nat :=
  length (filter (λ job, jrSuccess job = success) (concat (map srJobs stages))).

(** finalizeResult.  The returned error is [fmt.Errorf(message)]: its
    text is [message] read as a format string without operands, which is
    [message] itself when it contains no ['%']. *)
Definition finalizeResult (result : ExecutionResult) (success : bool)
    (message : string) : ExecutionResult * option error :=
  let result :=
    {| erID := erID result; erSuccess := success;
       erTotalStages := erTotalStages result; erTotalJobs := erTotalJobs result;
       erCompletedJobs := erCompletedJobs result + countJobs true (erStages result);
       erFailedJobs := erFailedJobs result + countJobs false (erStages result);
       erStages := erStages result |} in
  if negb success then (result, Some message) else (result, None).

Definition appendStage (result : ExecutionResult) (sr : StageResult) : ExecutionResult :=
  {| erID := erID result; erSuccess := erSuccess result;
     erTotalStages := erTotalStages result; erTotalJobs := erTotalJobs result;
     erCompletedJobs := erCompletedJobs result; erFailedJobs := erFailedJobs result;
     erStages := erStages result ++ [sr] |}.

(** What ExecutePlan returns, and the handler calls it made. *)
Record PlanOutcome : Type := mkPlanOutcome {
  poResult : ExecutionResult;
  poErr : option error;
  poTrace : Trace
}.

(** The [for _, stage := range plan.Stages] loop of ExecutePlan from
    stage index [i] on.  [ord i] orders the map ranges of forward stage
    [i], [rord j] those of rollback stage [j]. *)
Fixpoint stages_loop (ord rord : nat → nat → list string) (pm : Manager)
    (execCtx : Context) (plan : Plan) (options : ExecuteOptions) (i : nat)
    (stages : list Stage) (result : ExecutionResult) (tr : Trace)
    : option PlanOutcome :=
  match stages with
  | [] =>
      (* All stages completed successfully *)
      let '(result, err) :=
        finalizeResult result true "Plan execution completed successfully" in
      Some (mkPlanOutcome result err tr)
  | stage :: rest =>
      let stageResult := {| srName := StageName stage; srSuccess := false; srJobs := [] |} in
      (* Check if approval is required: the branch taken when
         [RequireApproval stage && negb (SkipApproval options)] only
         prints that the stage awaits approval and that it was approved. *)
      (* Execute the stage *)
      match executeStage (ord i) pm execCtx stage stageResult options tr with
      | None => None
      | Some st =>
          let stageErr := exErr st in
          let stageResult :=
            {| srName := srName (exStage st);
               srSuccess := bool_decide (stageErr = None);
               srJobs := srJobs (exStage st) |} in
          let result := appendStage result stageResult in
          match stageErr with
          | Some err =>
              (* Execute rollback if configured *)
              let after :=
                match AutoRollback options, Rollback_ plan with
                | true, Some rollback => executeRollback rord pm execCtx rollback (exTrace st)
                | _, _ => Some (exTrace st)
                end in
              match after with
              | None => None
              | Some tr' =>
                  let '(result, err) :=
                    finalizeResult result false
                      ("Stage " +:+ StageName stage +:+ " failed: " +:+ err) in
                  Some (mkPlanOutcome result err tr')
              end
          | None => stages_loop ord rord pm execCtx plan options (S i) rest result
                      (exTrace st)
          end
      end
  end.

(** ExecutePlan; [id] is the identifier drawn by [uuid.New()]. *)
Definition ExecutePlan (ord rord : nat → nat → list string) (pm : Manager)
    (id : string) (ctx : Context) (plan : Plan) (options : ExecuteOptions)
    : option PlanOutcome :=
  let execCtx := {| executionID := Some id; variables := Some (Variables plan);
                    stageName := stageName ctx |} in
  let result := {| erID := id; erSuccess := false;
                   erTotalStages := length (Stages plan);
                   erTotalJobs := countTotalJobs plan;
                   erCompletedJobs := 0; erFailedJobs := 0; erStages := [] |} in
  stages_loop ord rord pm execCtx plan options 0 (Stages plan) result [].

(* ===================================================================== *)
(** * Resolver (internal/config, resolver) *)
(* ===================================================================== *)

(** ** The reference pattern [\${([^}]+)}]

    A match starts at ["${"], runs over at least one character other than
    ['}'] and ends at the first ['}'].  The three delimiters are ASCII, so
    matching bytes and matching runes coincide. *)

(** The text before the first ['}'] of [s] and the text after it. *)
Fixpoint until_close (s : string) : option (string * string) :=
  match s with
  | EmptyString => None
  | String c s' =>
      if Ascii.eqb c "}" then Some (EmptyString, s')
      else match until_close s' with
           | Some (p, r) => Some (String c p, r)
           | None => None
           end
  end.

(** A match anchored at the start of [s]: the captured path and the text
    after the match. *)
Definition match_here (s : string) : option (string * string) :=
  match s with
  | String "$" (String "{" t) =>
      match until_close t with
      | Some (String c p, r) => Some (String c p, r)
      | _ => None
      end
  | _ => None
  end.

(** The leftmost match in [s]: the text before it, the captured path and
    the text after it. *)
Fixpoint find_ref (s : string) : option (string * string * string) :=
  match s with
  | EmptyString => None
  | String c s' =>
      match match_here s with
      | Some (p, r) => Some (EmptyString, p, r)
      | None =>
          match find_ref s' with
          | Some (pre, p, r) => Some (String c pre, p, r)
          | None => None
          end
      end
  end.

(** [refRegex.MatchString] *)
Definition MatchString (s : string) : bool :=
  match find_ref s with Some _ => true | None => false end.

(** [refRegex.ReplaceAllStringFunc]: the matches are found left to right,
    each search resuming after the previous match; [fuel] bounds the
    number of matches. *)
Fixpoint replace_matches (fuel : nat) (repl : string → string) (s : string) : string :=
  match fuel with
  | O => s
  | S fuel' =>
      match find_ref s with
      | None => s
      | Some (pre, p, r) =>
          pre +:+ repl ("${" +:+ p +:+ "}") +:+ replace_matches fuel' repl r
      end
  end.

Definition ReplaceAllStringFunc (s : string) (repl : string → string) : string :=
  replace_matches (String.length s) repl s.

(** [strings.HasPrefix], [strings.HasSuffix] *)
Definition HasPrefix (s pre : string) : bool := String.prefix pre s.

Definition HasSuffix (s suf : string) : bool :=
  (String.length suf <=? String.length s)%nat &&
  String.eqb (substring (String.length s - String.length suf) (String.length suf) s) suf.

(** [strings.Split(path, ".")] *)
Fixpoint Split_dot (s : string) : list string :=
  match s with
  | EmptyString => [EmptyString]
  | String c s' =>
      if Ascii.eqb c "." then EmptyString :: Split_dot s'
      else match Split_dot s' with
           | part :: parts => String c part :: parts
           | [] => [String c EmptyString]
           end
  end.

(** ** [fmt.Sprintf("%v", v)] *)

Fixpoint insert_entry (kv : string * string) (l : list (string * string))
    : list (string * string) :=
  match l with
  | [] => [kv]
  | kv' :: rest =>
      if String.leb kv.1 kv'.1 then kv :: l else kv' :: insert_entry kv rest
  end.

(** fmt prints the entries of a map sorted by key. *)
Definition sort_entries (l : list (string * string)) : list (string * string) :=
  foldr insert_entry [] l.

Definition join_space (l : list string) : string := String.concat " " l.

Fixpoint fmtV (v : Value) : string :=
  match v with
  | VNil => "<nil>"
  | VBool b => if b then "true" else "false"
  | VInt n => pretty n
  | VFloat rendering => rendering
  | VStr s => s
  | VList items => "[" +:+ join_space (map fmtV items) +:+ "]"
  | VMap entries =>
      "map[" +:+
      join_space (map (λ kv, kv.1 +:+ ":" +:+ kv.2)
                    (sort_entries
                       (map (λ kv, match kv with (k, x) => (k, fmtV x) end) entries)))
      +:+ "]"
  end.

(** ** Path and value resolution *)

(** The [for _, part := range parts] loop of resolvePath. *)
Fixpoint navigate (path : string) (parts : list string) (current : Value)
    : Value + error :=
  match parts with
  | [] => inl current
  | part :: rest =>
      match current with
      | VMap currentMap =>
          match lookup_key part currentMap with
          | Some next => navigate path rest next
          | None => inr ("reference path not found: " +:+ path)
          end
      | _ => inr ("invalid reference path: " +:+ path)
      end
  end.

Definition resolvePath (path : string) (context : Config) : Value + error :=
  navigate path (Split_dot path) (VMap context).

(** [s[2 : len(s)-1]] *)
Definition ref_path (s : string) : string :=
  substring 2 (String.length s - 3) s.

Definition resolveString (value : string) (context : Config) : Value + error :=
  (* Check if the entire string is a reference *)
  if MatchString value && HasPrefix value "${" && HasSuffix value "}" then
    match resolvePath (ref_path value) context with
    | inr err => inr err
    | inl resolvedValue => inl resolvedValue
    end
  else
    (* Handle partial substitutions *)
    inl (VStr (ReplaceAllStringFunc value (λ match_,
           match resolvePath (ref_path match_) context with
           | inr _ => match_
           | inl resolvedValue => fmtV resolvedValue
           end))).

(** resolveValue, with the loops of ResolveValues and resolveSlice nested
    in it.  A mapping is visited in the order of its entries. *)
Fixpoint resolveValue (value : Value) (context : Config) : Value + error :=
  match value with
  | VStr v => resolveString v context
  | VMap config =>
      match
        (fix entries (config : Config) : Config + error :=
           match config with
           | [] => inl []
           | (key, value) :: rest =>
               match resolveValue value context with
               | inr err => inr ("error resolving value for key " +:+ key +:+ ": " +:+ err)
               | inl resolvedValue =>
                   match entries rest with
                   | inr err => inr err
                   | inl result => inl ((key, resolvedValue) :: result)
                   end
               end
           end) config
      with
      | inr err => inr err
      | inl result => inl (VMap result)
      end
  | VList slice =>
      match
        (fix items (i : nat) (slice : list Value) : list Value + error :=
           match slice with
           | [] => inl []
           | item :: rest =>
               match resolveValue item context with
               | inr err => inr ("error resolving array item " +:+ pretty i +:+ ": " +:+ err)
               | inl resolvedItem =>
                   match items (S i) rest with
                   | inr err => inr err
                   | inl result => inl (resolvedItem :: result)
                   end
               end
           end) 0%nat slice
      with
      | inr err => inr err
      | inl result => inl (VList result)
      end
  | v => inl v
  end.

(** ResolveValues and resolveSlice as the callers see them. *)
Fixpoint ResolveValues (config context : Config) : Config + error :=
  match config with
  | [] => inl []
  | (key, value) :: rest =>
      match resolveValue value context with
      | inr err => inr ("error resolving value for key " +:+ key +:+ ": " +:+ err)
      | inl resolvedValue =>
          match ResolveValues rest context with
          | inr err => inr err
          | inl result => inl ((key, resolvedValue) :: result)
          end
      end
  end.

Fixpoint resolveSlice_from (i : nat) (slice : list Value) (context : Config)
    : list Value + error :=
  match slice with
  | [] => inl []
  | item :: rest =>
      match resolveValue item context with
      | inr err => inr ("error resolving array item " +:+ pretty i +:+ ": " +:+ err)
      | inl resolvedItem =>
          match resolveSlice_from (S i) rest context with
          | inr err => inr err
          | inl result => inl (resolvedItem :: result)
          end
      end
  end.

Definition resolveSlice (slice : list Value) (context : Config) : list Value + error :=
  resolveSlice_from 0 slice context.

(* ===================================================================== *)
(** * Vocabulary of the statements *)
(* ===================================================================== *)

(** ** Job graphs *)

(** Every job is stored under its own name, as AddJob stores it. *)
Definition graph_wf (g : JobGraph) : Prop :=
  ∀ k job, jobs g !! k = Some job → Name job = k.

Definition graph_wf_check (g : JobGraph) : bool :=
  forallb (λ kv, String.eqb (Name kv.2) kv.1) (map_to_list (jobs g)).

(** Executable form of [deps_registered]. *)
Definition deps_registered_check (g : JobGraph) : bool :=
  forallb (λ kv, forallb (λ d, bool_decide (d ∈ dom (jobs g))) kv.2)
    (map_to_list (dependencies g)).

(** Executable form of [range_of]. *)
Definition range_of_check (g : JobGraph) (keys : list string) : bool :=
  bool_decide (NoDup keys) &&
  bool_decide (list_to_set keys =@{gset string} dom (jobs g)).

(** ** Invariant of the depth-first search

    [V] is [visited], [R] is [recStack]; the names of [V ∖ R] are the
    finished ones: their calls have returned [false]. *)
Record dfs_inv (g : JobGraph) (V R : gset string) : Prop := mk_dfs_inv {
  inv_sub : R ⊆ V;
  inv_closed : ∀ b d, b ∈ V → b ∉ R → edge g b d → d ∈ V ∧ d ∉ R;
  inv_nocyc : ∀ b, b ∈ V → b ∉ R → ¬ tc (edge g) b b
}.

(** What a call of hasCyclesDFS on [node], entered with [V] and [R],
    guarantees about its result. *)
Definition dfs_post (g : JobGraph) (node : string) (V R : gset string)
    (res : bool * gset string * gset string) : Prop :=
  match res with
  | (true, _, _) => cyclic g
  | (false, V', R') => R' = R ∧ V ⊆ V' ∧ node ∈ V' ∧ dfs_inv g V' R'
  end.

(** ** Vocabulary for the executor's statements *)

(** The error ExecuteGraph returns for a failed result. *)
Definition job_error (result : JobResult) : error :=
  "job " +:+ jrName result +:+ " failed: " +:+ jrMessage result.

(** The first failed result of a wave, in dispatch order. *)
Definition first_failure (results : list JobResult) : option JobResult :=
  find (λ r, negb (jrSuccess r)) results.

(** The results that precede the first failed one. *)
Fixpoint succeeded_before (results : list JobResult) : list JobResult :=
  match results with
  | [] => []
  | r :: rest => if jrSuccess r then r :: succeeded_before rest else []
  end.

(** The results up to and including the first failed one. *)
Definition recorded (results : list JobResult) : list JobResult :=
  succeeded_before results ++ option_list (first_failure results).

Definition mark_all (names : list string) (g : JobGraph) : JobGraph :=
  foldl (λ g name, MarkCompleted name g) g names.

Definition appendJobs (sr : StageResult) (results : list JobResult) : StageResult :=
  {| srName := srName sr; srSuccess := srSuccess sr;
     srJobs := srJobs sr ++ results |}.

Definition succeeded (r : JobResult) : Prop := jrSuccess r = true.
Definition failed (r : JobResult) : Prop := jrSuccess r = false.

(** A stage accumulator as ExecutePlan creates it. *)
Definition newStageResult (name : string) : StageResult :=
  {| srName := name; srSuccess := false; srJobs := [] |}.

(** ** Vocabulary for the orchestrator's statements *)

(** The stage result ExecutePlan appends for a stage whose execution
    ended in [st]. *)
Definition closeStage (st : ExecState) : StageResult :=
  {| srName := srName (exStage st);
     srSuccess := bool_decide (exErr st = None);
     srJobs := srJobs (exStage st) |}.

(** The context ExecutePlan creates and the result it starts from. *)
Definition planContext (id : string) (ctx : Context) (plan : Plan) : Context :=
  {| executionID := Some id; variables := Some (Variables plan);
     stageName := stageName ctx |}.

Definition initialResult (id : string) (plan : Plan) : ExecutionResult :=
  {| erID := id; erSuccess := false;
     erTotalStages := length (Stages plan);
     erTotalJobs := countTotalJobs plan;
     erCompletedJobs := 0; erFailedJobs := 0; erStages := [] |}.

(** The state of the stage loop after the forward stages [pre], all of
    which succeeded, starting at index [i]: the result accumulated and
    the handler calls made so far. *)
Fixpoint after_stages (ord : nat → nat → list string) (pm : Manager)
    (execCtx : Context) (options : ExecuteOptions) (i : nat) (pre : list Stage)
    (result : ExecutionResult) (tr : Trace) : option (ExecutionResult * Trace) :=
  match pre with
  | [] => Some (result, tr)
  | stage :: rest =>
      match executeStage (ord i) pm execCtx stage (newStageResult (StageName stage))
              options tr with
      | Some st =>
          match exErr st with
          | None => after_stages ord pm execCtx options (S i) rest
                      (appendStage result (closeStage st)) (exTrace st)
          | Some _ => None
          end
      | None => None
      end
  end.

(** The rollback stages [stages], numbered from [j], are each executed
    once and in order, each on a graph built for it and with a stage
    result of its own, in real mode; [sts] are the final states of these
    executions, whatever their errors, and [tr'] is the trace after the
    last one. *)
Inductive runs_rollback (rord : nat → nat → list string) (pm : Manager)
    (ctx : Context) : nat → list Stage → Trace → list ExecState → Trace → Prop :=
| runs_rollback_nil j tr : runs_rollback rord pm ctx j [] tr [] tr
| runs_rollback_cons j stage rest tr st sts tr' :
    ExecuteGraph (rord j) pm ctx (buildDependencyGraph (Jobs stage))
      (newStageResult (StageName stage)) false tr = Some st →
    runs_rollback rord pm ctx (S j) rest (exTrace st) sts tr' →
    runs_rollback rord pm ctx j (stage :: rest) tr (st :: sts) tr'.

(** A plan and options from which every approval requirement is gone. *)
Definition withoutApproval (stage : Stage) : Stage :=
  {| StageName := StageName stage; Description := Description stage;
     RequireApproval := false; Approvers := []; Jobs := Jobs stage |}.

Definition planWithoutApproval (plan : Plan) : Plan :=
  {| Variables := Variables plan;
     Stages := map withoutApproval (Stages plan);
     Rollback_ := Rollback_ plan |}.

Definition skippingApproval (options : ExecuteOptions) : ExecuteOptions :=
  {| AutoRollback := AutoRollback options; SkipApproval := true;
     DryRun := DryRun options |}.

(** The same plan and options with another rollback section and
    another AutoRollback flag. *)
Definition withRollback (rb : option Rollback) (plan : Plan) : Plan :=
  {| Variables := Variables plan; Stages := Stages plan; Rollback_ := rb |}.

Definition withAutoRollback (b : bool) (options : ExecuteOptions) : ExecuteOptions :=
  {| AutoRollback := b; SkipApproval := SkipApproval options;
     DryRun := DryRun options |}.

(** The handler registered for the type of [r], if there is one, has
    been called for it: after the calls [tr0] its Validate capability was
    called, and its Execute capability right after that unless the
    validation failed. *)
Definition handler_called (pm : Manager) (tr : Trace) (r : JobResult) : Prop :=
  ∀ plg, registry pm !! jrType r = Some plg →
    ∃ tr0 c cfg,
      (tr0 ++ [EvValidate (PluginName plg) c cfg]) `prefix_of` tr ∧
      (Validate plg tr0 c cfg = None →
       (tr0 ++ [EvValidate (PluginName plg) c cfg; EvExecute (PluginName plg) c cfg])
         `prefix_of` tr).

(** ** Vocabulary for the resolver's statements *)

(** [c] occurs in [s]. *)
Fixpoint has_char (c : ascii) (s : string) : bool :=
  match s with
  | EmptyString => false
  | String c' s' => Ascii.eqb c' c || has_char c s'
  end.

(** The string is exactly one reference: ["${"], a non-empty path
    without ['}'], ["}"], and nothing around it (the pattern anchored at
    both ends). *)
Definition whole_reference (s : string) : Prop :=
  ∃ path, path ≠ EmptyString ∧ has_char "}" path = false ∧
          s = "${" +:+ path +:+ "}".

(** [v] is the value stored at the path of segments [segs] below [cur]:
    every segment but the last leads to a mapping that has the next
    segment as a key. *)
Inductive stored_at : list string → Value → Value → Prop :=
| stored_here v : stored_at [] v v
| stored_below seg segs m child v :
    lookup_key seg m = Some child →
    stored_at segs child v →
    stored_at (seg :: segs) (VMap m) v.

(** The two errors resolvePath reports for a path that does not resolve:
    a segment is not a key of the mapping reached, or the value reached
    is not a mapping. *)
Definition path_error (path : string) (err : error) : Prop :=
  err = "reference path not found: " +:+ path ∨
  err = "invalid reference path: " +:+ path.

(** The replacement function resolveString hands to
    ReplaceAllStringFunc. *)
Definition substitute (context : Config) (match_ : string) : string :=
  match resolvePath (ref_path match_) context with
  | inr _ => match_
  | inl resolvedValue => fmtV resolvedValue
  end.

(* ===================================================================== *)
(** * Handlers, graphs and plans used to instantiate the theorems *)
(* ===================================================================== *)

(** Two jobs [A] and [B ← A], used to instantiate the theorems. *)
Definition job_A : Job :=
  {| Name := "A"; Type_ := "mock"; DependsOn := []; Timeout := ""; Retries := 0;
     Config_ := [] |}.
Definition job_B : Job :=
  {| Name := "B"; Type_ := "mock"; DependsOn := ["A"]; Timeout := ""; Retries := 0;
     Config_ := [] |}.
Definition graph_AB : JobGraph := buildDependencyGraph [job_A; job_B].

Definition plugin_ok : Plugin :=
  {| PluginName := "ok";
     Validate := λ _ _ _, None;
     Execute := λ _ ctx _,
       inl {| Success := true; Data := []; Message := "done";
              ExecutionID := default "" (executionID ctx) |} |}.

Definition plugin_bad : Plugin :=
  {| PluginName := "bad";
     Validate := λ _ _ _, None;
     Execute := λ _ ctx _,
       inl {| Success := false; Data := []; Message := "boom";
              ExecutionID := default "" (executionID ctx) |} |}.

Definition pm_demo : Manager :=
  (RegisterPlugin plugin_bad (RegisterPlugin plugin_ok (NewManager "plugins")).2).2.

Definition simple_job (name type : string) (deps : list string) : Job :=
  {| Name := name; Type_ := type; DependsOn := deps; Timeout := ""; Retries := 0;
     Config_ := [] |}.

Definition simple_stage (name : string) (jobs : list Job) : Stage :=
  {| StageName := name; Description := ""; RequireApproval := false;
     Approvers := []; Jobs := jobs |}.

(** The stage of three jobs [A], [B ← A], [C ← A] in which [B] fails. *)
Definition jobs_ABC : list Job :=
  [simple_job "A" "ok" []; simple_job "B" "bad" ["A"]; simple_job "C" "ok" ["A"]].

(** Map ranges that always yield the names in the order [names]. *)
Definition fixed_order (names : list string) : nat → list string := λ _, names.

(** Map ranges that yield the job names of stage [i] in the order the
    stage declares them. *)
Definition declared_order (stages : list Stage) : nat → nat → list string :=
  λ i _, match stages !! i with
         | Some stage => map Name (Jobs stage)
         | None => []
         end.

Definition forward_order (plan : Plan) : nat → nat → list string :=
  declared_order (Stages plan).

Definition rollback_order (plan : Plan) : nat → nat → list string :=
  declared_order (match Rollback_ plan with
                  | Some rb => RollbackStages rb
                  | None => []
                  end).

(** The scenario of a three-stage plan whose second stage fails, with a
    two-stage rollback whose first stage fails. *)
Definition plan_demo : Plan :=
  {| Variables := [];
     Stages := [simple_stage "build" [simple_job "A" "ok" []];
                simple_stage "deploy" jobs_ABC;
                simple_stage "verify" [simple_job "D" "ok" []]];
     Rollback_ := Some {| RollbackStages :=
                   [simple_stage "undo-deploy" [simple_job "X" "bad" []];
                    simple_stage "undo-build" [simple_job "Y" "ok" []]] |} |}.


Definition options_rollback : ExecuteOptions :=
  {| AutoRollback := true; SkipApproval := false; DryRun := false |}.

(** A dry run of a plan whose only forward stage has a dependency cycle,
    with a one-stage rollback. *)
Definition plan_cyclic : Plan :=
  {| Variables := [];
     Stages := [simple_stage "deploy" [simple_job "A" "ok" ["A"]]];
     Rollback_ := Some {| RollbackStages :=
                   [simple_stage "undo-deploy" [simple_job "X" "ok" []]] |} |}.

Definition options_dry_rollback : ExecuteOptions :=
  {| AutoRollback := true; SkipApproval := false; DryRun := true |}.

Definition cycle_error : error := "dependency cycle detected in job graph".

Definition options_plain : ExecuteOptions :=
  {| AutoRollback := false; SkipApproval := false; DryRun := false |}.

(** A one-stage plan whose stage requires approval. *)
Definition stage_gated : Stage :=
  {| StageName := "release"; Description := ""; RequireApproval := true;
     Approvers := ["lead@example.com"]; Jobs := [simple_job "A" "ok" []] |}.

Definition plan_gated : Plan :=
  {| Variables := []; Stages := [stage_gated]; Rollback_ := None |}.

(** A one-job plan whose job configuration refers to a plan variable. *)
Definition config_ref : Config := [("port", VStr "${service.port}")].

Definition plan_vars : Plan :=
  {| Variables := [("service", VMap [("port", VInt 8080)])];
     Stages := [simple_stage "deploy"
                  [{| Name := "A"; Type_ := "ok"; DependsOn := []; Timeout := "";
                      Retries := 0; Config_ := config_ref |}]];
     Rollback_ := None |}.

(** The context a job of stage [stage] of [plan] is dispatched with. *)
Definition stageContext (id : string) (plan : Plan) (stage : string) : Context :=
  {| executionID := Some id; variables := Some (Variables plan);
     stageName := Some stage |}.

(** ExecutePlan on a sample plan, with the sample handlers and the
    declared orders. *)
Definition run_sample (id : string) (plan : Plan) (options : ExecuteOptions)
    : option PlanOutcome :=
  ExecutePlan (forward_order plan) (rollback_order plan) pm_demo id background
    plan options.

(** The capability called and the stage name its context carries. *)
Definition event_stage (ev : Event) : string * option string :=
  match ev with
  | EvValidate plugin ctx _ => ("Validate " +:+ plugin, stageName ctx)
  | EvExecute plugin ctx _ => ("Execute " +:+ plugin, stageName ctx)
  end.

(* ===================================================================== *)
(** * Further functions of the cited files *)
(* ===================================================================== *)

(** ** JobGraph *)

(** GetRemainingJobs; [keys] is the order of its range over [g.jobs]. *)
Definition GetRemainingJobs (keys : list string) (g : JobGraph) : list Job :=
  omap (λ name,
          match jobs g !! name with
          | Some job => if bool_decide (name ∈ completed g) then None else Some job
          | None => None
          end) keys.

(** The dependency names the jobs called [name] declare, in the order of
    the job list. *)
Definition declared_deps (js : list Job) (name : string) : list string :=
  concat (map DependsOn (filter (λ job, Name job = name) js)).

(** The names of the jobs that declare [dep], once per declaration, in
    the order of the job list. *)
Definition declared_dependents (js : list Job) (dep : string) : list string :=
  concat (map (λ job, map (λ _, Name job) (filter (λ d, d = dep) (DependsOn job))) js).

(** ** Executor *)

(** In the list [results] every result comes after successful results of
    all dependencies of its job, except for the dependencies in [done0]
    (those completed beforehand). *)
Definition deps_recorded_before (g : JobGraph) (done0 : gset string)
    (results : list JobResult) : Prop :=
  ∀ pre r post, results = pre ++ r :: post →
    ∀ d, d ∈ deps_of g (jrName r) →
      d ∈ done0 ∨ ∃ r', r' ∈ pre ∧ jrName r' = d ∧ jrSuccess r' = true.

(** What an execution started on graph [g0] with the results [base]
    already recorded leaves behind: the results [rec] it recorded and the
    results [unrec] of dispatched jobs it did not record. *)
Definition history_post (g0 : JobGraph) (base : list JobResult) (st : ExecState)
    (rec unrec : list JobResult) : Prop :=
  srJobs (exStage st) = base ++ rec ∧
  concat (exWaves st) = rec ++ unrec ∧
  NoDup (map jrName (rec ++ unrec)) ∧
  deps_recorded_before g0 (completed g0) rec ∧
  completed (exGraph st) =
    completed g0 ∪ list_to_set (map jrName (filter (λ r, jrSuccess r = true) rec)) ∧
  (∀ r, r ∈ rec ++ unrec → jrName r ∈ dom (jobs g0) ∖ completed g0) ∧
  (exErr st = None → unrec = [] ∧ Forall succeeded rec).

(** ** PluginManager *)

(** ListPlugins; [keys] is the order of its range over [pm.registry]. *)
Definition ListPlugins (keys : list string) (pm : Manager) : list Plugin :=
  omap (λ name, registry pm !! name) keys.

(** [keys] is an order in which a range over [pm.registry] may yield the
    names. *)
Definition registry_range (pm : Manager) (keys : list string) : Prop :=
  NoDup keys ∧ ∀ k, k ∈ keys ↔ k ∈ dom (registry pm).

Definition already_registered (name : string) : error :=
  "plugin " +:+ name +:+ " is already registered".

Definition registry_range_check (pm : Manager) (keys : list string) : bool :=
  bool_decide (NoDup keys) &&
  bool_decide (list_to_set keys =@{gset string} dom (registry pm)).

Definition pm_ok : Manager := (RegisterPlugin plugin_ok (NewManager "plugins")).2.

(** ** Orchestrator *)

(** A stage result all of whose jobs succeeded. *)
Definition stage_succeeded (sr : StageResult) : Prop :=
  srSuccess sr = true ∧ Forall succeeded (srJobs sr).

(** A stage result of a stage that failed with the error [cause]: the
    cycle check refused the graph before any job ran, or the results are
    those of jobs that succeeded followed by the one failed job that is
    the cause. *)
Definition stage_failed (sr : StageResult) (cause : error) : Prop :=
  srSuccess sr = false ∧
  ((cause = cycle_error ∧ srJobs sr = []) ∨
   ∃ good bad, srJobs sr = good ++ [bad] ∧ Forall succeeded good ∧ failed bad ∧
               cause = job_error bad).

(** The error ExecutePlan returns for a failed stage. *)
Definition stage_error (name : string) (cause : error) : error :=
  "Stage " +:+ name +:+ " failed: " +:+ cause.

(** All job results of an execution result, in the order recorded. *)
Definition allJobs (result : ExecutionResult) : list JobResult :=
  concat (map srJobs (erStages result)).

(** [ord i k] is, for every forward stage [i] of the plan, an order in
    which the [k]-th range over the jobs of its graph may yield the
    names. *)
Definition plan_orders (plan : Plan) (ord : nat → nat → list string) : Prop :=
  ∀ i stage, Stages plan !! i = Some stage →
    ∀ k, range_of (buildDependencyGraph (Jobs stage)) (ord i k).

(** The jobs of the stage have distinct names and depend only on jobs of
    the stage. *)
Definition stage_closed (stage : Stage) : Prop :=
  NoDup (map Name (Jobs stage)) ∧
  ∀ job d, job ∈ Jobs stage → d ∈ DependsOn job → d ∈ map Name (Jobs stage).

(** The result [sr] recorded for the stage [stage]: it carries the
    stage's name; its job results have distinct names, which are names of
    jobs of the stage, so there are no more of them than jobs; and if the
    stage is marked successful and closed, there is exactly one result
    per job. *)
Definition stage_recorded (stage : Stage) (sr : StageResult) : Prop :=
  srName sr = StageName stage ∧
  NoDup (map jrName (srJobs sr)) ∧
  (∀ r, r ∈ srJobs sr → jrName r ∈ map Name (Jobs stage)) ∧
  length (srJobs sr) ≤ length (Jobs stage) ∧
  (srSuccess sr = true → stage_closed stage →
   map jrName (srJobs sr) ≡ₚ map Name (Jobs stage)).

(** ** Validator (internal/config, validator) *)

(** The fields of models.Plan the engine does not read. *)
Record Metadata : Type := mkMetadata {
  MetaName : string;
  MetaDescription : string;
  Owner : string;
  Version : string
}.

(** models.Plan as the validator sees it: the header fields and the part
    the engine executes. *)
Record PlanDoc : Type := mkPlanDoc {
  APIVersion : string;
  Kind : string;
  Metadata_ : Metadata;
  Includes : list string;
  Body : Plan
}.

(** [visited] and [stack] of checkCircularDependencies. *)
Abbreviation CheckState := (gset string * gset string)%type.

(** The loop [for _, j := range jobs] of the closure checkDeps: [rec] is
    the closure itself. *)
Fixpoint check_named (rec : Job → CheckState → option (error + CheckState))
    (depName : string) (js : list Job) (s : CheckState)
    : option (error + CheckState) :=
  match js with
  | [] => Some (inr s)
  | j :: rest =>
      if String.eqb (Name j) depName then
        match rec j s with
        | Some (inr s') => check_named rec depName rest s'
        | r => r
        end
      else check_named rec depName rest s
  end.

(** The loop [for _, depName := range job.DependsOn] of checkDeps. *)
Fixpoint check_deps (rec : Job → CheckState → option (error + CheckState))
    (jobs : list Job) (jobName : string) (deps : list string) (s : CheckState)
    : option (error + CheckState) :=
  match deps with
  | [] => Some (inr s)
  | depName :: rest =>
      if bool_decide (depName ∉ s.1) then
        match check_named rec depName jobs s with
        | Some (inr s') => check_deps rec jobs jobName rest s'
        | r => r
        end
      else if bool_decide (depName ∈ s.2) then
        Some (inl ("circular dependency detected: " +:+ jobName +:+ " -> " +:+ depName))
      else check_deps rec jobs jobName rest s
  end.

(** The closure checkDeps; [fuel] bounds the depth of its recursion
    ([None]: bound exhausted). *)
Fixpoint checkDeps (fuel : nat) (jobs : list Job) (job : Job) (s : CheckState)
    : option (error + CheckState) :=
  match fuel with
  | O => None
  | S fuel' =>
      let s := ({[Name job]} ∪ s.1, {[Name job]} ∪ s.2) in
      match check_deps (checkDeps fuel' jobs) jobs (Name job) (DependsOn job) s with
      | Some (inr s') => Some (inr (s'.1, s'.2 ∖ {[Name job]}))
      | r => r
      end
  end.

(** The loop [for _, job := range jobs] of checkCircularDependencies
    over the rest [js] of the jobs. *)
Fixpoint check_jobs (fuel : nat) (jobs js : list Job) (s : CheckState)
    : option (error + CheckState) :=
  match js with
  | [] => Some (inr s)
  | job :: rest =>
      if bool_decide (Name job ∉ s.1) then
        match checkDeps fuel jobs job s with
        | Some (inr s') => check_jobs fuel jobs rest s'
        | r => r
        end
      else check_jobs fuel jobs rest s
  end.

(** checkCircularDependencies.  A call of checkDeps from within checkDeps
    is for a name that is not yet visited, so the recursion never nests
    deeper than there are jobs. *)
Definition checkCircularDependencies (jobs : list Job) : option (option error) :=
  match check_jobs (length jobs) jobs jobs (∅, ∅) with
  | None => None
  | Some (inl err) => Some (Some err)
  | Some (inr _) => Some None
  end.

(** The loop [for _, depName := range job.DependsOn] of ValidatePlan.
    The loops over the jobs of a forward stage and of a rollback stage
    differ only in the texts of their errors: [label] is ["stage["] or
    ["rollback.stage["], [kind] is ["stage "] or ["rollback stage "]. *)
Fixpoint validate_deps (label stage job : string) (jobNames : gset string)
    (deps : list string) : option error :=
  match deps with
  | [] => None
  | depName :: rest =>
      if bool_decide (depName ∉ jobNames) then
        Some (label +:+ stage +:+ "].job[" +:+ job +:+ "] depends on unknown job: "
              +:+ depName)
      else validate_deps label stage job jobNames rest
  end.

(** The loop [for j, job := range stage.Jobs] of ValidatePlan from index
    [j] on. *)
Fixpoint validate_jobs (label kind stage : string) (j : nat)
    (jobNames : gset string) (jobs : list Job) : option error :=
  match jobs with
  | [] => None
  | job :: rest =>
      if String.eqb (Name job) "" then
        Some (label +:+ stage +:+ "].job[" +:+ pretty j +:+ "].name is required")
      else if bool_decide (Name job ∈ jobNames) then
        Some ("duplicate job name in " +:+ kind +:+ stage +:+ ": " +:+ Name job)
      else
        let jobNames := {[Name job]} ∪ jobNames in
        if String.eqb (Type_ job) "" then
          Some (label +:+ stage +:+ "].job[" +:+ Name job +:+ "].type is required")
        else
          match validate_deps label stage (Name job) jobNames (DependsOn job) with
          | Some err => Some err
          | None => validate_jobs label kind stage (S j) jobNames rest
          end
  end.

(** The loop [for i, stage := range plan.Stages] of ValidatePlan from
    index [i] on ([None]: the bound of the cycle check was exhausted). *)
Fixpoint validate_stages (i : nat) (stageNames : gset string) (stages : list Stage)
    : option (option error) :=
  match stages with
  | [] => Some None
  | stage :: rest =>
      if String.eqb (StageName stage) "" then
        Some (Some ("stage[" +:+ pretty i +:+ "].name is required"))
      else if bool_decide (StageName stage ∈ stageNames) then
        Some (Some ("duplicate stage name: " +:+ StageName stage))
      else
        let stageNames := {[StageName stage]} ∪ stageNames in
        if length (Jobs stage) =? 0 then
          Some (Some ("stage[" +:+ StageName stage +:+ "] must have at least one job"))
        else
          match validate_jobs "stage[" "stage " (StageName stage) 0 ∅ (Jobs stage) with
          | Some err => Some (Some err)
          | None =>
              (* Check for circular dependencies in each stage *)
              match checkCircularDependencies (Jobs stage) with
              | None => None
              | Some (Some err) =>
                  Some (Some ("in stage " +:+ StageName stage +:+ ": " +:+ err))
              | Some None => validate_stages (S i) stageNames rest
              end
          end
  end.

(** The loop [for i, stage := range plan.Rollback.Stages]. *)
Fixpoint validate_rollback_stages (i : nat) (stages : list Stage) : option error :=
  match stages with
  | [] => None
  | stage :: rest =>
      if String.eqb (StageName stage) "" then
        Some ("rollback.stage[" +:+ pretty i +:+ "].name is required")
      else if length (Jobs stage) =? 0 then
        Some ("rollback.stage[" +:+ StageName stage +:+ "] must have at least one job")
      else
        match validate_jobs "rollback.stage[" "rollback stage " (StageName stage) 0 ∅
                (Jobs stage) with
        | Some err => Some err
        | None => validate_rollback_stages (S i) rest
        end
  end.

(** ValidatePlan; [None] as argument is the nil plan. *)
Definition ValidatePlan (plan : option PlanDoc) : option (option error) :=
  match plan with
  | None => Some (Some "plan cannot be nil")
  | Some plan =>
      (* Check required fields *)
      if String.eqb (APIVersion plan) "" then Some (Some "apiVersion is required")
      else if String.eqb (Kind plan) "" then Some (Some "kind is required")
      else if String.eqb (MetaName (Metadata_ plan)) "" then
        Some (Some "metadata.name is required")
      else if length (Stages (Body plan)) =? 0 then
        Some (Some "at least one stage is required")
      else
        (* Validate stages *)
        match validate_stages 0 ∅ (Stages (Body plan)) with
        | None => None
        | Some (Some err) => Some (Some err)
        | Some None =>
            (* Validate rollback if present *)
            match Rollback_ (Body plan) with
            | None => Some None
            | Some rollback =>
                if length (RollbackStages rollback) =? 0 then
                  Some (Some "rollback must have at least one stage")
                else Some (validate_rollback_stages 0 (RollbackStages rollback))
            end
        end
  end.

(** The jobs are declared properly: their names are distinct, names and
    types are not empty, and every job depends only on jobs declared no
    later than itself. *)
Definition jobs_declared (js : list Job) : Prop :=
  NoDup (map Name js) ∧
  ∀ k job, js !! k = Some job →
    Name job ≠ "" ∧ Type_ job ≠ "" ∧
    ∀ d, d ∈ DependsOn job → d ∈ map Name (take (S k) js).

Definition no_self_dependency (js : list Job) : Prop :=
  ∀ job, job ∈ js → Name job ∉ DependsOn job.

Definition valid_stage (stage : Stage) : Prop :=
  StageName stage ≠ "" ∧ Jobs stage ≠ [] ∧
  jobs_declared (Jobs stage) ∧ no_self_dependency (Jobs stage).

Definition valid_rollback_stage (stage : Stage) : Prop :=
  StageName stage ≠ "" ∧ Jobs stage ≠ [] ∧ jobs_declared (Jobs stage).

Definition valid_plan (plan : option PlanDoc) : Prop :=
  ∃ doc, plan = Some doc ∧
    APIVersion doc ≠ "" ∧ Kind doc ≠ "" ∧ MetaName (Metadata_ doc) ≠ "" ∧
    Stages (Body doc) ≠ [] ∧
    NoDup (map StageName (Stages (Body doc))) ∧
    Forall valid_stage (Stages (Body doc)) ∧
    match Rollback_ (Body doc) with
    | None => True
    | Some rollback =>
        RollbackStages rollback ≠ [] ∧
        Forall valid_rollback_stage (RollbackStages rollback)
    end.

(** The error of the cycle check for a job that depends on itself. *)
Definition self_dependency_error (name : string) : error :=
  "circular dependency detected: " +:+ name +:+ " -> " +:+ name.

(** ** Invariant of the validator's cycle check

    The visited jobs whose call has returned do not depend on
    themselves. *)
Definition check_inv (jobs : list Job) (s : CheckState) : Prop :=
  s.2 ⊆ s.1 ∧
  ∀ j, j ∈ jobs → Name j ∈ s.1 → Name j ∉ s.2 → Name j ∉ DependsOn j.

(** The jobs on the stack are declared after index [k]. *)
Definition stack_above (jobs : list Job) (S : gset string) (k : nat) : Prop :=
  ∀ k' j', jobs !! k' = Some j' → Name j' ∈ S → k < k'.

(** [err] reports a job of [jobs] that depends on itself. *)
Definition check_error (jobs : list Job) (err : error) : Prop :=
  ∃ j, j ∈ jobs ∧ Name j ∈ DependsOn j ∧ err = self_dependency_error (Name j).

(** What a call of checkDeps on a job declared before index [bound]
    guarantees. *)
Definition rec_ok (jobs : list Job)
    (rec : Job → CheckState → option (error + CheckState)) (bound : nat) : Prop :=
  ∀ k job s, jobs !! k = Some job → k < bound →
    check_inv jobs s → stack_above jobs s.2 k →
    ∃ r, rec job s = Some r ∧
      match r with
      | inl err => check_error jobs err
      | inr s' => check_inv jobs s' ∧ s'.2 = s.2 ∧ s.1 ⊆ s'.1 ∧ Name job ∈ s'.1
      end.


(** ** Resolver *)

(** The strings of a configuration value, in the order resolveValue
    visits them. *)
Fixpoint strings_of (v : Value) : list string :=
  match v with
  | VStr s => [s]
  | VList items => concat (map strings_of items)
  | VMap entries =>
      concat (map (λ kv, match kv with (_, x) => strings_of x end) entries)
  | _ => []
  end.

(** The test by which resolveString takes a string for a single
    reference. *)
Definition taken_for_reference (s : string) : bool :=
  MatchString s && HasPrefix s "${" && HasSuffix s "}".

(** [s] is a string that resolveString takes for a single reference and
    whose path does not resolve in [context]. *)
Definition unresolvable (context : Config) (s : string) : Prop :=
  taken_for_reference s = true ∧ ∃ err, resolvePath (ref_path s) context = inr err.

(** [v'] has the structure of [v]: the same mappings with the same keys
    in the same order, lists of the same lengths, the same values other
    than strings; where [v] has a string, [v'] may have any value. *)
Fixpoint same_structure (v v' : Value) : Prop :=
  match v, v' with
  | VStr _, _ => True
  | VList items, VList items' =>
      (fix all (l l' : list Value) : Prop :=
         match l, l' with
         | [], [] => True
         | x :: r, x' :: r' => same_structure x x' ∧ all r r'
         | _, _ => False
         end) items items'
  | VMap entries, VMap entries' =>
      (fix all (l l' : Config) : Prop :=
         match l, l' with
         | [], [] => True
         | (k, x) :: r, (k', x') :: r' => k = k' ∧ same_structure x x' ∧ all r r'
         | _, _ => False
         end) entries entries'
  | VList _, _ | VMap _, _ => False
  | v, v' => v = v'
  end.

(** [s] is the first string of [v], in the order of the visit, that is
    taken for a reference whose path does not resolve. *)
Definition first_unresolvable (context : Config) (v : Value) (s : string) : Prop :=
  ∃ pre post, strings_of v = pre ++ s :: post ∧
    Forall (λ s', ¬ unresolvable context s') pre ∧ unresolvable context s.

(** A configuration without any reference, and a context. *)
Definition config_plain : Config :=
  [("replicas", VInt 3); ("image", VStr "nginx:1.25");
   ("ports", VList [VInt 80; VStr "$HOME"]);
   ("labels", VMap [("tier", VStr "web")])].

(** What a job result records, by the way the job was run: the
    simulated success of a dry run; the failure for a type without
    handler; otherwise, for some call of the handler of its type, the
    rejection of the configuration by Validate, the error of Execute, or
    the result Execute returned. *)
Definition result_by_mode (pm : Manager) (dryRun : bool) (r : JobResult) : Prop :=
  if dryRun then
    jrSuccess r = true ∧ jrMessage r = "Dry run simulation" ∧ jrData r = []
  else
    match registry pm !! jrType r with
    | None =>
        jrSuccess r = false ∧ jrData r = [] ∧
        jrMessage r = "Failed to execute job: plugin " +:+ jrType r +:+ " not found"
    | Some plg =>
        ∃ tr ctx config,
          match Validate plg tr ctx config with
          | Some err =>
              jrSuccess r = false ∧ jrData r = [] ∧
              jrMessage r = "Failed to execute job: invalid configuration: " +:+ err
          | None =>
              match Execute plg (tr ++ [EvValidate (PluginName plg) ctx config])
                      ctx config with
              | inr err =>
                  jrSuccess r = false ∧ jrData r = [] ∧
                  jrMessage r = "Failed to execute job: " +:+ err
              | inl result =>
                  jrSuccess r = Success result ∧ jrData r = Data result ∧
                  jrMessage r = Message result
              end
          end
    end.

(** ** Loader (internal/config, loader)

    LoadPlan from the parsed plan document on.  The files are outside
    the model: [readInclude path] is what reading and parsing the include
    file at [path] gives, the parsed document or the error loadInclude
    returns for it; [Base] and [Join] are [filepath.Base] and
    [filepath.Join].  [l.cache] is an association list in which the
    entry stored last for a key is the one found.  The conversion of the
    resolved document to models.Plan is not part of the model. *)

(** The loop [for _, field := range required] of validateRawPlan. *)
Fixpoint missing_field (required : list string) (raw : Config) : option error :=
  match required with
  | [] => None
  | field :: rest =>
      match lookup_key field raw with
      | None => Some ("missing required field: " +:+ field)
      | Some _ => missing_field rest raw
      end
  end.

Definition validateRawPlan (raw : Config) : option error :=
  missing_field ["apiVersion"; "kind"; "metadata"] raw.

Section loader.
Variable readInclude : string → Config + error.
Variable Base : string → string.
Variable Join : string → string → string.

Definition loadInclude (filePath : string) (cache : Config) : option error * Config :=
  match readInclude filePath with
  | inr err => (Some err, cache)
  | inl rawConfig =>
      (* Get include key based on kind *)
      let key :=
        match lookup_key "kind" rawConfig with
        | Some (VStr kind) => kind
        | _ => Base filePath
        end in
      (* Store in cache *)
      (None, (key, VMap rawConfig) :: cache)
  end.

(** The loop [for _, include := range includes] of LoadPlan. *)
Fixpoint load_includes (baseDir : string) (includes : list Value) (cache : Config)
    : option error * Config :=
  match includes with
  | [] => (None, cache)
  | VMap includeMap :: rest =>
      match lookup_key "path" includeMap with
      | Some (VStr path) =>
          match loadInclude (Join baseDir path) cache with
          | (Some err, cache') =>
              (Some ("failed to load include " +:+ path +:+ ": " +:+ err), cache')
          | (None, cache') => load_includes baseDir rest cache'
          end
      | _ => load_includes baseDir rest cache
      end
  | _ :: rest => load_includes baseDir rest cache
  end.

(** LoadPlan once the plan file in directory [baseDir] has been parsed to
    [rawPlan]: the resolved document or the error, and the cache
    afterwards. *)
Definition LoadPlan_parsed (baseDir : string) (rawPlan cache : Config)
    : (Config + error) * Config :=
  (* Validate the raw plan structure before processing *)
  match validateRawPlan rawPlan with
  | Some err => (inr ("invalid plan structure: " +:+ err), cache)
  | None =>
      (* Process includes *)
      let '(err, cache) :=
        match lookup_key "includes" rawPlan with
        | Some (VList includes) => load_includes baseDir includes cache
        | _ => (None, cache)
        end in
      match err with
      | Some err => (inr err, cache)
      | None =>
          (* Resolve variable references *)
          match ResolveValues rawPlan cache with
          | inr err => (inr ("failed to resolve variables: " +:+ err), cache)
          | inl resolvedPlan => (inl resolvedPlan, cache)
          end
      end
  end.
End loader.

(** A parsed plan whose job configuration refers to a variable of the
    plan itself. *)
Definition raw_demo : Config :=
  [("apiVersion", VStr "grp/v1"); ("kind", VStr "ReleasePlan");
   ("metadata", VMap [("name", VStr "demo")]);
   ("variables", VMap [("port", VInt 8080)]);
   ("stages",
    VList [VMap [("name", VStr "deploy");
                 ("jobs",
                  VList [VMap [("name", VStr "A"); ("type", VStr "ok");
                               ("config",
                                VMap [("port", VStr "${variables.port}")])]])]])].

(** A world without include files. *)
Definition no_files : string → Config + error := λ _, inr "no such file".

(** ** The Kubernetes plugin (plugins/kubernetes) *)

(** How a call ends: it returns, or a type assertion without [ok] flag
    fails and the call panics. *)
Inductive Outcome (A : Type) : Type :=
| Returned (a : A)
| Panicked.
Arguments Returned {A} a.
Arguments Panicked {A}.

Definition validActions : gset string :=
  {["apply"; "delete"; "restart"; "scale"]}.

(** [config[key] == nil] *)
Definition is_nil (v : option Value) : bool :=
  match v with
  | None | Some VNil => true
  | Some _ => false
  end.

(** KubernetesPlugin.Validate; its first loop is that of
    validateRawPlan over other fields. *)
Definition k8s_Validate (config : Config) : option error :=
  (* Check required fields *)
  match missing_field ["namespace"; "resource"; "action"] config with
  | Some err => Some err
  | None =>
      (* Validate action *)
      let action :=
        match lookup_key "action" config with
        | Some (VStr action) => action
        | _ => ""
        end in
      if bool_decide (action ∉ validActions) then
        Some ("invalid action: " +:+ action)
      (* If action is apply, manifest is required *)
      else if String.eqb action "apply" && is_nil (lookup_key "manifest" config) then
        Some "manifest is required for apply action"
      else None
  end.

(** KubernetesPlugin.Execute; [now] is the wall-clock time it formats. *)
Definition k8s_Execute (now : string) (ctx : Context) (config : Config)
    : Outcome (PluginResult + error) :=
  (* Extract configuration *)
  match lookup_key "namespace" config with
  | Some (VStr namespace) =>
      match lookup_key "resource" config with
      | Some (VStr resource) =>
          match lookup_key "action" config with
          | Some (VStr action) =>
              (* Create result *)
              match executionID ctx with
              | Some id =>
                  Returned (inl
                    {| Success := true;
                       Message := "Successfully executed " +:+ action +:+ " on " +:+
                                  resource +:+ " in namespace " +:+ namespace;
                       ExecutionID := id;
                       Data := [("namespace", VStr namespace);
                                ("resource", VStr resource);
                                ("action", VStr action);
                                ("timestamp", VStr now)] |})
              | None => Panicked
              end
          | _ => Panicked
          end
      | _ => Panicked
      end
  | _ => Panicked
  end.

Definition is_string (v : option Value) : Prop := ∃ s, v = Some (VStr s).

(** A job configuration with a numeric namespace. *)
Definition config_k8s : Config :=
  [("namespace", VInt 7); ("resource", VStr "deployment/web");
   ("action", VStr "restart")].

(** ** The validator's cycle check on arbitrary jobs *)

(** [err] reports a dependency [a -> b] of the graph that closes a
    cycle. *)
Definition reports_cycle (g : JobGraph) (err : error) : Prop :=
  ∃ a b, edge g a b ∧ rtc (edge g) b a ∧
         err = "circular dependency detected: " +:+ a +:+ " -> " +:+ b.

(** What a call of checkDeps guarantees when fewer than [bound] job names
    are left unvisited once the job is marked, and every name on the
    stack reaches the job. *)
Definition rec_sound (jobs : list Job)
    (rec : Job → CheckState → option (error + CheckState)) (bound : nat) : Prop :=
  ∀ job s, job ∈ jobs →
    size (list_to_set (map Name jobs) ∖ ({[Name job]} ∪ s.1) : gset string) < bound →
    s.2 ⊆ s.1 → Name job ∉ s.2 →
    (∀ x, x ∈ s.2 → rtc (edge (buildDependencyGraph jobs)) x (Name job)) →
    ∃ r, rec job s = Some r ∧
      match r with
      | inl err => reports_cycle (buildDependencyGraph jobs) err
      | inr s' => s'.2 = s.2 ∧ {[Name job]} ∪ s.1 ⊆ s'.1
      end.

(** Two jobs of the same name, the second of which depends on itself. *)
Definition jobs_twice : list Job :=
  [simple_job "X" "ok" []; simple_job "X" "ok" ["X"]].

(* ===================================================================== *)
(** * Proofs *)
(* ===================================================================== *)

Section dfs_correct.
Context (g : JobGraph).

Lemma deps_of_nonempty_dom node :
  deps_of g node ≠ [] → node ∈ dom (dependencies g).
Proof.
  unfold deps_of. intros H. apply elem_of_dom.
  destruct (dependencies g !! node); [eauto | done].
Qed.

Lemma finished_closed_rtc V R b c :
  dfs_inv g V R → b ∈ V → b ∉ R → rtc (edge g) b c → c ∈ V ∧ c ∉ R.
Proof.
  intros Hinv Hb Hr Hreach. induction Hreach as [|x y z Hxy _ IH]; [done|].
  destruct (inv_closed _ _ _ Hinv x y Hb Hr Hxy). by apply IH.
Qed.

Lemma dfs_inv_enter V R node :
  dfs_inv g V R → node ∉ V → dfs_inv g ({[node]} ∪ V) ({[node]} ∪ R).
Proof.
  intros [Hsub Hcl Hnc] Hnode. split.
  - set_solver.
  - intros b d Hb Hr Hbd.
    assert (b ∈ V ∧ b ∉ R) as [HbV HbR] by set_solver.
    destruct (Hcl b d HbV HbR Hbd). set_solver.
  - intros b Hb Hr. apply Hnc; set_solver.
Qed.

Lemma dfs_inv_leave V R node :
  dfs_inv g V ({[node]} ∪ R) → node ∈ V →
  (∀ d, edge g node d → d ∈ V ∧ d ∉ ({[node]} ∪ R)) →
  dfs_inv g V R.
Proof.
  intros Hinv HnV Hdeps. split.
  - pose proof (inv_sub _ _ _ Hinv). set_solver.
  - intros b d Hb Hr Hbd. destruct (decide (b = node)) as [->|Hne].
    + destruct (Hdeps d Hbd). set_solver.
    + destruct (inv_closed _ _ _ Hinv b d Hb) as [? ?]; [set_solver|done|].
      set_solver.
  - intros b Hb Hr Hcyc. destruct (decide (b = node)) as [->|Hne].
    + assert (∃ d, edge g node d ∧ rtc (edge g) d node) as (d & Hd & Hback).
      { inversion Hcyc as [? ? H1|? y ? H1 H2]; subst.
        - exists node. split; [done|apply rtc_refl].
        - exists y. split; [done|by apply tc_rtc]. }
      destruct (Hdeps d Hd) as [HdV HdR].
      destruct (finished_closed_rtc _ _ _ _ Hinv HdV HdR Hback). set_solver.
    + eapply (inv_nocyc _ _ _ Hinv b); [done|set_solver|done].
Qed.

Lemma dfs_deps_spec rec node R f :
  (∀ dep V R', dfs_inv g V R' → dep ∉ V →
     (∀ s, s ∈ R' → rtc (edge g) s dep) →
     size (dom (dependencies g) ∖ V) < f →
     ∃ res, rec dep V R' = Some res ∧ dfs_post g dep V R' res) →
  node ∉ R →
  (∀ s, s ∈ R → rtc (edge g) s node) →
  ∀ deps V1,
    dfs_inv g V1 ({[node]} ∪ R) → node ∈ V1 →
    (∀ d, d ∈ deps → edge g node d) →
    (∀ d, edge g node d → d ∈ deps ∨ (d ∈ V1 ∧ d ∉ ({[node]} ∪ R))) →
    (deps = [] ∨ size (dom (dependencies g) ∖ V1) < f) →
    ∃ res, dfs_deps rec node deps V1 ({[node]} ∪ R) = Some res ∧
      match res with
      | (true, _, _) => cyclic g
      | (false, V', R') => R' = R ∧ V1 ⊆ V' ∧ dfs_inv g V' R'
      end.
Proof.
  intros Hrec HnR Hstack deps.
  assert (Hstack1 : ∀ s, s ∈ ({[node]} ∪ R : gset string) → rtc (edge g) s node).
  { intros s [->%elem_of_singleton|Hs]%elem_of_union; [apply rtc_refl|auto]. }
  induction deps as [|dep rest IH]; intros V1 Hinv HnV Hedges Hall Hfuel; simpl.
  - eexists. split; [done|]. simpl.
    split; [set_solver|]. split; [done|].
    replace (({[node]} ∪ R) ∖ {[node]}) with R by set_solver.
    apply dfs_inv_leave with node; [done..|].
    intros d Hd. destruct (Hall d Hd) as [Hin|?]; [|done]. by apply elem_of_nil in Hin.
  - assert (Hdep : edge g node dep) by (apply Hedges; left).
    assert (Hf : size (dom (dependencies g) ∖ V1) < f) by (by destruct Hfuel).
    case_bool_decide as HdV; [case_bool_decide as HdR|].
    + eexists. split; [done|]. simpl. exists dep.
      eapply tc_rtc_l; [by apply Hstack1|by apply tc_once].
    + apply IH; [done..| |  |by right].
      * intros d Hd. apply Hedges. by right.
      * intros d Hd. destruct (Hall d Hd) as [[->|Hin]%elem_of_cons|?]; auto.
    + destruct (Hrec dep V1 ({[node]} ∪ R) Hinv HdV) as ([[b V2] R2] & -> & Hpost); [|done|].
      { intros s Hs. eapply rtc_r; [by apply Hstack1|done]. }
      destruct b; simpl in Hpost.
      * eexists. split; [done|]. done.
      * destruct Hpost as (-> & Hsub & HdV2 & Hinv2).
        destruct (IH V2) as (res & Hres & Hpost2); [done|set_solver| | | |].
        -- intros d Hd. apply Hedges. by right.
        -- pose proof (inv_sub _ _ _ Hinv) as Hsub1.
           intros d Hd. destruct (Hall d Hd) as [[->|Hin]%elem_of_cons|[? ?]];
             [right; split; [done|set_solver] | by left | right; split; [set_solver|done]].
        -- right. eapply Nat.le_lt_trans; [|exact Hf].
           apply subseteq_size. set_solver.
        -- exists res. split; [done|]. destruct res as [[[] ?] ?]; [done|].
           destruct Hpost2 as (? & ? & ?). split; [done|]. split; [set_solver|done].
Qed.

Lemma hasCyclesDFS_spec fuel : ∀ node V R,
  dfs_inv g V R → node ∉ V →
  (∀ s, s ∈ R → rtc (edge g) s node) →
  size (dom (dependencies g) ∖ V) < fuel →
  ∃ res, hasCyclesDFS fuel g node V R = Some res ∧ dfs_post g node V R res.
Proof.
  induction fuel as [|f IH]; intros node V R Hinv HnV Hstack Hfuel; [lia|].
  simpl.
  assert (HnR : node ∉ R) by (pose proof (inv_sub _ _ _ Hinv); set_solver).
  destruct (dfs_deps_spec (hasCyclesDFS f g) node R f IH HnR Hstack
              (deps_of g node) ({[node]} ∪ V)) as (res & Hres & Hpost).
  - by apply dfs_inv_enter.
  - set_solver.
  - done.
  - intros d Hd. by left.
  - destruct (decide (deps_of g node = [])) as [|Hne]; [by left|right].
    apply deps_of_nonempty_dom in Hne.
    assert (dom (dependencies g) ∖ ({[node]} ∪ V) ⊂ dom (dependencies g) ∖ V) as Hlt.
    { apply strict_spec_alt. split; [set_solver|].
      intros Heq. assert (node ∈ dom (dependencies g) ∖ V) as Hin by set_solver.
      rewrite <- Heq in Hin. set_solver. }
    apply subset_size in Hlt. lia.
  - exists res. split; [done|]. destruct res as [[[] V'] R']; simpl; [done|].
    destruct Hpost as (? & ? & ?).
    split; [done|]. split; [set_solver|]. split; [set_solver|done].
Qed.
End dfs_correct.

Section has_cycles.
Context (g : JobGraph).

Lemma dfs_inv_empty : dfs_inv g ∅ ∅.
Proof. split; set_solver. Qed.

Lemma HasCycles_loop_spec fuel :
  size (dom (dependencies g)) < fuel →
  ∀ names V, dfs_inv g V ∅ →
    ∃ b, HasCycles_loop fuel g names V ∅ = Some b ∧
      if b then cyclic g
      else ∃ V', dfs_inv g V' ∅ ∧ V ⊆ V' ∧ ∀ n, n ∈ names → n ∈ V'.
Proof.
  intros Hfuel names. induction names as [|name rest IH]; intros V Hinv; simpl.
  - exists false. split; [done|]. exists V. set_solver.
  - case_bool_decide as HnV.
    + destruct (IH V Hinv) as (b & -> & Hb). exists b. split; [done|].
      destruct b; [done|]. destruct Hb as (V' & ? & ? & ?). exists V'. set_solver.
    + destruct (hasCyclesDFS_spec g fuel name V ∅ Hinv HnV) as ([[b V1] R1] & -> & Hpost).
      { set_solver. }
      { eapply Nat.le_lt_trans; [|exact Hfuel]. apply subseteq_size. set_solver. }
      destruct b; simpl in Hpost.
      * by exists true.
      * destruct Hpost as (-> & Hsub & Hin & Hinv1).
        destruct (IH V1 Hinv1) as (b & -> & Hb). exists b. split; [done|].
        destruct b; [done|]. destruct Hb as (V' & ? & ? & ?). exists V'. set_solver.
Qed.

(** A cycle passes through the target of one of its edges. *)
Lemma cycle_through_target x :
  tc (edge g) x x → ∃ y, edge g x y ∧ tc (edge g) y y.
Proof.
  intros Hcyc. inversion Hcyc as [? ? H1|? y ? H1 H2]; subst.
  - exists x. split; [done|by apply tc_once].
  - exists y. split; [done|]. eapply tc_r; [exact H2|done].
Qed.

Lemma HasCycles_fuel_spec fuel keys :
  deps_registered g → range_of g keys → dfs_budget g ≤ fuel →
  ∃ b, HasCycles_fuel fuel keys g = Some b ∧ (b = true ↔ cyclic g).
Proof.
  intros Hreg [_ Hkeys] Hfuel. unfold HasCycles_fuel, dfs_budget in *.
  destruct (HasCycles_loop_spec fuel ltac:(lia) keys ∅ dfs_inv_empty) as (b & -> & Hb).
  exists b. split; [done|]. destruct b; [done|].
  split; [done|]. intros [x Hcyc]. exfalso.
  destruct Hb as (V' & Hinv & _ & Hall).
  destruct (cycle_through_target x Hcyc) as (y & Hxy & Hy).
  apply (inv_nocyc _ _ _ Hinv y); [|set_solver|done].
  apply Hall, Hkeys. by eapply Hreg.
Qed.

Lemma deps_registered_check_ok :
  deps_registered_check g = true → deps_registered g.
Proof.
  unfold deps_registered_check, deps_registered, edge, deps_of.
  intros Hchk a b Hab.
  destruct (dependencies g !! a) as [ds|] eqn:Hds; simpl in Hab; [|by apply elem_of_nil in Hab].
  rewrite forallb_forall in Hchk.
  specialize (Hchk (a, ds)). rewrite forallb_forall in Hchk.
  eapply bool_decide_eq_true_1, Hchk.
  - apply list_elem_of_In. by apply elem_of_map_to_list.
  - by apply list_elem_of_In.
Qed.

Lemma range_of_check_ok keys : range_of_check g keys = true → range_of g keys.
Proof.
  unfold range_of_check, range_of.
  intros [H1%bool_decide_eq_true_1 H2%bool_decide_eq_true_1]%andb_true_iff.
  split; [done|]. intros k. rewrite <- H2. by rewrite elem_of_list_to_set.
Qed.
End has_cycles.

(** C6. For a job graph whose dependency edges all target registered
    jobs, and for every order in which the range over [g.jobs] yields the
    names, HasCycles returns (the depth budget is never exhausted, and any
    larger budget gives the same answer) and it returns [true] if and
    only if the dependency relation contains a cycle. *)
Theorem HasCycles_iff_cyclic (g : JobGraph) (keys : list string) :
  deps_registered g → range_of g keys →
  ∃ b, HasCycles keys g = Some b ∧
       (∀ fuel, dfs_budget g ≤ fuel → HasCycles_fuel fuel keys g = Some b) ∧
       (b = true ↔ cyclic g).
Proof.
  intros Hreg Hkeys.
  destruct (HasCycles_fuel_spec g (dfs_budget g) keys Hreg Hkeys (le_n _)) as (b & Hb & Hiff).
  exists b. split; [done|]. split; [|done].
  intros fuel Hfuel.
  destruct (HasCycles_fuel_spec g fuel keys Hreg Hkeys Hfuel) as (b' & -> & Hiff').
  f_equal. destruct b, b'; try done.
  - by destruct (proj2 Hiff' (proj1 Hiff eq_refl)).
  - by destruct (proj2 Hiff (proj1 Hiff' eq_refl)).
Qed.

Lemma HasCycles_iff_cyclic_witness :
  deps_registered graph_AB ∧ range_of graph_AB ["B"; "A"] ∧
  ∃ b, HasCycles ["B"; "A"] graph_AB = Some b ∧
       (∀ fuel, dfs_budget graph_AB ≤ fuel →
                HasCycles_fuel fuel ["B"; "A"] graph_AB = Some b) ∧
       (b = true ↔ cyclic graph_AB).
Proof.
  assert (H1 : deps_registered graph_AB)
    by (apply deps_registered_check_ok; vm_compute; reflexivity).
  assert (H2 : range_of graph_AB ["B"; "A"])
    by (apply range_of_check_ok; vm_compute; reflexivity).
  split; [exact H1|]. split; [exact H2|].
  exact (HasCycles_iff_cyclic graph_AB ["B"; "A"] H1 H2).
Defined.

(* --------------------------------------------------------------------- *)
(** ** The executor: one wave *)
(* --------------------------------------------------------------------- *)

Lemma appendJobs_nil sr : appendJobs sr [] = sr.
Proof. destruct sr. unfold appendJobs. simpl. by rewrite app_nil_r. Qed.

Lemma appendJobs_cons sr r l :
  appendJobs (appendJob sr r) l = appendJobs sr (r :: l).
Proof. unfold appendJobs, appendJob. simpl. by rewrite <- app_assoc. Qed.

Lemma recorded_cons_ok r rest :
  jrSuccess r = true → recorded (r :: rest) = r :: recorded rest.
Proof. unfold recorded, first_failure. simpl. by intros ->. Qed.

Lemma recorded_cons_fail r rest :
  jrSuccess r = false → recorded (r :: rest) = [r].
Proof. unfold recorded, first_failure. simpl. by intros ->. Qed.

Lemma first_failure_cons_ok r rest :
  jrSuccess r = true → first_failure (r :: rest) = first_failure rest.
Proof. unfold first_failure. simpl. by intros ->. Qed.

Lemma first_failure_cons_fail r rest :
  jrSuccess r = false → first_failure (r :: rest) = Some r.
Proof. unfold first_failure. simpl. by intros ->. Qed.

Lemma processResults_spec results : ∀ g sr,
  processResults results g sr =
    (job_error <$> first_failure results,
     mark_all (map jrName (succeeded_before results)) g,
     appendJobs sr (recorded results)).
Proof.
  induction results as [|r rest IH]; intros g sr.
  - simpl. by rewrite appendJobs_nil.
  - destruct (jrSuccess r) eqn:Hr.
    + rewrite (recorded_cons_ok _ _ Hr), (first_failure_cons_ok _ _ Hr).
      simpl. rewrite Hr, IH, appendJobs_cons. done.
    + rewrite (recorded_cons_fail _ _ Hr), (first_failure_cons_fail _ _ Hr).
      simpl. rewrite Hr. done.
Qed.

Lemma first_failure_None results :
  first_failure results = None →
  Forall succeeded results ∧ succeeded_before results = results ∧
  recorded results = results.
Proof.
  unfold recorded, first_failure, succeeded.
  induction results as [|r rest IH]; simpl; [done|].
  destruct (jrSuccess r) eqn:Hr; simpl; [|done].
  intros H. destruct (IH H) as (? & Heq & ?). rewrite H, Heq in *. simpl.
  split; [by constructor|]. by rewrite app_nil_r.
Qed.

Lemma first_failure_Some results bad :
  first_failure results = Some bad →
  failed bad ∧ Forall succeeded (succeeded_before results) ∧
  recorded results = succeeded_before results ++ [bad] ∧
  ∃ post, results = succeeded_before results ++ bad :: post.
Proof.
  unfold recorded, first_failure, succeeded, failed.
  induction results as [|r rest IH]; simpl; [done|].
  destruct (jrSuccess r) eqn:Hr; simpl.
  - intros H. destruct (IH H) as (? & ? & ? & post & Hpost). rewrite H. simpl.
    split; [done|]. split; [by constructor|]. split; [done|].
    exists post. by rewrite <- Hpost.
  - intros [= <-]. split; [done|]. split; [constructor|]. split; [done|]. by exists rest.
Qed.

Lemma runJob_name pm dryRun tr ctx job :
  jrName (runJob pm dryRun tr ctx job).1 = Name job.
Proof.
  unfold runJob. destruct dryRun; [done|].
  by destruct (executeJob pm tr ctx job) as [[[? ?] ?] ?].
Qed.

Lemma runWave_names pm dryRun ctx readyJobs : ∀ tr,
  map jrName (runWave pm dryRun tr ctx readyJobs).1 = map Name readyJobs.
Proof.
  induction readyJobs as [|job rest IH]; intros tr; simpl; [done|].
  pose proof (runJob_name pm dryRun tr ctx job) as Hn.
  destruct (runJob pm dryRun tr ctx job) as [result tr1]. simpl in Hn.
  specialize (IH tr1). destruct (runWave pm dryRun tr1 ctx rest) as [results tr2].
  simpl in *. by rewrite Hn, IH.
Qed.

Lemma wave_step_shape fuel ord k pm dryRun ctx job rest g sr tr ws :
  let results := (runWave pm dryRun tr ctx (job :: rest)).1 in
  let tr' := (runWave pm dryRun tr ctx (job :: rest)).2 in
  let g' := mark_all (map jrName (succeeded_before results)) g in
  let sr' := appendJobs sr (recorded results) in
  waves (S fuel) ord k pm dryRun ctx (job :: rest) g sr tr ws =
    match first_failure results with
    | Some bad =>
        Some (mkExecState (Some (job_error bad)) g' sr' tr' (ws ++ [results]))
    | None =>
        waves fuel ord (S k) pm dryRun ctx (GetReadyJobs (ord (S k)) g')
          g' sr' tr' (ws ++ [results])
    end.
Proof.
  intros results tr' g' sr'. subst results tr' g' sr'. cbn [waves].
  destruct (runWave pm dryRun tr ctx (job :: rest)) as [results tr']. simpl.
  rewrite processResults_spec. by destruct (first_failure results).
Qed.

(** Unrolls one wave in a hypothesis about [waves (S _) ... (_ :: _)]. *)
Ltac unroll_wave H := rewrite wave_step_shape in H; cbv zeta in H.

(** C1 (as the code has it). One wave of ExecuteGraph, for a non-empty
    ready list [job :: rest]: after the barrier the results are in
    dispatch order ([jobResults[i]] belongs to [readyJobs[i]]); the stage
    accumulator receives, in that order, the results up to and including
    the first failed one; the jobs before the first failure are marked
    completed; if a job failed the executor returns the error naming the
    first failed job and its message and starts no further wave,
    otherwise every result was appended and the next wave is computed. *)
Theorem wave_records_up_to_first_failure
    (fuel : nat) (ord : nat → list string) (k : nat) (pm : Manager)
    (dryRun : bool) (ctx : Context) (job : Job) (rest : list Job)
    (g : JobGraph) (sr : StageResult) (tr : Trace) (ws : list (list JobResult)) :
  let readyJobs := job :: rest in
  let results := (runWave pm dryRun tr ctx readyJobs).1 in
  let tr' := (runWave pm dryRun tr ctx readyJobs).2 in
  let g' := mark_all (map jrName (succeeded_before results)) g in
  let sr' := appendJobs sr (recorded results) in
  map jrName results = map Name readyJobs ∧
  processResults results g sr = (job_error <$> first_failure results, g', sr') ∧
  match first_failure results with
  | Some bad =>
      failed bad ∧
      (∃ post, results = succeeded_before results ++ bad :: post) ∧
      recorded results = succeeded_before results ++ [bad] ∧
      waves (S fuel) ord k pm dryRun ctx readyJobs g sr tr ws =
        Some (mkExecState (Some (job_error bad)) g' sr' tr' (ws ++ [results]))
  | None =>
      recorded results = results ∧
      waves (S fuel) ord k pm dryRun ctx readyJobs g sr tr ws =
        waves fuel ord (S k) pm dryRun ctx (GetReadyJobs (ord (S k)) g')
          g' sr' tr' (ws ++ [results])
  end.
Proof.
  intros readyJobs results tr' g' sr'.
  split; [apply runWave_names|]. split; [apply processResults_spec|].
  pose proof (wave_step_shape fuel ord k pm dryRun ctx job rest g sr tr ws) as Hw.
  cbv zeta in Hw. fold readyJobs results tr' g' sr' in Hw. rewrite Hw.
  destruct (first_failure results) as [bad|] eqn:Hff.
  - destruct (first_failure_Some _ _ Hff) as (? & ? & ? & ?). done.
  - destruct (first_failure_None _ Hff) as (? & ? & ?). done.
Qed.

(* --------------------------------------------------------------------- *)
(** ** The executor: termination and completion *)
(* --------------------------------------------------------------------- *)

Lemma mark_all_jobs names : ∀ g, jobs (mark_all names g) = jobs g.
Proof. induction names as [|n l IH]; intros g; simpl; [done|]. by rewrite IH. Qed.

Lemma mark_all_dependencies names : ∀ g,
  dependencies (mark_all names g) = dependencies g.
Proof. induction names as [|n l IH]; intros g; simpl; [done|]. by rewrite IH. Qed.

Lemma mark_all_completed names : ∀ g,
  completed (mark_all names g) = list_to_set names ∪ completed g.
Proof.
  induction names as [|n l IH]; intros g; simpl; [set_solver|].
  rewrite IH. simpl. set_solver.
Qed.

Lemma forallb_false_witness {A} (f : A → bool) (l : list A) :
  forallb f l = false → ∃ x, x ∈ l ∧ f x = false.
Proof.
  induction l as [|a l IH]; simpl; [done|].
  destruct (f a) eqn:Ha; simpl.
  - intros (x & ? & ?)%IH. exists x. split; [by right|done].
  - intros _. exists a. split; [by left|done].
Qed.

Lemma elem_of_GetReadyJobs keys g job :
  job ∈ GetReadyJobs keys g ↔
  ∃ name, name ∈ keys ∧ jobs g !! name = Some job ∧ name ∉ completed g ∧
          allDepsCompleted g name = true.
Proof.
  unfold GetReadyJobs. rewrite list_elem_of_omap. split.
  - intros (name & Hin & Hsome). exists name. split; [done|].
    destruct (jobs g !! name) as [j|]; [|done].
    case_bool_decide; [done|].
    destruct (allDepsCompleted g name); [|done]. by simplify_eq.
  - intros (name & Hin & Hj & Hc & Hd). exists name. split; [done|].
    rewrite Hj, Hd. by rewrite bool_decide_eq_false_2.
Qed.

(** In a finite non-empty set in which every name reaches another name
    of the set, some name reaches itself. *)
Lemma stuck_has_cycle g : ∀ n (U : gset string),
  size U = n → U ≠ ∅ →
  (∀ x, x ∈ U → ∃ d, d ∈ U ∧ tc (edge g) x d) → cyclic g.
Proof.
  induction n as [|n IH]; intros U Hsize Hne Hsucc.
  - by apply size_empty_inv, leibniz_equiv in Hsize.
  - apply set_choose_L in Hne as [x Hx].
    destruct (Hsucc x Hx) as (d & Hd & Hxd).
    destruct (decide (d = x)) as [->|Hdx]; [by exists x|].
    apply (IH (U ∖ {[x]})).
    + rewrite size_difference by set_solver. rewrite size_singleton. lia.
    + set_solver.
    + intros y Hy. destruct (Hsucc y) as (e & He & Hye); [set_solver|].
      destruct (decide (e = x)) as [->|Hex].
      * exists d. split; [set_solver|]. by etrans.
      * exists e. split; [set_solver|done].
Qed.

Lemma no_ready_all_completed g keys :
  range_of g keys → deps_registered g → ¬ cyclic g →
  GetReadyJobs keys g = [] → dom (jobs g) ⊆ completed g.
Proof.
  intros [_ Hkeys] Hreg Hacyc Hready x Hx.
  destruct (decide (x ∈ completed g)) as [|Hnc]; [done|]. exfalso. apply Hacyc.
  apply (stuck_has_cycle g _ (dom (jobs g) ∖ completed g) eq_refl); [set_solver|].
  intros y [Hy Hyc]%elem_of_difference.
  destruct (proj1 (elem_of_dom _ _) Hy) as [j Hj].
  destruct (allDepsCompleted g y) eqn:Hall.
  - assert (j ∈ GetReadyJobs keys g) as Hin.
    { apply elem_of_GetReadyJobs. exists y. by rewrite Hkeys. }
    rewrite Hready in Hin. by apply elem_of_nil in Hin.
  - apply forallb_false_witness in Hall as (d & Hd & Hdc).
    apply bool_decide_eq_false_1 in Hdc.
    exists d. split; [|by apply tc_once].
    apply elem_of_difference. split; [|done]. by apply (Hreg y).
Qed.

Lemma same_edges g g' x y :
  dependencies g' = dependencies g → edge g' x y ↔ edge g x y.
Proof. unfold edge, deps_of. by intros ->. Qed.

Lemma ready_names_NoDup g keys :
  graph_wf g → NoDup keys → NoDup (map Name (GetReadyJobs keys g)).
Proof.
  intros Hwf. unfold GetReadyJobs. induction 1 as [|k keys Hk Hnd IH]; simpl; [constructor|].
  destruct (jobs g !! k) as [j|] eqn:Hj; [|done].
  case_bool_decide; [done|]. destruct (allDepsCompleted g k); [|done].
  simpl. constructor; [|done].
  rewrite (Hwf k j Hj). intros (j' & Hn & Hin)%list_elem_of_fmap.
  apply list_elem_of_omap in Hin as (k' & Hk' & Hsome).
  destruct (jobs g !! k') as [j''|] eqn:Hj'; [|done].
  case_bool_decide; [done|]. destruct (allDepsCompleted g k'); [|done].
  simplify_eq. rewrite (Hwf k' j' Hj') in Hk. done.
Qed.

Lemma waves_fuel_mono ord pm dryRun ctx : ∀ fuel k ready g sr tr ws st,
  waves fuel ord k pm dryRun ctx ready g sr tr ws = Some st →
  ∀ fuel', fuel ≤ fuel' →
  waves fuel' ord k pm dryRun ctx ready g sr tr ws = Some st.
Proof.
  induction fuel as [|f IH]; intros k ready g sr tr ws st Hrun fuel' Hle.
  - destruct ready; [|done]. by destruct fuel'.
  - destruct ready as [|job rest]; [by destruct fuel'|].
    destruct fuel' as [|f']; [lia|].
    cbn [waves] in *. destruct (runWave pm dryRun tr ctx (job :: rest)) as [results tr'].
    destruct (processResults results g sr) as [[[err|] g'] sr']; [done|].
    apply IH with (fuel' := f') in Hrun; [done|lia].
Qed.

Section waves_complete.
Context (ord : nat → list string) (pm : Manager) (dryRun : bool) (ctx : Context).
Context (g0 : JobGraph).
Hypothesis Hwf : graph_wf g0.
Hypothesis Hreg : deps_registered g0.
Hypothesis Hacyc : ¬ cyclic g0.
Hypothesis Hord : ∀ k, range_of g0 (ord k).

Lemma graph_facts g :
  jobs g = jobs g0 → dependencies g = dependencies g0 →
  graph_wf g ∧ deps_registered g ∧ ¬ cyclic g ∧ ∀ k, range_of g (ord k).
Proof.
  intros Hjobs Hdeps. split; [|split; [|split]].
  - unfold graph_wf. rewrite Hjobs. apply Hwf.
  - intros a b Hab. rewrite Hjobs. by apply (Hreg a), (same_edges g0 g).
  - intros [x Hx]. apply Hacyc. exists x.
    eapply tc_congruence with (f := id); [|exact Hx].
    intros a b. by apply (same_edges g0 g).
  - intros k. unfold range_of. rewrite Hjobs. apply Hord.
Qed.

Lemma ready_pending g k job :
  jobs g = jobs g0 → dependencies g = dependencies g0 →
  job ∈ GetReadyJobs (ord k) g → Name job ∈ dom (jobs g0) ∖ completed g.
Proof.
  intros Hjobs Hdeps (name & _ & Hj & Hc & _)%elem_of_GetReadyJobs.
  destruct (graph_facts g Hjobs Hdeps) as (Hwfg & _).
  rewrite (Hwfg name job Hj). apply elem_of_difference.
  split; [rewrite <- Hjobs; by apply elem_of_dom|done].
Qed.

Lemma waves_spec : ∀ fuel k g sr tr ws,
  jobs g = jobs g0 → dependencies g = dependencies g0 →
  size (dom (jobs g0) ∖ completed g) ≤ fuel →
  ∃ st new,
    waves fuel ord k pm dryRun ctx (GetReadyJobs (ord k) g) g sr tr ws = Some st ∧
    jobs (exGraph st) = jobs g0 ∧ exWaves st = ws ++ new ∧
    match exErr st with
    | None => Forall succeeded (concat new) ∧
              dom (jobs g0) ⊆ completed (exGraph st)
    | Some _ => Exists failed (concat new) ∧
                ∃ name, name ∈ dom (jobs g0) ∧ name ∉ completed (exGraph st)
    end.
Proof.
  induction fuel as [|f IH]; intros k g sr tr ws Hjobs Hdeps Hsize;
    destruct (graph_facts g Hjobs Hdeps) as (Hwfg & Hregg & Hacycg & Hrange);
    destruct (GetReadyJobs (ord k) g) as [|job rest] eqn:Hready.
  1, 3: exists (mkExecState None g sr tr ws), []; simpl;
        split; [done|]; split; [done|]; split; [by rewrite app_nil_r|];
        split; [constructor|]; rewrite <- Hjobs; by eapply no_ready_all_completed.
  { assert (Name job ∈ dom (jobs g0) ∖ completed g) as Hjob.
    { apply (ready_pending g k); [done..|]. rewrite Hready. left. }
    assert (size (dom (jobs g0) ∖ completed g) ≠ 0); [|lia].
    intros Hz%size_empty_inv. set_solver. }
  assert (Hpend : ∀ n, n ∈ map Name (job :: rest) → n ∈ dom (jobs g0) ∖ completed g).
  { intros n (j & -> & Hin)%list_elem_of_fmap.
    apply (ready_pending g k); [done..|]. by rewrite Hready. }
  assert (Hnd : NoDup (map Name (job :: rest))).
  { rewrite <- Hready. apply ready_names_NoDup; [done|apply Hrange]. }
  pose proof (wave_step_shape f ord k pm dryRun ctx job rest g sr tr ws) as Hstep.
  pose proof (runWave_names pm dryRun ctx (job :: rest) tr) as Hnames.
  cbv zeta in Hstep.
  set (results := (runWave pm dryRun tr ctx (job :: rest)).1) in *.
  set (tr' := (runWave pm dryRun tr ctx (job :: rest)).2) in *.
  rewrite <- Hnames in Hpend, Hnd.
  rewrite Hstep. clear Hstep.
  destruct (first_failure results) as [bad|] eqn:Hff.
  - destruct (first_failure_Some _ _ Hff) as (Hbad & Hpre & Hrec & post & Hpost).
    eexists _, [results]. split; [done|]. simpl.
    split; [by rewrite mark_all_jobs|]. split; [done|].
    split.
    + rewrite app_nil_r, Hpost. apply Exists_app. right. by left.
    + exists (jrName bad).
      assert (jrName bad ∈ map jrName results) as Hin.
      { rewrite Hpost, map_app. apply elem_of_app. right. left. }
      apply Hpend in Hin as [Hreg' Hnc]%elem_of_difference.
      split; [done|].
      rewrite mark_all_completed.
      rewrite Hpost, map_app in Hnd. simpl in Hnd.
      apply NoDup_app in Hnd as (_ & Hdisj & _).
      intros [Hl%elem_of_list_to_set|?]%elem_of_union; [|done].
      apply (Hdisj _ Hl). left.
  - destruct (first_failure_None _ Hff) as (Hall & Hpre & Hrec).
    rewrite Hpre.
    destruct (IH (S k) (mark_all (map jrName results) g) (appendJobs sr (recorded results))
                tr' (ws ++ [results])) as (st & new & Hrun & Hj & Hw & Hpost).
    + by rewrite mark_all_jobs.
    + by rewrite mark_all_dependencies.
    + rewrite mark_all_completed.
      assert (Name job ∈ dom (jobs g0) ∖ completed g) as Hjob.
      { apply Hpend. rewrite Hnames. left. }
      assert (dom (jobs g0) ∖ (list_to_set (map jrName results) ∪ completed g)
              ⊂ dom (jobs g0) ∖ completed g) as Hlt.
      { apply strict_spec_alt. split; [set_solver|]. intros Heq.
        rewrite <- Heq in Hjob. apply elem_of_difference in Hjob as [_ Hjob].
        apply Hjob, elem_of_union. left. apply elem_of_list_to_set.
        rewrite Hnames. left. }
      apply subset_size in Hlt. lia.
    + exists st, (results :: new). split; [done|]. split; [done|].
      split; [by rewrite Hw, <- app_assoc|].
      destruct (exErr st); simpl.
      * destruct Hpost as [? ?]. split; [|done]. apply Exists_app. by right.
      * destruct Hpost as [? ?]. split; [|done]. apply Forall_app. done.
Qed.
End waves_complete.

Lemma HasCycles_acyclic g keys :
  deps_registered g → range_of g keys → ¬ cyclic g → HasCycles keys g = Some false.
Proof.
  intros Hreg Hkeys Hacyc.
  destruct (HasCycles_fuel_spec g (dfs_budget g) keys Hreg Hkeys (le_n _)) as ([] & Hb & Hiff).
  - destruct Hacyc. by apply Hiff.
  - done.
Qed.

Lemma acyclic_check_ok g keys :
  deps_registered g → range_of g keys → HasCycles keys g = Some false → ¬ cyclic g.
Proof.
  intros Hreg Hkeys Hrun Hcyc.
  destruct (HasCycles_fuel_spec g (dfs_budget g) keys Hreg Hkeys (le_n _)) as (b & Hb & Hiff).
  unfold HasCycles in Hrun. rewrite Hrun in Hb. simplify_eq.
  by apply Hiff in Hcyc.
Qed.

Lemma graph_wf_check_ok g : graph_wf_check g = true → graph_wf g.
Proof.
  unfold graph_wf_check, graph_wf. intros Hchk k job Hj.
  rewrite forallb_forall in Hchk. specialize (Hchk (k, job)).
  apply String.eqb_eq, Hchk, list_elem_of_In. by apply elem_of_map_to_list.
Qed.

Lemma IsCompleted_true keys g :
  (∀ k, k ∈ keys → k ∈ completed g) → IsCompleted keys g = true.
Proof.
  intros H. unfold IsCompleted. apply forallb_forall. intros k Hk%list_elem_of_In.
  by apply bool_decide_eq_true_2, H.
Qed.

Lemma IsCompleted_false keys g name :
  name ∈ keys → name ∉ completed g → IsCompleted keys g = false.
Proof.
  intros Hin Hnc. unfold IsCompleted.
  destruct (forallb _ keys) eqn:Hall; [|done].
  rewrite forallb_forall in Hall. apply list_elem_of_In, Hall in Hin.
  by apply bool_decide_eq_true_1 in Hin.
Qed.

Lemma ExecuteGraph_fuel_spec fuel ord pm ctx g sr dryRun tr :
  graph_wf g → deps_registered g → ¬ cyclic g → (∀ k, range_of g (ord k)) →
  size (jobs g) ≤ fuel →
  ∃ st, ExecuteGraph_fuel fuel ord pm ctx g sr dryRun tr = Some st ∧
    jobs (exGraph st) = jobs g ∧
    match exErr st with
    | None => Forall succeeded (concat (exWaves st)) ∧
              dom (jobs g) ⊆ completed (exGraph st)
    | Some _ => Exists failed (concat (exWaves st)) ∧
                ∃ name, name ∈ dom (jobs g) ∧ name ∉ completed (exGraph st)
    end.
Proof.
  intros Hwf Hreg Hacyc Hord Hfuel. unfold ExecuteGraph_fuel.
  rewrite (HasCycles_acyclic g (ord 0) Hreg (Hord 0) Hacyc).
  destruct (waves_spec ord pm dryRun ctx g Hwf Hreg Hacyc Hord fuel 1 g sr tr [])
    as (st & new & Hrun & Hj & Hw & Hpost); [done..| |].
  { etrans; [|exact Hfuel]. rewrite <- size_dom. apply subseteq_size. set_solver. }
  exists st. split; [done|]. split; [done|]. by rewrite Hw.
Qed.

(** C5. For an acyclic job graph all of whose dependency names are
    registered (and whose jobs are stored under their names, as AddJob
    stores them), and for every order of the map ranges and every
    behaviour of the handlers, ExecuteGraph terminates (the wave bound is not
    exhausted, and every larger bound gives the same final state);
    if every dispatched job succeeded it returns [nil] and IsCompleted is
    [true] afterwards, and if some dispatched job failed it returns an
    error and IsCompleted is [false]. *)
Theorem ExecuteGraph_terminates_and_completes
    (ord : nat → list string) (pm : Manager) (ctx : Context) (g : JobGraph)
    (sr : StageResult) (dryRun : bool) (tr : Trace) :
  graph_wf g → deps_registered g → ¬ cyclic g → (∀ k, range_of g (ord k)) →
  ∃ st, ExecuteGraph ord pm ctx g sr dryRun tr = Some st ∧
    (∀ fuel, size (jobs g) ≤ fuel →
             ExecuteGraph_fuel fuel ord pm ctx g sr dryRun tr = Some st) ∧
    (Forall succeeded (concat (exWaves st)) →
       exErr st = None ∧
       ∀ keys, range_of g keys → IsCompleted keys (exGraph st) = true) ∧
    (Exists failed (concat (exWaves st)) →
       is_Some (exErr st) ∧
       ∀ keys, range_of g keys → IsCompleted keys (exGraph st) = false).
Proof.
  intros Hwf Hreg Hacyc Hord.
  destruct (ExecuteGraph_fuel_spec (size (jobs g)) ord pm ctx g sr dryRun tr)
    as (st & Hrun & Hj & Hpost); [done..|].
  exists st. split; [done|]. split; [|split].
  - intros fuel Hfuel. unfold ExecuteGraph_fuel in *.
    destruct (HasCycles (ord 0) g) as [[]|]; [done| |done].
    by eapply waves_fuel_mono.
  - intros Hall. destruct (exErr st) as [e|].
    + destruct Hpost as [Hex _]. apply Exists_exists in Hex as (r & Hr & Hf).
      rewrite Forall_forall in Hall. specialize (Hall r Hr).
      unfold succeeded, failed in *. congruence.
    + split; [done|]. intros keys [_ Hkeys]. apply IsCompleted_true.
      intros k Hk%Hkeys. by apply Hpost.
  - intros Hex. destruct (exErr st) as [e|].
    + split; [done|]. intros keys [_ Hkeys].
      destruct Hpost as (_ & name & Hn & Hnc).
      apply (IsCompleted_false keys _ name); [by apply Hkeys|done].
    + destruct Hpost as [Hall _]. apply Exists_exists in Hex as (r & Hr & Hf).
      rewrite Forall_forall in Hall. specialize (Hall r Hr).
      unfold succeeded, failed in *. congruence.
Qed.

Lemma ExecuteGraph_terminates_and_completes_witness :
  let ord := λ _ : nat, ["B"; "A"] in
  let pm := NewManager "plugins" in
  let sr := newStageResult "deploy" in
  graph_wf graph_AB ∧ deps_registered graph_AB ∧ ¬ cyclic graph_AB ∧
  (∀ k, range_of graph_AB (ord k)) ∧
  ∃ st, ExecuteGraph ord pm background graph_AB sr true [] = Some st ∧
    (∀ fuel, size (jobs graph_AB) ≤ fuel →
             ExecuteGraph_fuel fuel ord pm background graph_AB sr true [] = Some st) ∧
    (Forall succeeded (concat (exWaves st)) →
       exErr st = None ∧
       ∀ keys, range_of graph_AB keys → IsCompleted keys (exGraph st) = true) ∧
    (Exists failed (concat (exWaves st)) →
       is_Some (exErr st) ∧
       ∀ keys, range_of graph_AB keys → IsCompleted keys (exGraph st) = false).
Proof.
  intros ord pm sr.
  assert (H1 : graph_wf graph_AB)
    by (apply graph_wf_check_ok; vm_compute; reflexivity).
  assert (H2 : deps_registered graph_AB)
    by (apply deps_registered_check_ok; vm_compute; reflexivity).
  assert (H4 : ∀ k, range_of graph_AB (ord k))
    by (intros k; apply range_of_check_ok; vm_compute; reflexivity).
  assert (H3 : ¬ cyclic graph_AB)
    by (apply (acyclic_check_ok graph_AB ["B"; "A"] H2 (H4 0)); vm_compute; reflexivity).
  split; [exact H1|]. split; [exact H2|]. split; [exact H3|]. split; [exact H4|].
  exact (ExecuteGraph_terminates_and_completes ord pm background graph_AB sr true [] H1 H2 H3 H4).
Defined.

(* --------------------------------------------------------------------- *)
(** ** The executor on an arbitrary stage graph *)
(* --------------------------------------------------------------------- *)

Lemma AddJob_wf job g : graph_wf g → graph_wf (AddJob job g).
Proof.
  intros Hwf k j. unfold AddJob. simpl. rewrite lookup_insert.
  case_decide; [by intros [= <-]|apply Hwf].
Qed.

Lemma add_jobs_wf jobs : ∀ g,
  graph_wf g → graph_wf (foldl (λ g job, AddJob job g) g jobs).
Proof.
  induction jobs as [|job rest IH]; intros g Hwf; simpl; [done|].
  by apply IH, AddJob_wf.
Qed.

Lemma add_deps_jobs name deps : ∀ g,
  jobs (foldl (λ g depName, AddDependency name depName g) g deps) = jobs g.
Proof. induction deps as [|d l IH]; intros g; simpl; [done|]. by rewrite IH. Qed.

Lemma add_all_deps_jobs (js : list Job) : ∀ g,
  jobs (foldl (λ g job, foldl (λ g depName, AddDependency (Name job) depName g)
                          g (DependsOn job)) g js) = jobs g.
Proof.
  induction js as [|job rest IH]; intros g; simpl; [done|].
  by rewrite IH, add_deps_jobs.
Qed.

Lemma buildDependencyGraph_wf js : graph_wf (buildDependencyGraph js).
Proof.
  unfold buildDependencyGraph, graph_wf. rewrite add_all_deps_jobs.
  apply add_jobs_wf. intros k j. simpl. by rewrite lookup_empty.
Qed.

Lemma HasCycles_total keys g : ∃ b, HasCycles keys g = Some b.
Proof.
  destruct (HasCycles_loop_spec g (dfs_budget g) (Nat.lt_succ_diag_r _) keys ∅
              (dfs_inv_empty g)) as (b & Hb & _).
  by exists b.
Qed.

Lemma ready_pending_any g keys job :
  graph_wf g → job ∈ GetReadyJobs keys g → Name job ∈ dom (jobs g) ∖ completed g.
Proof.
  intros Hwf (name & _ & Hj & Hc & _)%elem_of_GetReadyJobs.
  rewrite (Hwf name job Hj). apply elem_of_difference.
  split; [by apply elem_of_dom|done].
Qed.

Lemma waves_total ord pm dryRun ctx g0 :
  graph_wf g0 →
  ∀ fuel k g sr tr ws,
    jobs g = jobs g0 →
    size (dom (jobs g0) ∖ completed g) ≤ fuel →
    ∃ st, waves fuel ord k pm dryRun ctx (GetReadyJobs (ord k) g) g sr tr ws = Some st.
Proof.
  intros Hwf. induction fuel as [|f IH]; intros k g sr tr ws Hjobs Hsize;
    (assert (Hwfg : graph_wf g) by (unfold graph_wf; rewrite Hjobs; apply Hwf));
    destruct (GetReadyJobs (ord k) g) as [|job rest] eqn:Hready.
  1, 3: by eexists.
  all: assert (Hjob : Name job ∈ dom (jobs g0) ∖ completed g)
    by (rewrite <- Hjobs; apply (ready_pending_any g (ord k)); [done|rewrite Hready; left]).
  { assert (size (dom (jobs g0) ∖ completed g) ≠ 0); [|lia].
    intros Hz%size_empty_inv. set_solver. }
  pose proof (wave_step_shape f ord k pm dryRun ctx job rest g sr tr ws) as Hstep.
  pose proof (runWave_names pm dryRun ctx (job :: rest) tr) as Hnames.
  cbv zeta in Hstep. rewrite Hstep. clear Hstep.
  set (results := (runWave pm dryRun tr ctx (job :: rest)).1) in *.
  destruct (first_failure results) as [bad|] eqn:Hff; [by eexists|].
  destruct (first_failure_None _ Hff) as (_ & Hpre & _). rewrite Hpre.
  apply IH; [by rewrite mark_all_jobs|].
  rewrite mark_all_completed.
  assert (dom (jobs g0) ∖ (list_to_set (map jrName results) ∪ completed g)
          ⊂ dom (jobs g0) ∖ completed g) as Hlt.
  { apply strict_spec_alt. split; [set_solver|]. intros Heq.
    rewrite <- Heq in Hjob. apply elem_of_difference in Hjob as [_ Hjob].
    apply Hjob, elem_of_union. left. apply elem_of_list_to_set.
    rewrite Hnames. left. }
  apply subset_size in Hlt. lia.
Qed.

Lemma ExecuteGraph_total ord pm ctx g sr dryRun tr :
  graph_wf g → ∃ st, ExecuteGraph ord pm ctx g sr dryRun tr = Some st.
Proof.
  intros Hwf. unfold ExecuteGraph, ExecuteGraph_fuel.
  destruct (HasCycles_total (ord 0) g) as ([] & ->); [by eexists|].
  apply (waves_total ord pm dryRun ctx g Hwf); [done|].
  rewrite <- size_dom. apply subseteq_size. set_solver.
Qed.

(** ** Handler calls only accumulate *)

Lemma ExecutePlugin_trace pm tr ctx jobType config :
  tr `prefix_of` (ExecutePlugin pm tr ctx jobType config).2.
Proof.
  unfold ExecutePlugin. destruct (GetPlugin pm jobType) as [plg|]; simpl; [|done].
  destruct (Validate plg _ _ _); simpl.
  - by apply prefix_app_r.
  - rewrite <- app_assoc. by apply prefix_app_r.
Qed.

Lemma runJob_trace pm dryRun tr ctx job :
  tr `prefix_of` (runJob pm dryRun tr ctx job).2.
Proof.
  unfold runJob, executeJob. destruct dryRun; [done|].
  pose proof (ExecutePlugin_trace pm tr ctx (Type_ job) (Config_ job)) as H.
  destruct (ExecutePlugin pm tr ctx (Type_ job) (Config_ job)) as [[res|err] tr']; simpl in *;
    [by destruct (negb (Success res))|done].
Qed.

Lemma runWave_trace pm dryRun ctx readyJobs : ∀ tr,
  tr `prefix_of` (runWave pm dryRun tr ctx readyJobs).2.
Proof.
  induction readyJobs as [|job rest IH]; intros tr; simpl; [done|].
  pose proof (runJob_trace pm dryRun tr ctx job) as H1.
  destruct (runJob pm dryRun tr ctx job) as [result tr1]. simpl in H1.
  specialize (IH tr1). destruct (runWave pm dryRun tr1 ctx rest) as [results tr2].
  simpl in *. by etrans.
Qed.

Lemma runWave_dry pm ctx readyJobs : ∀ tr,
  (runWave pm true tr ctx readyJobs).2 = tr ∧
  Forall succeeded (runWave pm true tr ctx readyJobs).1.
Proof.
  induction readyJobs as [|job rest IH]; intros tr; simpl; [by split|].
  destruct (IH tr) as [Htr Hall]. destruct (runWave pm true tr ctx rest) as [results tr2].
  simpl in *. split; [done|]. by constructor.
Qed.

Lemma waves_trace ord pm dryRun ctx : ∀ fuel k ready g sr tr ws st,
  waves fuel ord k pm dryRun ctx ready g sr tr ws = Some st →
  tr `prefix_of` exTrace st.
Proof.
  induction fuel as [|f IH]; intros k ready g sr tr ws st Hrun;
    destruct ready as [|job rest]; simpl in Hrun; try by simplify_eq.
  pose proof (runWave_trace pm dryRun ctx (job :: rest) tr) as Hpre.
  change (runWave pm dryRun tr ctx (job :: rest)) with
    (let '(result, tr1) := runJob pm dryRun tr ctx job in
     let '(results, tr2) := runWave pm dryRun tr1 ctx rest in (result :: results, tr2)) in Hpre.
  destruct (runJob pm dryRun tr ctx job) as [result tr1].
  destruct (runWave pm dryRun tr1 ctx rest) as [results tr2]. simpl in Hpre.
  destruct (processResults _ g sr) as [[[err|] g'] sr']; [by simplify_eq|].
  apply IH in Hrun. by etrans.
Qed.

Lemma ExecuteGraph_trace ord pm ctx g sr dryRun tr st :
  ExecuteGraph ord pm ctx g sr dryRun tr = Some st → tr `prefix_of` exTrace st.
Proof.
  unfold ExecuteGraph, ExecuteGraph_fuel.
  destruct (HasCycles (ord 0) g) as [[]|]; [by intros [= <-]| |done].
  apply waves_trace.
Qed.

(* --------------------------------------------------------------------- *)
(** ** The orchestrator *)
(* --------------------------------------------------------------------- *)

Lemma executeStage_total ord pm ctx stage sr options tr :
  ∃ st, executeStage ord pm ctx stage sr options tr = Some st.
Proof. apply ExecuteGraph_total, buildDependencyGraph_wf. Qed.

Lemma rollback_loop_runs rord pm ctx stages : ∀ j tr,
  ∃ sts tr', rollback_loop rord pm ctx j stages tr = Some tr' ∧
             runs_rollback rord pm ctx j stages tr sts tr' ∧
             length sts = length stages.
Proof.
  induction stages as [|stage rest IH]; intros j tr; simpl.
  - exists [], tr. split; [done|]. split; [constructor|done].
  - destruct (ExecuteGraph_total (rord j) pm ctx (buildDependencyGraph (Jobs stage))
                (newStageResult (StageName stage)) false tr) as [st Hst];
      [apply buildDependencyGraph_wf|].
    unfold newStageResult in Hst. rewrite Hst.
    destruct (IH (S j) (exTrace st)) as (sts & tr' & -> & Hruns & Hlen).
    exists (st :: sts), tr'. split; [done|]. split; [by econstructor|].
    simpl. by rewrite Hlen.
Qed.

Lemma stages_loop_ok_step ord rord pm execCtx plan options i stage rest result tr st :
  executeStage (ord i) pm execCtx stage (newStageResult (StageName stage)) options tr
    = Some st →
  exErr st = None →
  stages_loop ord rord pm execCtx plan options i (stage :: rest) result tr =
  stages_loop ord rord pm execCtx plan options (S i) rest
    (appendStage result (closeStage st)) (exTrace st).
Proof.
  intros Hst Herr. cbn [stages_loop]. unfold newStageResult in Hst.
  unfold closeStage. rewrite Hst, Herr. done.
Qed.

Lemma stages_loop_fail_step ord rord pm execCtx plan options i stage rest result tr st err :
  executeStage (ord i) pm execCtx stage (newStageResult (StageName stage)) options tr
    = Some st →
  exErr st = Some err →
  stages_loop ord rord pm execCtx plan options i (stage :: rest) result tr =
  match
    match AutoRollback options, Rollback_ plan with
    | true, Some rollback => executeRollback rord pm execCtx rollback (exTrace st)
    | _, _ => Some (exTrace st)
    end
  with
  | None => None
  | Some tr' =>
      Some (mkPlanOutcome
              (finalizeResult (appendStage result (closeStage st)) false
                 ("Stage " +:+ StageName stage +:+ " failed: " +:+ err)).1
              (Some ("Stage " +:+ StageName stage +:+ " failed: " +:+ err)) tr')
  end.
Proof.
  intros Hst Herr. cbn [stages_loop]. unfold newStageResult in Hst.
  unfold closeStage. rewrite Hst, Herr. done.
Qed.

Lemma stages_loop_after ord rord pm execCtx plan options pre more :
  ∀ i result tr result' tr',
    after_stages ord pm execCtx options i pre result tr = Some (result', tr') →
    stages_loop ord rord pm execCtx plan options i (pre ++ more) result tr =
    stages_loop ord rord pm execCtx plan options (i + length pre) more result' tr'.
Proof.
  induction pre as [|stage rest IH]; intros i result tr result' tr' Hpre.
  - simpl in *. simplify_eq. by rewrite Nat.add_0_r.
  - cbn [after_stages] in Hpre.
    destruct (executeStage _ _ _ stage _ _ _) as [st|] eqn:Hst; [|done].
    destruct (exErr st) eqn:Herr; [done|].
    change ((stage :: rest) ++ more) with (stage :: (rest ++ more)).
    rewrite (stages_loop_ok_step _ _ _ _ _ _ _ _ _ _ _ st Hst Herr).
    rewrite (IH _ _ _ _ _ Hpre). simpl. f_equal. lia.
Qed.



(** ** Rollback runs in real mode *)

Lemma handler_called_mono pm tr tr' r :
  tr `prefix_of` tr' → handler_called pm tr r → handler_called pm tr' r.
Proof.
  intros Hpre H plg Hplg. destruct (H plg Hplg) as (tr0 & c & cfg & Hv & He).
  exists tr0, c, cfg. split; [by etrans|]. intros Hok. etrans; [by apply He|done].
Qed.

Lemma runJob_type pm dryRun tr ctx job :
  jrType (runJob pm dryRun tr ctx job).1 = Type_ job.
Proof.
  unfold runJob. destruct dryRun; [done|].
  by destruct (executeJob pm tr ctx job) as [[[? ?] ?] ?].
Qed.

Lemma runJob_called pm tr ctx job :
  handler_called pm (runJob pm false tr ctx job).2 (runJob pm false tr ctx job).1.
Proof.
  intros plg. rewrite runJob_type. intros Hplg.
  unfold runJob, executeJob, ExecutePlugin, GetPlugin. rewrite Hplg.
  eexists tr, _, (Config_ job).
  destruct (Validate plg _ _ _) eqn:Hv; simpl.
  - split; [done|]. by rewrite Hv.
  - destruct (Execute plg _ _ _) as [res|e]; [destruct (negb (Success res))|]; simpl;
      (split; [by apply prefix_app_r|]); intros _; by rewrite <- app_assoc.
Qed.

Lemma runWave_cons pm dryRun tr ctx job rest :
  runWave pm dryRun tr ctx (job :: rest) =
  ((runJob pm dryRun tr ctx job).1 ::
     (runWave pm dryRun (runJob pm dryRun tr ctx job).2 ctx rest).1,
   (runWave pm dryRun (runJob pm dryRun tr ctx job).2 ctx rest).2).
Proof.
  cbn [runWave]. destruct (runJob pm dryRun tr ctx job) as [result tr1]. simpl.
  by destruct (runWave pm dryRun tr1 ctx rest).
Qed.

Lemma runWave_called pm ctx readyJobs : ∀ tr r,
  r ∈ (runWave pm false tr ctx readyJobs).1 →
  handler_called pm (runWave pm false tr ctx readyJobs).2 r.
Proof.
  induction readyJobs as [|job rest IH]; intros tr r.
  - simpl. by intros ?%elem_of_nil.
  - rewrite runWave_cons. simpl.
    intros [->|Hin]%elem_of_cons; [|by apply IH].
    eapply handler_called_mono; [apply runWave_trace|apply runJob_called].
Qed.

Lemma waves_called ord pm ctx : ∀ fuel k ready g sr tr ws st,
  waves fuel ord k pm false ctx ready g sr tr ws = Some st →
  (∀ r, r ∈ concat ws → handler_called pm tr r) →
  ∀ r, r ∈ concat (exWaves st) → handler_called pm (exTrace st) r.
Proof.
  induction fuel as [|f IH]; intros k ready g sr tr ws st Hrun Hws;
    destruct ready as [|job rest]; try (simpl in Hrun; by simplify_eq).
  unroll_wave Hrun.
  pose proof (runWave_trace pm false ctx (job :: rest) tr) as Hpre.
  pose proof (runWave_called pm ctx (job :: rest) tr) as Hcalled.
  set (results := (runWave pm false tr ctx (job :: rest)).1) in *.
  set (tr' := (runWave pm false tr ctx (job :: rest)).2) in *.
  assert (Hws' : ∀ r, r ∈ concat (ws ++ [results]) → handler_called pm tr' r).
  { intros r. rewrite concat_app. simpl. rewrite app_nil_r.
    intros [Hin|Hin]%elem_of_app; [|by apply Hcalled].
    eapply handler_called_mono; [exact Hpre|by apply Hws]. }
  destruct (first_failure results); [by simplify_eq|].
  by eapply IH.
Qed.

Lemma ExecuteGraph_called ord pm ctx g sr tr st :
  ExecuteGraph ord pm ctx g sr false tr = Some st →
  ∀ r, r ∈ concat (exWaves st) → handler_called pm (exTrace st) r.
Proof.
  unfold ExecuteGraph, ExecuteGraph_fuel.
  destruct (HasCycles (ord 0) g) as [[]|]; [|intros Hrun|done].
  - intros [= <-] r. simpl. by intros ?%elem_of_nil.
  - eapply waves_called; [exact Hrun|]. intros r. simpl. by intros ?%elem_of_nil.
Qed.

Lemma runs_rollback_trace rord pm ctx j stages tr sts tr' :
  runs_rollback rord pm ctx j stages tr sts tr' → tr `prefix_of` tr'.
Proof.
  induction 1 as [|j stage rest tr st sts tr' Hst _ IH]; [done|].
  etrans; [|exact IH]. by eapply ExecuteGraph_trace.
Qed.

Lemma runs_rollback_called rord pm ctx j stages tr sts tr' :
  runs_rollback rord pm ctx j stages tr sts tr' →
  ∀ st, st ∈ sts → ∀ r, r ∈ concat (exWaves st) → handler_called pm tr' r.
Proof.
  induction 1 as [|j stage rest tr st sts tr' Hst Hruns IH]; intros st0.
  - by intros ?%elem_of_nil.
  - intros [->|Hin]%elem_of_cons r Hr; [|by eapply IH].
    eapply handler_called_mono; [by eapply runs_rollback_trace|].
    by eapply ExecuteGraph_called.
Qed.

(** ** A dry run calls no handler and fails only on a cycle *)

Lemma all_succeeded_no_failure results :
  Forall succeeded results → first_failure results = None.
Proof.
  unfold first_failure, succeeded. induction 1 as [|r rest Hr _ IH]; simpl; [done|].
  by rewrite Hr.
Qed.

Lemma waves_dry ord pm ctx : ∀ fuel k ready g sr tr ws st,
  waves fuel ord k pm true ctx ready g sr tr ws = Some st →
  exTrace st = tr ∧ exErr st = None.
Proof.
  induction fuel as [|f IH]; intros k ready g sr tr ws st Hrun;
    destruct ready as [|job rest]; try (simpl in Hrun; by simplify_eq).
  unroll_wave Hrun.
  destruct (runWave_dry pm ctx (job :: rest) tr) as [Htr Hall].
  rewrite (all_succeeded_no_failure _ Hall), Htr in Hrun. by apply IH in Hrun.
Qed.

Lemma ExecuteGraph_dry ord pm ctx g sr tr st :
  ExecuteGraph ord pm ctx g sr true tr = Some st →
  exTrace st = tr ∧ (exErr st = None ∨ exErr st = Some cycle_error).
Proof.
  unfold ExecuteGraph, ExecuteGraph_fuel.
  destruct (HasCycles (ord 0) g) as [[]|]; [|intros Hrun|done].
  - intros [= <-]. simpl. split; [done|by right].
  - apply waves_dry in Hrun as [? ?]. split; [done|by left].
Qed.

Lemma after_stages_dry ord pm execCtx options pre : ∀ i result tr result' tr',
  DryRun options = true →
  after_stages ord pm execCtx options i pre result tr = Some (result', tr') →
  tr' = tr.
Proof.
  induction pre as [|stage rest IH]; intros i result tr result' tr' Hdry Hpre;
    simpl in Hpre; [by simplify_eq|].
  destruct (executeStage _ _ _ stage _ _ _) as [st|] eqn:Hst; [|done].
  destruct (exErr st); [done|].
  unfold executeStage in Hst. rewrite Hdry in Hst.
  apply ExecuteGraph_dry in Hst as [Htr _].
  apply IH in Hpre; [|done]. congruence.
Qed.

(** C9. In a run started with DryRun set, a forward stage can only fail
    on a dependency cycle and no forward stage calls a handler; when such
    a failure triggers the rollback plan, every rollback stage is
    executed by ExecuteGraph with [dryRun = false]: for every job a
    rollback stage dispatches, the handler registered for its type is
    called (Validate, then Execute unless the validation failed), and the
    calls made by the rollback stages are the handler calls of the run. *)
Theorem rollback_ignores_dry_run
    (ord rord : nat → nat → list string) (pm : Manager) (id : string)
    (ctx : Context) (plan : Plan) (options : ExecuteOptions)
    (pre : list Stage) (stage : Stage) (rest : list Stage) (rb : Rollback)
    (result : ExecutionResult) (tr : Trace) (st : ExecState) (err : error) :
  DryRun options = true →
  AutoRollback options = true →
  Rollback_ plan = Some rb →
  Stages plan = pre ++ stage :: rest →
  after_stages ord pm (planContext id ctx plan) options 0 pre
    (initialResult id plan) [] = Some (result, tr) →
  executeStage (ord (length pre)) pm (planContext id ctx plan) stage
    (newStageResult (StageName stage)) options tr = Some st →
  exErr st = Some err →
  err = cycle_error ∧ exTrace st = [] ∧
  ∃ sts out,
    ExecutePlan ord rord pm id ctx plan options = Some out ∧
    runs_rollback rord pm (planContext id ctx plan) 0 (RollbackStages rb)
      [] sts (poTrace out) ∧
    length sts = length (RollbackStages rb) ∧
    ∀ st', st' ∈ sts → ∀ r, r ∈ concat (exWaves st') →
           handler_called pm (poTrace out) r.
Proof.
  intros Hdry Hauto Hrb Hstages Hpre Hst Herr.
  pose proof (after_stages_dry _ _ _ _ _ _ _ _ _ _ Hdry Hpre) as ->.
  pose proof Hst as Hst'. unfold executeStage in Hst'. rewrite Hdry in Hst'.
  apply ExecuteGraph_dry in Hst' as [Htr Hcyc].
  split; [destruct Hcyc; congruence|]. split; [done|].
  destruct (rollback_loop_runs rord pm (planContext id ctx plan) (RollbackStages rb)
              0 (exTrace st)) as (sts & tr' & Hloop & Hruns & Hlen).
  exists sts. eexists. split.
  { unfold ExecutePlan. fold (planContext id ctx plan) (initialResult id plan).
    rewrite Hstages, (stages_loop_after _ _ _ _ _ _ _ _ _ _ _ _ _ Hpre).
    rewrite (stages_loop_fail_step _ _ _ _ _ _ _ _ _ _ _ st err Hst Herr).
    rewrite Hauto, Hrb. unfold executeRollback. rewrite Hloop. done. }
  simpl. rewrite Htr in Hruns. split; [done|]. split; [done|].
  by eapply runs_rollback_called.
Qed.

Lemma rollback_ignores_dry_run_witness :
  ∃ st,
    executeStage (forward_order plan_cyclic 0) pm_demo (planContext "run-2" background plan_cyclic)
      (simple_stage "deploy" [simple_job "A" "ok" ["A"]]) (newStageResult "deploy")
      options_dry_rollback [] = Some st ∧
    exErr st = Some cycle_error ∧
    cycle_error = cycle_error ∧ exTrace st = [] ∧
    ∃ sts out,
      run_sample "run-2" plan_cyclic options_dry_rollback = Some out ∧
      runs_rollback (rollback_order plan_cyclic) pm_demo
        (planContext "run-2" background plan_cyclic) 0
        [simple_stage "undo-deploy" [simple_job "X" "ok" []]] [] sts (poTrace out) ∧
      length sts = 1 ∧
      ∀ st', st' ∈ sts → ∀ r, r ∈ concat (exWaves st') →
             handler_called pm_demo (poTrace out) r.
Proof.
  eexists. split; [vm_compute; reflexivity|]. split; [reflexivity|].
  eapply (rollback_ignores_dry_run (forward_order plan_cyclic)
            (rollback_order plan_cyclic) pm_demo "run-2" background
            plan_cyclic options_dry_rollback []
            (simple_stage "deploy" [simple_job "A" "ok" ["A"]]) []
            {| RollbackStages := [simple_stage "undo-deploy" [simple_job "X" "ok" []]] |}).
  - reflexivity.
  - reflexivity.
  - reflexivity.
  - reflexivity.
  - reflexivity.
  - vm_compute; reflexivity.
  - reflexivity.
Defined.

Example dry_run_rollback_calls_handlers :
  poTrace <$> run_sample "run-2" plan_cyclic options_dry_rollback
  = Some [EvValidate "ok" (planContext "run-2" background plan_cyclic) [];
          EvExecute "ok" (planContext "run-2" background plan_cyclic) []].
Proof. vm_compute. reflexivity. Qed.

(** ** Rollback leaves the execution result alone *)

Lemma waves_stage_name ord pm dryRun ctx : ∀ fuel k ready g sr tr ws st,
  waves fuel ord k pm dryRun ctx ready g sr tr ws = Some st →
  srName (exStage st) = srName sr.
Proof.
  induction fuel as [|f IH]; intros k ready g sr tr ws st Hrun;
    destruct ready as [|job rest]; try (simpl in Hrun; by simplify_eq).
  unroll_wave Hrun.
  destruct (first_failure _); [by simplify_eq|]. by apply IH in Hrun.
Qed.

Lemma executeStage_name ord pm ctx stage options tr st :
  executeStage ord pm ctx stage (newStageResult (StageName stage)) options tr = Some st →
  srName (closeStage st) = StageName stage.
Proof.
  unfold executeStage, ExecuteGraph, ExecuteGraph_fuel.
  destruct (HasCycles (ord 0) _) as [[]|]; [by intros [= <-]| |done].
  intros Hrun%waves_stage_name. unfold closeStage. simpl. by rewrite Hrun.
Qed.

Lemma finalizeResult_stages result success message :
  erStages (finalizeResult result success message).1 = erStages result ∧
  erCompletedJobs (finalizeResult result success message).1 =
    erCompletedJobs result + countJobs true (erStages result) ∧
  erFailedJobs (finalizeResult result success message).1 =
    erFailedJobs result + countJobs false (erStages result).
Proof. unfold finalizeResult. by destruct success. Qed.

Lemma stages_loop_rollback_irrelevant ord rord rord' pm execCtx plan options rb b :
  ∀ stages i result tr,
    ∃ out out',
      stages_loop ord rord pm execCtx plan options i stages result tr = Some out ∧
      stages_loop ord rord' pm execCtx (withRollback rb plan)
        (withAutoRollback b options) i stages result tr = Some out' ∧
      poResult out' = poResult out ∧ poErr out' = poErr out ∧
      (∃ new, erStages (poResult out) = erStages result ++ new ∧
              map srName new `prefix_of` map StageName stages) ∧
      erCompletedJobs (poResult out) =
        erCompletedJobs result + countJobs true (erStages (poResult out)) ∧
      erFailedJobs (poResult out) =
        erFailedJobs result + countJobs false (erStages (poResult out)).
Proof.
  induction stages as [|stage rest IH]; intros i result tr.
  - simpl. eexists _, _. split; [done|]. split; [done|]. simpl.
    split; [done|]. split; [done|]. split; [|done].
    exists []. by rewrite app_nil_r.
  - destruct (executeStage_total (ord i) pm execCtx stage
                (newStageResult (StageName stage)) options tr) as [st Hst].
    assert (Hst' : executeStage (ord i) pm execCtx stage
                     (newStageResult (StageName stage)) (withAutoRollback b options) tr
                   = Some st) by exact Hst.
    pose proof (executeStage_name _ _ _ _ _ _ _ Hst) as Hname.
    destruct (exErr st) as [err|] eqn:Herr.
    + rewrite (stages_loop_fail_step _ _ _ _ _ _ _ _ _ _ _ st err Hst Herr).
      rewrite (stages_loop_fail_step _ _ _ _ _ _ _ _ _ _ _ st err Hst' Herr).
      assert (∃ t, match AutoRollback options, Rollback_ plan with
                   | true, Some rollback => executeRollback rord pm execCtx rollback (exTrace st)
                   | _, _ => Some (exTrace st)
                   end = Some t) as [t ->].
      { destruct (AutoRollback options), (Rollback_ plan) as [r|]; try by eexists.
        destruct (rollback_loop_runs rord pm execCtx (RollbackStages r) 0 (exTrace st))
          as (? & t & ? & _). by exists t. }
      assert (∃ t, match AutoRollback (withAutoRollback b options),
                         Rollback_ (withRollback rb plan) with
                   | true, Some rollback => executeRollback rord' pm execCtx rollback (exTrace st)
                   | _, _ => Some (exTrace st)
                   end = Some t) as [t' ->].
      { simpl. destruct b, rb as [r|]; try by eexists.
        destruct (rollback_loop_runs rord' pm execCtx (RollbackStages r) 0 (exTrace st))
          as (? & t2 & ? & _). by exists t2. }
      eexists _, _. split; [done|]. split; [done|]. simpl.
      split; [done|]. split; [done|]. split; [|done].
      exists [closeStage st]. split; [done|]. cbn [map]. rewrite Hname.
      apply prefix_cons, prefix_nil.
    + rewrite (stages_loop_ok_step _ _ _ _ _ _ _ _ _ _ _ st Hst Herr).
      rewrite (stages_loop_ok_step _ _ _ _ _ _ _ _ _ _ _ st Hst' Herr).
      destruct (IH (S i) (appendStage result (closeStage st)) (exTrace st))
        as (out & out' & Hout & Hout' & Hres & Herr' & (new & Hnew & Hpre) & Hc & Hf).
      exists out, out'. split; [done|]. split; [done|].
      split; [done|]. split; [done|]. split; [|done].
      exists (closeStage st :: new). simpl in Hnew. rewrite <- app_assoc in Hnew.
      split; [done|]. cbn [map]. rewrite Hname. by apply prefix_cons.
Qed.

(** C10. Executing the rollback plan never changes the ExecutionResult:
    whatever the rollback section is, whether AutoRollback makes it run
    and however its stages end, ExecutePlan returns the same result and
    the same error; the stages of the result are those of forward stages,
    in plan order, and CompletedJobs and FailedJobs count the jobs
    recorded in these stages. *)
Theorem rollback_leaves_result_untouched
    (ord rord rord' : nat → nat → list string) (pm : Manager) (id : string)
    (ctx : Context) (plan : Plan) (options : ExecuteOptions)
    (rb : option Rollback) (b : bool) :
  ∃ out out',
    ExecutePlan ord rord pm id ctx plan options = Some out ∧
    ExecutePlan ord rord' pm id ctx (withRollback rb plan)
      (withAutoRollback b options) = Some out' ∧
    poResult out' = poResult out ∧ poErr out' = poErr out ∧
    map srName (erStages (poResult out)) `prefix_of` map StageName (Stages plan) ∧
    erCompletedJobs (poResult out) = countJobs true (erStages (poResult out)) ∧
    erFailedJobs (poResult out) = countJobs false (erStages (poResult out)).
Proof.
  destruct (stages_loop_rollback_irrelevant ord rord rord' pm (planContext id ctx plan)
              plan options rb b (Stages plan) 0 (initialResult id plan) [])
    as (out & out' & Hout & Hout' & Hres & Herr & (new & Hnew & Hpre) & Hc & Hf).
  exists out, out'. split; [exact Hout|]. split; [exact Hout'|].
  split; [done|]. split; [done|]. simpl in Hnew, Hc, Hf. subst new. done.
Qed.

(** ** Approval requirements *)

Lemma countTotalJobs_without_approval plan :
  countTotalJobs (planWithoutApproval plan) = countTotalJobs plan.
Proof.
  unfold countTotalJobs. simpl. generalize 0.
  induction (Stages plan) as [|stage rest IH]; intros n; simpl; [done|]. apply IH.
Qed.

Lemma stages_loop_without_approval ord rord pm execCtx plan options :
  ∀ stages i result tr,
    stages_loop ord rord pm execCtx plan options i stages result tr =
    stages_loop ord rord pm execCtx (planWithoutApproval plan)
      (skippingApproval options) i (map withoutApproval stages) result tr.
Proof.
  induction stages as [|stage rest IH]; intros i result tr; [done|].
  cbn [stages_loop map].
  change (executeStage (ord i) pm execCtx (withoutApproval stage)
            {| srName := StageName (withoutApproval stage); srSuccess := false; srJobs := [] |}
            (skippingApproval options) tr)
    with (executeStage (ord i) pm execCtx stage
            {| srName := StageName stage; srSuccess := false; srJobs := [] |} options tr).
  destruct (executeStage _ _ _ stage _ _ _) as [st|]; [|done].
  destruct (exErr st); [done|]. apply IH.
Qed.

(** C8 (as the code has it). A stage with RequireApproval set, in a run
    with SkipApproval unset, is executed without any approval being
    requested: ExecutePlan consults no approval gate and has no rejection
    path, and it returns what it returns for the same plan with every
    approval requirement removed and approvals skipped. *)
Theorem approval_requirement_changes_nothing
    (ord rord : nat → nat → list string) (pm : Manager) (id : string)
    (ctx : Context) (plan : Plan) (options : ExecuteOptions) :
  ExecutePlan ord rord pm id ctx plan options =
  ExecutePlan ord rord pm id ctx (planWithoutApproval plan) (skippingApproval options).
Proof.
  unfold ExecutePlan. rewrite countTotalJobs_without_approval.
  cbn [Stages planWithoutApproval Variables]. rewrite length_map.
  apply stages_loop_without_approval.
Qed.

(** C8, counterexample. The stage ["release"] requires approval and
    approvals are not skipped; no approval is ever given (there is no
    gate to give or refuse one), yet the handler of its job is called and
    the run ends successfully. *)
Lemma approval_required_stage_runs_unapproved :
  RequireApproval stage_gated = true ∧ SkipApproval options_plain = false ∧
  (λ out, (erSuccess (poResult out), poErr out, poTrace out)) <$>
    run_sample "run-3" plan_gated options_plain
  = Some (true, None,
          [EvValidate "ok" (stageContext "run-3" plan_gated "release") [];
           EvExecute "ok" (stageContext "run-3" plan_gated "release") []]).
Proof. split; [reflexivity|]. split; [reflexivity|]. vm_compute. reflexivity. Qed.

(** ** Variable references in job configurations *)

(** C2, at the failing input. The plan defines [service.port = 8080] and
    the job's configuration is [port: "${service.port}"]; resolving the
    configuration against the plan variables gives [port: 8080], but
    Validate and Execute are both called with the unresolved
    configuration. *)
Theorem handlers_receive_unresolved_config :
  ResolveValues config_ref (Variables plan_vars) = inl [("port", VInt 8080)] ∧
  poTrace <$> run_sample "run-4" plan_vars options_plain
  = Some [EvValidate "ok" (stageContext "run-4" plan_vars "deploy") config_ref;
          EvExecute "ok" (stageContext "run-4" plan_vars "deploy") config_ref].
Proof. split; [reflexivity|]. vm_compute. reflexivity. Qed.

(** C1, counterexample. Stage [A], [B ← A], [C ← A]; the second wave
    dispatches [B] and [C] in this order, [B] fails and [C] succeeds.
    Both ran (the wave has two results, the second one successful), but
    the stage accumulator holds the results of [A] and [B] only. *)
Lemma result_after_failed_job_not_recorded :
  (λ st, (map (map (λ r, (jrName r, jrSuccess r))) (exWaves st),
          map jrName (srJobs (exStage st)), exErr st)) <$>
    ExecuteGraph (fixed_order ["A"; "B"; "C"]) pm_demo background
      (buildDependencyGraph jobs_ABC) (newStageResult "deploy") false []
  = Some ([[("A", true)]; [("B", false); ("C", true)]],
          ["A"; "B"], Some "job B failed: boom").
Proof. vm_compute. reflexivity. Qed.

(* --------------------------------------------------------------------- *)
(** ** The resolver *)
(* --------------------------------------------------------------------- *)

Lemma length_append a b :
  String.length (a +:+ b) = String.length a + String.length b.
Proof. induction a as [|c a IH]; simpl; [done|]. by rewrite IH. Qed.

Lemma substring_whole a b : substring 0 (String.length a) (a +:+ b) = a.
Proof.
  induction a as [|c a IH]; simpl; [by destruct b|]. by rewrite IH.
Qed.

Lemma substring_skip a b n : substring (String.length a) n (a +:+ b) = substring 0 n b.
Proof. induction a as [|c a IH]; simpl; [done|]. apply IH. Qed.

Lemma substring_all b : substring 0 (String.length b) b = b.
Proof. induction b as [|c b IH]; simpl; [done|]. by rewrite IH. Qed.

Lemma HasSuffix_append a b : HasSuffix (a +:+ b) b = true.
Proof.
  unfold HasSuffix. rewrite length_append. apply andb_true_iff. split.
  - apply Nat.leb_le. lia.
  - replace (String.length a + String.length b - String.length b) with (String.length a) by lia.
    rewrite substring_skip, substring_all. apply String.eqb_refl.
Qed.

Lemma has_char_append c a b : has_char c (a +:+ b) = has_char c a || has_char c b.
Proof. induction a as [|c' a IH]; simpl; [done|]. by rewrite IH, orb_assoc. Qed.

Lemma until_close_path p r :
  has_char "}" p = false → until_close (p +:+ String "}" r) = Some (p, r).
Proof.
  induction p as [|c p IH]; simpl; [done|].
  intros [Hc Hp]%orb_false_iff. by rewrite Hc, (IH Hp).
Qed.

Lemma match_here_path p r :
  p ≠ EmptyString → has_char "}" p = false →
  match_here ("${" +:+ p +:+ String "}" r) = Some (p, r).
Proof.
  intros Hne Hp.
  change ("${" +:+ p +:+ String "}" r) with (String "$" (String "{" (p +:+ String "}" r))).
  unfold match_here. rewrite (until_close_path p r Hp). by destruct p.
Qed.

Lemma whole_reference_detected p :
  p ≠ EmptyString → has_char "}" p = false →
  let value := "${" +:+ p +:+ "}" in
  MatchString value = true ∧ HasPrefix value "${" = true ∧
  HasSuffix value "}" = true ∧ ref_path value = p.
Proof.
  intros Hne Hp value. split; [|split; [|split]].
  - unfold MatchString, value. change ("${" +:+ p +:+ "}") with
      (String "$" (String "{" (p +:+ "}"))).
    cbn [find_ref]. change (String "$" (String "{" (p +:+ "}"))) with
      ("${" +:+ p +:+ String "}" EmptyString).
    by rewrite (match_here_path p _ Hne Hp).
  - unfold value, HasPrefix. apply prefix_correct. simpl. by destruct p.
  - unfold value. change ("${" +:+ p +:+ "}") with (("${" +:+ p) +:+ "}").
    apply HasSuffix_append.
  - unfold ref_path, value. change ("${" +:+ p +:+ "}") with
      (String "$" (String "{" (p +:+ "}"))).
    cbn [String.length]. rewrite length_append. simpl String.length.
    replace (S (S (String.length p + 1)) - 3) with (String.length p) by lia.
    cbn [substring]. apply substring_whole.
Qed.

Lemma Split_dot_plain s : has_char "." s = false → Split_dot s = [s].
Proof.
  induction s as [|c s IH]; simpl; [done|].
  intros [Hc Hs]%orb_false_iff. by rewrite Hc, (IH Hs).
Qed.

Lemma Split_dot_segment s t :
  has_char "." s = false → Split_dot (s +:+ "." +:+ t) = s :: Split_dot t.
Proof.
  induction s as [|c s IH]; simpl; [done|].
  intros [Hc Hs]%orb_false_iff. by rewrite Hc, (IH Hs).
Qed.

Lemma Split_dot_concat segs :
  segs ≠ [] → Forall (λ s, has_char "." s = false) segs →
  Split_dot (String.concat "." segs) = segs.
Proof.
  intros Hne Hall. induction Hall as [|s [|s' rest] Hs Hrest IH]; [done| |].
  - simpl. by apply Split_dot_plain.
  - change (String.concat "." (s :: s' :: rest))
      with (s +:+ "." +:+ String.concat "." (s' :: rest)).
    rewrite (Split_dot_segment _ _ Hs), IH; done.
Qed.

Lemma has_char_concat c sep segs :
  has_char c sep = false → Forall (λ s, has_char c s = false) segs →
  has_char c (String.concat sep segs) = false.
Proof.
  intros Hsep Hall. induction Hall as [|s [|s' rest] Hs Hrest IH]; [done|done|].
  change (String.concat sep (s :: s' :: rest))
    with (s +:+ sep +:+ String.concat sep (s' :: rest)).
  by rewrite !has_char_append, Hs, Hsep, IH.
Qed.

Lemma stored_at_navigate path segs cur v :
  stored_at segs cur v → navigate path segs cur = inl v.
Proof. induction 1 as [|seg segs m child v Hk _ IH]; simpl; [done|]. by rewrite Hk. Qed.

Lemma navigate_stored_at path segs : ∀ cur v,
  navigate path segs cur = inl v → stored_at segs cur v.
Proof.
  induction segs as [|seg segs IH]; intros cur v; simpl.
  - intros [= ->]. constructor.
  - destruct cur as [| | | | | |m]; try done.
    destruct (lookup_key seg m) as [child|] eqn:Hk; [|done].
    intros H. econstructor; [done|by apply IH].
Qed.

Lemma navigate_error path segs : ∀ cur err,
  navigate path segs cur = inr err → path_error path err.
Proof.
  induction segs as [|seg segs IH]; intros cur err; simpl; [done|].
  destruct cur as [| | | | | |m]; try (intros [= <-]; by right).
  destruct (lookup_key seg m) as [child|]; [apply IH|].
  intros [= <-]. by left.
Qed.

(** C4. A string that is exactly one reference ["${path}"], where [path]
    is the dot-separated list of the segments [segs], resolves to the
    value stored at that path in the context, as that value (a number,
    boolean, mapping or list stays one), when the path leads to a value;
    when it does not, resolveString returns an error, the one resolvePath
    reports for that path, and so does the resolution of every mapping or
    list the string is an element of. *)
Theorem whole_reference_resolves_typed
    (segs : list string) (context : Config) :
  segs ≠ [] →
  Forall (λ s, has_char "." s = false ∧ has_char "}" s = false) segs →
  String.concat "." segs ≠ EmptyString →
  let path := String.concat "." segs in
  let value := "${" +:+ path +:+ "}" in
  whole_reference value ∧
  (∀ v, stored_at segs (VMap context) v → resolveString value context = inl v) ∧
  ((¬ ∃ v, stored_at segs (VMap context) v) →
     ∃ err, path_error path err ∧
       resolveString value context = inr err ∧
       (∀ key, ResolveValues [(key, VStr value)] context =
               inr ("error resolving value for key " +:+ key +:+ ": " +:+ err)) ∧
       resolveSlice [VStr value] context =
         inr ("error resolving array item 0: " +:+ err)).
Proof.
  intros Hne Hall Hpath path value.
  assert (Hdots : Forall (λ s, has_char "." s = false) segs)
    by (eapply Forall_impl; [exact Hall|by intros s [? ?]]).
  assert (Hclose : has_char "}" path = false).
  { apply has_char_concat; [done|]. eapply Forall_impl; [exact Hall|by intros s [? ?]]. }
  destruct (whole_reference_detected path Hpath Hclose) as (Hm & Hp & Hs & Hr).
  assert (Hres : resolveString value context = navigate path segs (VMap context)).
  { unfold resolveString. fold value in Hm, Hp, Hs, Hr. rewrite Hm, Hp, Hs, Hr.
    cbn [andb]. unfold resolvePath. fold path in Hpath.
    replace (Split_dot path) with segs by (symmetry; by apply Split_dot_concat).
    by destruct (navigate path segs (VMap context)). }
  split; [by exists path|]. split.
  - intros v Hv. rewrite Hres. by apply stored_at_navigate.
  - intros Hnone.
    destruct (navigate path segs (VMap context)) as [v|err] eqn:Hnav.
    + destruct Hnone. exists v. by eapply navigate_stored_at.
    + exists err. split; [by eapply navigate_error|]. split; [done|].
      split; [intros key|]; simpl; unfold resolveSlice; simpl; by rewrite Hres.
Qed.

Lemma whole_reference_resolves_typed_witness :
  let segs := ["a"; "b"] in
  let context := [("a", VMap [("b", VInt 42)])] in
  let path := String.concat "." segs in
  let value := "${" +:+ path +:+ "}" in
  whole_reference value ∧
  (∀ v, stored_at segs (VMap context) v → resolveString value context = inl v) ∧
  ((¬ ∃ v, stored_at segs (VMap context) v) →
     ∃ err, path_error path err ∧
       resolveString value context = inr err ∧
       (∀ key, ResolveValues [(key, VStr value)] context =
               inr ("error resolving value for key " +:+ key +:+ ": " +:+ err)) ∧
       resolveSlice [VStr value] context =
         inr ("error resolving array item 0: " +:+ err)).
Proof.
  apply (whole_reference_resolves_typed ["a"; "b"] [("a", VMap [("b", VInt 42)])]).
  - discriminate.
  - repeat constructor.
  - discriminate.
Defined.

(** ** Embedded references *)

Lemma until_close_shorter t : ∀ p r,
  until_close t = Some (p, r) → String.length r < String.length t.
Proof.
  induction t as [|c t IH]; intros p r; simpl; [done|].
  destruct (Ascii.eqb c "}"); [intros [= _ <-]; lia|].
  destruct (until_close t) as [[p' r']|]; [|done].
  intros [= _ <-]. specialize (IH _ _ eq_refl). lia.
Qed.

Lemma match_here_inv t p r :
  match_here t = Some (p, r) →
  ∃ t', t = String "$" (String "{" t') ∧ until_close t' = Some (p, r).
Proof.
  destruct t as [|c1 [|c2 t']]; [done| |].
  - destruct c1 as [[] [] [] [] [] [] [] []]; done.
  - destruct c1 as [[] [] [] [] [] [] [] []]; try done.
    destruct c2 as [[] [] [] [] [] [] [] []]; try done.
    simpl. destruct (until_close t') as [[[|c p'] r']|] eqn:Hu; try done.
    intros [= <- <-]. by exists t'.
Qed.

Lemma find_ref_shorter s : ∀ pre p r,
  find_ref s = Some (pre, p, r) → String.length r < String.length s.
Proof.
  induction s as [|c s IH]; intros pre p r; [done|].
  cbn [find_ref].
  destruct (match_here (String c s)) as [[p' r']|] eqn:Hm.
  - intros [= _ _ <-]. apply match_here_inv in Hm as (t' & -> & Hu).
    apply until_close_shorter in Hu. simpl. lia.
  - destruct (find_ref s) as [[[pre' p'] r']|]; [|done].
    intros [= _ _ <-]. specialize (IH _ _ _ eq_refl). simpl. lia.
Qed.

Lemma replace_matches_enough repl : ∀ n fuel fuel' s,
  String.length s ≤ n → n ≤ fuel → n ≤ fuel' →
  replace_matches fuel repl s = replace_matches fuel' repl s.
Proof.
  induction n as [|n IH]; intros fuel fuel' s Hs Hf Hf'.
  - destruct s; [|simpl in Hs; lia]. by destruct fuel, fuel'.
  - destruct fuel as [|f]; [lia|]. destruct fuel' as [|f']; [lia|]. simpl.
    destruct (find_ref s) as [[[pre p] r]|] eqn:Hfind; [|done].
    apply find_ref_shorter in Hfind.
    do 2 f_equal. apply IH; lia.
Qed.

(** ReplaceAllStringFunc rewrites the leftmost match and goes on after
    it; its bound on the number of matches is never reached. *)
Lemma ReplaceAllStringFunc_unroll s repl :
  ReplaceAllStringFunc s repl =
  match find_ref s with
  | None => s
  | Some (pre, p, r) => pre +:+ repl ("${" +:+ p +:+ "}") +:+ ReplaceAllStringFunc r repl
  end.
Proof.
  unfold ReplaceAllStringFunc. destruct s as [|c s]; [done|].
  cbn [String.length replace_matches].
  destruct (find_ref (String c s)) as [[[pre p] r]|] eqn:Hfind; [|done].
  apply find_ref_shorter in Hfind. simpl in Hfind.
  do 2 f_equal. apply (replace_matches_enough repl (String.length r)); lia.
Qed.

(** A string that does not both start with ["${"] and end with ["}"] is
    resolved leniently: no error, every reference that resolves replaced
    by the rendering of its value, every other one kept. *)
Lemma resolveString_embedded value context :
  HasPrefix value "${" = false ∨ HasSuffix value "}" = false →
  resolveString value context =
    inl (VStr (ReplaceAllStringFunc value (substitute context))).
Proof.
  intros H. unfold resolveString.
  destruct H as [-> | ->]; by rewrite ?andb_false_r.
Qed.

(** C3, at the failing input. ["${a}-${b}"] is not a single whole
    reference: it embeds the two references [a] and [b] around ["-"],
    and substituting them gives ["1-2"].  resolveString takes it for a
    whole reference to the path ["a}-${b"], because it starts with ["${"]
    and ends with ["}"], and returns an error. *)
Theorem mixed_reference_string_is_rejected :
  let value := "${a}-${b}" in
  let context := [("a", VInt 1); ("b", VInt 2)] in
  ¬ whole_reference value ∧
  ReplaceAllStringFunc value (substitute context) = "1-2" ∧
  resolveString value context = inr "reference path not found: a}-${b".
Proof.
  split; [|split; reflexivity].
  intros (path & _ & Hclose & Heq).
  destruct path as [|c1 [|c2 path]]; [discriminate Heq|discriminate Heq|].
  simpl in Heq. injection Heq as <- <- _. simpl in Hclose. discriminate Hclose.
Qed.

Example pretty_int : pretty 42%Z = "42" ∧ pretty (-7)%Z = "-7".
Proof. split; reflexivity. Qed.

Example whole_reference_keeps_type :
  resolveString "${a.b}" [("a", VMap [("b", VInt 42)])] = inl (VInt 42).
Proof. reflexivity. Qed.

Example embedded_reference_is_rendered :
  resolveString "port=${a.b}" [("a", VMap [("b", VInt 42)])] = inl (VStr "port=42").
Proof. reflexivity. Qed.

Example embedded_unresolved_is_kept :
  resolveString "port=${missing.x}" [("a", VMap [("b", VInt 42)])]
  = inl (VStr "port=${missing.x}").
Proof. reflexivity. Qed.

Example whole_unresolved_is_error :
  resolveString "${missing.x}" [("a", VMap [("b", VInt 42)])]
  = inr "reference path not found: missing.x".
Proof. reflexivity. Qed.

Example fmt_nested :
  fmtV (VMap [("b", VList [VInt 1; VNil; VBool true]); ("a", VStr "x")])
  = "map[a:x b:[1 <nil> true]]".
Proof. reflexivity. Qed.

(** The rollback scenario end to end: the second of three stages fails
    (["verify"] is never run), both rollback stages are executed although
    the first one fails, and the run fails with the cause of ["deploy"];
    the calls of the rollback stages carry no stage name. *)
Example rollback_scenario :
  (λ out, (poErr out, map srName (erStages (poResult out)),
           erCompletedJobs (poResult out), erFailedJobs (poResult out),
           map event_stage (poTrace out))) <$>
    run_sample "run-1" plan_demo options_rollback
  = Some (Some "Stage deploy failed: job B failed: boom", ["build"; "deploy"], 2, 1,
          [("Validate ok", Some "build"); ("Execute ok", Some "build");
           ("Validate ok", Some "deploy"); ("Execute ok", Some "deploy");
           ("Validate bad", Some "deploy"); ("Execute bad", Some "deploy");
           ("Validate ok", Some "deploy"); ("Execute ok", Some "deploy");
           ("Validate bad", None); ("Execute bad", None);
           ("Validate ok", None); ("Execute ok", None)]).
Proof. vm_compute. reflexivity. Qed.

(* ===================================================================== *)
(** * Further properties of the code *)
(* ===================================================================== *)

(* --------------------------------------------------------------------- *)
(** ** Building a job graph *)
(* --------------------------------------------------------------------- *)

Lemma deps_of_AddJob job g name : deps_of (AddJob job g) name = deps_of g name.
Proof.
  unfold deps_of, AddJob. simpl.
  destruct (dependencies g !! Name job) eqn:Hj; [done|].
  rewrite lookup_insert. case_decide; [|done]. subst. by rewrite Hj.
Qed.

Lemma dependents_of_AddJob job g name :
  dependents_of (AddJob job g) name = dependents_of g name.
Proof.
  unfold dependents_of, AddJob. simpl.
  destruct (dependents g !! Name job) eqn:Hj; [done|].
  rewrite lookup_insert. case_decide; [|done]. subst. by rewrite Hj.
Qed.

Lemma deps_of_AddDependency a b g name :
  deps_of (AddDependency a b g) name =
  if decide (name = a) then deps_of g a ++ [b] else deps_of g name.
Proof.
  unfold deps_of at 1. unfold AddDependency. simpl. rewrite lookup_insert.
  repeat case_decide; by subst.
Qed.

Lemma dependents_of_AddDependency a b g name :
  dependents_of (AddDependency a b g) name =
  if decide (name = b) then dependents_of g b ++ [a] else dependents_of g name.
Proof.
  unfold dependents_of at 1. unfold AddDependency. simpl. rewrite lookup_insert.
  repeat case_decide; by subst.
Qed.

Lemma add_jobs_deps_of js : ∀ g name,
  deps_of (foldl (λ g job, AddJob job g) g js) name = deps_of g name.
Proof.
  induction js as [|job rest IH]; intros g name; simpl; [done|].
  by rewrite IH, deps_of_AddJob.
Qed.

Lemma add_jobs_dependents_of js : ∀ g name,
  dependents_of (foldl (λ g job, AddJob job g) g js) name = dependents_of g name.
Proof.
  induction js as [|job rest IH]; intros g name; simpl; [done|].
  by rewrite IH, dependents_of_AddJob.
Qed.

Lemma add_jobs_completed js : ∀ g,
  completed (foldl (λ g job, AddJob job g) g js) = completed g.
Proof. induction js as [|job rest IH]; intros g; simpl; [done|]. by rewrite IH. Qed.

Lemma add_jobs_dom js : ∀ g,
  dom (jobs (foldl (λ g job, AddJob job g) g js)) =
  list_to_set (map Name js) ∪ dom (jobs g).
Proof.
  induction js as [|job rest IH]; intros g; simpl; [set_solver|].
  rewrite IH. simpl. rewrite dom_insert_L. set_solver.
Qed.

Lemma add_jobs_keep js : ∀ g j,
  Name j ∉ map Name js → jobs g !! Name j = Some j →
  jobs (foldl (λ g job, AddJob job g) g js) !! Name j = Some j.
Proof.
  induction js as [|j' rest IH]; intros g j Hj Hg; [done|].
  simpl in *. apply not_elem_of_cons in Hj as [Hne Hj]. apply IH; [done|].
  simpl. by rewrite lookup_insert_ne.
Qed.

Lemma add_jobs_lookup js : ∀ g job,
  NoDup (map Name js) → job ∈ js →
  jobs (foldl (λ g job, AddJob job g) g js) !! Name job = Some job.
Proof.
  induction js as [|j rest IH]; intros g job Hnd Hin; [by apply elem_of_nil in Hin|].
  simpl in *. apply NoDup_cons in Hnd as [Hj Hnd].
  apply elem_of_cons in Hin as [->|Hin]; [|by apply IH].
  apply add_jobs_keep; [done|]. simpl. by rewrite lookup_insert_eq.
Qed.

Lemma add_deps_deps_of a ds : ∀ g name,
  deps_of (foldl (λ g depName, AddDependency a depName g) g ds) name =
  if decide (name = a) then deps_of g a ++ ds else deps_of g name.
Proof.
  induction ds as [|d rest IH]; intros g name; simpl.
  - case_decide; [subst; by rewrite app_nil_r|done].
  - rewrite IH, !deps_of_AddDependency.
    repeat case_decide; try done. by rewrite <- app_assoc.
Qed.

Lemma add_deps_completed a ds : ∀ g,
  completed (foldl (λ g depName, AddDependency a depName g) g ds) = completed g.
Proof. induction ds as [|d rest IH]; intros g; simpl; [done|]. by rewrite IH. Qed.

Lemma add_all_deps_deps_of (js : list Job) : ∀ g name,
  deps_of (foldl (λ g job, foldl (λ g depName, AddDependency (Name job) depName g)
                             g (DependsOn job)) g js) name
  = deps_of g name ++ declared_deps js name.
Proof.
  unfold declared_deps.
  induction js as [|job rest IH]; intros g name; simpl; [by rewrite app_nil_r|].
  rewrite IH, add_deps_deps_of. rewrite filter_cons.
  repeat case_decide; subst; try done. simpl. by rewrite app_assoc.
Qed.

Lemma add_all_deps_completed (js : list Job) : ∀ g,
  completed (foldl (λ g job, foldl (λ g depName, AddDependency (Name job) depName g)
                               g (DependsOn job)) g js) = completed g.
Proof.
  induction js as [|job rest IH]; intros g; simpl; [done|].
  by rewrite IH, add_deps_completed.
Qed.

Lemma filter_name_absent (js : list Job) name :
  name ∉ map Name js → filter (λ job, Name job = name) js = [].
Proof.
  induction js as [|j rest IH]; intros Hn; [done|].
  simpl in Hn. apply not_elem_of_cons in Hn as [Hne Hn].
  rewrite filter_cons, decide_False by done. by apply IH.
Qed.

Lemma declared_deps_unique js job :
  NoDup (map Name js) → job ∈ js → declared_deps js (Name job) = DependsOn job.
Proof.
  unfold declared_deps. induction js as [|j rest IH]; intros Hnd Hin;
    [by apply elem_of_nil in Hin|].
  simpl in Hnd. apply NoDup_cons in Hnd as [Hj Hnd]. rewrite filter_cons.
  apply elem_of_cons in Hin as [->|Hin].
  - rewrite decide_True by done. simpl.
    rewrite (filter_name_absent rest (Name j) Hj). simpl. by rewrite app_nil_r.
  - rewrite decide_False; [by apply IH|].
    intros Heq. apply Hj. rewrite Heq. apply list_elem_of_fmap. by exists job.
Qed.

Lemma declared_deps_absent js name :
  name ∉ map Name js → declared_deps js name = [].
Proof. intros H. unfold declared_deps. by rewrite filter_name_absent. Qed.

Lemma buildDependencyGraph_deps_of js name :
  deps_of (buildDependencyGraph js) name = declared_deps js name.
Proof.
  unfold buildDependencyGraph. rewrite add_all_deps_deps_of, add_jobs_deps_of.
  unfold deps_of at 1. simpl. by rewrite lookup_empty.
Qed.

Lemma buildDependencyGraph_dom js :
  dom (jobs (buildDependencyGraph js)) = list_to_set (map Name js).
Proof.
  unfold buildDependencyGraph. rewrite add_all_deps_jobs, add_jobs_dom.
  simpl. rewrite dom_empty_L. set_solver.
Qed.

Lemma buildDependencyGraph_completed js : completed (buildDependencyGraph js) = ∅.
Proof.
  unfold buildDependencyGraph. by rewrite add_all_deps_completed, add_jobs_completed.
Qed.

Lemma buildDependencyGraph_lookup js job :
  NoDup (map Name js) → job ∈ js →
  jobs (buildDependencyGraph js) !! Name job = Some job.
Proof.
  intros Hnd Hin. unfold buildDependencyGraph. rewrite add_all_deps_jobs.
  by apply add_jobs_lookup.
Qed.

Lemma add_jobs_last js : ∀ g name,
  jobs (foldl (λ g job, AddJob job g) g js) !! name =
  match last (filter (λ job, Name job = name) js) with
  | Some job => Some job
  | None => jobs g !! name
  end.
Proof.
  induction js as [|j rest IH]; intros g name; simpl; [done|].
  rewrite IH, filter_cons. case_decide as Hn.
  - subst. destruct (filter _ rest) as [|j' l] eqn:Hf; simpl.
    + by rewrite lookup_insert_eq.
    + rewrite last_cons. by destruct (last l).
  - destruct (last _); [done|]. simpl. by rewrite lookup_insert_ne.
Qed.

Lemma add_deps_dependents_of a ds : ∀ g name,
  dependents_of (foldl (λ g depName, AddDependency a depName g) g ds) name =
  dependents_of g name ++ map (λ _, a) (filter (λ d, d = name) ds).
Proof.
  induction ds as [|d rest IH]; intros g name; simpl; [by rewrite app_nil_r|].
  rewrite IH, dependents_of_AddDependency, filter_cons.
  repeat case_decide; subst; try done. simpl. by rewrite <- app_assoc.
Qed.

Lemma add_all_deps_dependents_of (js : list Job) : ∀ g name,
  dependents_of (foldl (λ g job, foldl (λ g depName, AddDependency (Name job) depName g)
                                   g (DependsOn job)) g js) name
  = dependents_of g name ++ declared_dependents js name.
Proof.
  unfold declared_dependents.
  induction js as [|job rest IH]; intros g name; simpl; [by rewrite app_nil_r|].
  by rewrite IH, add_deps_dependents_of, app_assoc.
Qed.

Lemma elem_of_declared_deps js a b :
  b ∈ declared_deps js a ↔ ∃ job, job ∈ js ∧ Name job = a ∧ b ∈ DependsOn job.
Proof.
  unfold declared_deps. rewrite list_elem_of_In, in_concat. split.
  - intros (l & Hl & Hb). apply in_map_iff in Hl as (job & <- & Hjob).
    apply list_elem_of_In, list_elem_of_filter in Hjob as [? ?].
    exists job. apply list_elem_of_In in Hb. done.
  - intros (job & Hjob & Hn & Hb). exists (DependsOn job). split.
    + apply in_map_iff. exists job. split; [done|].
      apply list_elem_of_In, list_elem_of_filter. done.
    + by apply list_elem_of_In.
Qed.

Lemma elem_of_declared_dependents js a b :
  a ∈ declared_dependents js b ↔ ∃ job, job ∈ js ∧ Name job = a ∧ b ∈ DependsOn job.
Proof.
  unfold declared_dependents. rewrite list_elem_of_In, in_concat. split.
  - intros (l & Hl & Ha). apply in_map_iff in Hl as (job & <- & Hjob).
    apply in_map_iff in Ha as (d & <- & Hd).
    apply list_elem_of_In, list_elem_of_filter in Hd as [-> ?].
    exists job. apply list_elem_of_In in Hjob. done.
  - intros (job & Hjob & Hn & Hb). eexists. split.
    + apply in_map_iff. exists job. split; [done|]. by apply list_elem_of_In.
    + apply in_map_iff. exists b. split; [done|].
      apply list_elem_of_In, list_elem_of_filter. done.
Qed.

(** X1. The graph built for a stage whose jobs have distinct names
    registers exactly these jobs, each under its name and with its
    declared dependency list, and nothing is completed; a name that no
    job carries is not registered and has no dependencies. *)
Theorem buildDependencyGraph_registers_stage (js : list Job) :
  NoDup (map Name js) →
  let g := buildDependencyGraph js in
  completed g = ∅ ∧
  dom (jobs g) = list_to_set (map Name js) ∧
  size (jobs g) = length js ∧
  (∀ job, job ∈ js →
     jobs g !! Name job = Some job ∧ deps_of g (Name job) = DependsOn job) ∧
  (∀ name, name ∉ map Name js → jobs g !! name = None ∧ deps_of g name = []).
Proof.
  intros Hnd g. split; [apply buildDependencyGraph_completed|].
  split; [apply buildDependencyGraph_dom|]. split; [|split].
  - rewrite <- size_dom. unfold g. rewrite buildDependencyGraph_dom.
    rewrite size_list_to_set by done. by rewrite length_map.
  - intros job Hjob. split; [by apply buildDependencyGraph_lookup|].
    unfold g. rewrite buildDependencyGraph_deps_of. by apply declared_deps_unique.
  - intros name Hname. split.
    + apply not_elem_of_dom. unfold g. rewrite buildDependencyGraph_dom.
      by rewrite elem_of_list_to_set.
    + unfold g. rewrite buildDependencyGraph_deps_of. by apply declared_deps_absent.
Qed.

Lemma buildDependencyGraph_registers_stage_witness :
  NoDup (map Name jobs_ABC) ∧
  let g := buildDependencyGraph jobs_ABC in
  completed g = ∅ ∧
  dom (jobs g) = list_to_set (map Name jobs_ABC) ∧
  size (jobs g) = length jobs_ABC ∧
  (∀ job, job ∈ jobs_ABC →
     jobs g !! Name job = Some job ∧ deps_of g (Name job) = DependsOn job) ∧
  (∀ name, name ∉ map Name jobs_ABC → jobs g !! name = None ∧ deps_of g name = []).
Proof.
  assert (H : NoDup (map Name jobs_ABC))
    by (apply (bool_decide_eq_true (NoDup (map Name jobs_ABC))); vm_compute; reflexivity).
  split; [exact H|]. exact (buildDependencyGraph_registers_stage jobs_ABC H).
Defined.

(** X2. When several jobs of a stage carry the same name, the graph
    keeps the last of them under that name, but the dependency list of
    the name collects the declarations of all of them, in the order of
    the job list. *)
Theorem buildDependencyGraph_duplicate_names (js : list Job) (name : string) :
  jobs (buildDependencyGraph js) !! name = last (filter (λ job, Name job = name) js) ∧
  deps_of (buildDependencyGraph js) name = declared_deps js name.
Proof.
  split; [|apply buildDependencyGraph_deps_of].
  unfold buildDependencyGraph. rewrite add_all_deps_jobs, add_jobs_last. simpl.
  rewrite lookup_empty. by destruct (last _).
Qed.

(** X3. In a built graph the dependents lists are the inverse of the
    dependency lists: [a] is listed as a dependent of [b] exactly when
    [b] is listed as a dependency of [a]; the dependents of a name are
    the names of the jobs that declare it, once per declaration, in the
    order of the job list. *)
Theorem dependents_inverse_of_dependencies (js : list Job) (a b : string) :
  dependents_of (buildDependencyGraph js) b = declared_dependents js b ∧
  (a ∈ dependents_of (buildDependencyGraph js) b ↔
   b ∈ deps_of (buildDependencyGraph js) a).
Proof.
  assert (Hd : dependents_of (buildDependencyGraph js) b = declared_dependents js b).
  { unfold buildDependencyGraph.
    rewrite add_all_deps_dependents_of, add_jobs_dependents_of.
    unfold dependents_of at 1. simpl. by rewrite lookup_empty. }
  split; [done|].
  rewrite Hd, buildDependencyGraph_deps_of.
  by rewrite elem_of_declared_dependents, elem_of_declared_deps.
Qed.

(* --------------------------------------------------------------------- *)
(** ** Remaining and ready jobs *)
(* --------------------------------------------------------------------- *)

(** X4. For every order of the range over the jobs: IsCompleted holds
    exactly when GetRemainingJobs is empty; the ready jobs are among the
    remaining ones, in the same order; and a remaining job is one that is
    registered and not completed. *)
Theorem remaining_jobs_and_completion (g : JobGraph) (keys : list string) :
  range_of g keys →
  (IsCompleted keys g = true ↔ GetRemainingJobs keys g = []) ∧
  GetReadyJobs keys g `sublist_of` GetRemainingJobs keys g ∧
  (∀ job, job ∈ GetRemainingJobs keys g ↔
          ∃ name, jobs g !! name = Some job ∧ name ∉ completed g).
Proof.
  intros [_ Hkeys]. split; [|split].
  - unfold IsCompleted, GetRemainingJobs.
    assert (Hin : ∀ k, k ∈ keys → is_Some (jobs g !! k))
      by (intros k Hk; by apply elem_of_dom, Hkeys).
    clear Hkeys. induction keys as [|k keys IH]; simpl; [done|].
    destruct (Hin k) as [j Hj]; [left|]. rewrite Hj.
    case_bool_decide; simpl.
    + apply IH. intros k' Hk'. apply Hin. by right.
    + done.
  - unfold GetReadyJobs, GetRemainingJobs. clear Hkeys.
    induction keys as [|k keys IH]; simpl; [done|].
    destruct (jobs g !! k) as [j|]; [|done].
    case_bool_decide; [done|].
    destruct (allDepsCompleted g k); [by apply sublist_skip|by apply sublist_cons].
  - intros job. unfold GetRemainingJobs. rewrite list_elem_of_omap. split.
    + intros (name & Hin & Hsome). exists name.
      destruct (jobs g !! name) as [j|]; [|done].
      case_bool_decide; [done|]. by simplify_eq.
    + intros (name & Hj & Hc). exists name. split.
      * apply Hkeys, elem_of_dom. by eexists.
      * rewrite Hj. by rewrite bool_decide_eq_false_2.
Qed.

Lemma remaining_jobs_and_completion_witness :
  range_of graph_AB ["B"; "A"] ∧
  (IsCompleted ["B"; "A"] graph_AB = true ↔ GetRemainingJobs ["B"; "A"] graph_AB = []) ∧
  GetReadyJobs ["B"; "A"] graph_AB `sublist_of` GetRemainingJobs ["B"; "A"] graph_AB ∧
  (∀ job, job ∈ GetRemainingJobs ["B"; "A"] graph_AB ↔
          ∃ name, jobs graph_AB !! name = Some job ∧ name ∉ completed graph_AB).
Proof.
  assert (H : range_of graph_AB ["B"; "A"])
    by (apply range_of_check_ok; vm_compute; reflexivity).
  split; [exact H|]. exact (remaining_jobs_and_completion graph_AB ["B"; "A"] H).
Defined.

(* --------------------------------------------------------------------- *)
(** ** The order in which the executor runs and records jobs *)
(* --------------------------------------------------------------------- *)

Lemma filter_all_succeeded (l : list JobResult) :
  Forall succeeded l → filter (λ r, jrSuccess r = true) l = l.
Proof.
  induction 1 as [|r l Hr _ IH]; [done|].
  rewrite filter_cons, decide_True by done. by rewrite IH.
Qed.

Lemma deps_recorded_before_app g done0 old add :
  deps_recorded_before g done0 old →
  (∀ r, r ∈ add → ∀ d, d ∈ deps_of g (jrName r) →
        d ∈ done0 ∨ ∃ r', r' ∈ old ∧ jrName r' = d ∧ jrSuccess r' = true) →
  deps_recorded_before g done0 (old ++ add).
Proof.
  intros Hold Hadd pre r post Heq d Hd.
  assert (Hadded : ∀ pre', pre = old ++ pre' → add = pre' ++ r :: post →
            d ∈ done0 ∨ ∃ r', r' ∈ pre ∧ jrName r' = d ∧ jrSuccess r' = true).
  { intros pre' -> ->.
    destruct (Hadd r) with (d := d) as [?|(r' & Hr' & ? & ?)]; [set_solver|done|by left|].
    right. exists r'. split; [|done]. apply elem_of_app. by left. }
  apply app_eq_app in Heq as [l [[Ho Hl]|[Hp Ha]]].
  - destruct l as [|r0 l'].
    + simpl in Hl. apply (Hadded []); [by rewrite Ho, !app_nil_r|done].
    + simpl in Hl. injection Hl as <- ->. by eapply Hold.
  - by apply (Hadded l).
Qed.

Section waves_history.
Context (ord : nat → list string) (pm : Manager) (dryRun : bool) (ctx : Context).
Context (g0 : JobGraph) (base : list JobResult).
Hypothesis Hwf : graph_wf g0.
Hypothesis Hnd : ∀ k, NoDup (ord k).

Lemma ready_results_facts g k tr :
  jobs g = jobs g0 → dependencies g = dependencies g0 →
  let results := (runWave pm dryRun tr ctx (GetReadyJobs (ord k) g)).1 in
  NoDup (map jrName results) ∧
  ∀ r, r ∈ results →
    jrName r ∈ dom (jobs g0) ∧ jrName r ∉ completed g ∧
    ∀ d, d ∈ deps_of g0 (jrName r) → d ∈ completed g.
Proof.
  intros Hjobs Hdeps results.
  assert (Hwfg : graph_wf g) by (unfold graph_wf; rewrite Hjobs; apply Hwf).
  unfold results. rewrite (runWave_names pm dryRun ctx _ tr) at 1.
  split; [apply ready_names_NoDup; [done|apply Hnd]|].
  intros r Hr.
  assert (jrName r ∈ map Name (GetReadyJobs (ord k) g)) as Hin.
  { rewrite <- (runWave_names pm dryRun ctx _ tr). apply list_elem_of_fmap. by exists r. }
  apply list_elem_of_fmap in Hin as (job & -> & Hjob).
  apply elem_of_GetReadyJobs in Hjob as (name & _ & Hj & Hc & Hall).
  rewrite (Hwfg name job Hj). split; [rewrite <- Hjobs; by apply elem_of_dom|].
  split; [done|]. intros d Hd.
  unfold allDepsCompleted in Hall. rewrite forallb_forall in Hall.
  assert (In d (deps_of g name)) as Hin
    by (apply list_elem_of_In; unfold deps_of in *; by rewrite Hdeps).
  apply Hall in Hin. by apply bool_decide_eq_true_1 in Hin.
Qed.

Lemma waves_history : ∀ fuel k g sr tr ws new st,
  jobs g = jobs g0 → dependencies g = dependencies g0 →
  srJobs sr = base ++ new → concat ws = new → Forall succeeded new →
  completed g = completed g0 ∪ list_to_set (map jrName new) →
  deps_recorded_before g0 (completed g0) new →
  NoDup (map jrName new) →
  (∀ r, r ∈ new → jrName r ∈ dom (jobs g0) ∖ completed g0) →
  waves fuel ord k pm dryRun ctx (GetReadyJobs (ord k) g) g sr tr ws = Some st →
  ∃ rec unrec, history_post g0 base st rec unrec.
Proof.
  induction fuel as [|f IH];
    intros k g sr tr ws new st Hjobs Hdeps Hsr Hws Hok Hdone Hbefore Hnodup Hreg Hrun;
    pose proof (ready_results_facts g k tr Hjobs Hdeps) as Hfacts;
    destruct (GetReadyJobs (ord k) g) as [|job rest] eqn:Hready.
  1, 3: simpl in Hrun; injection Hrun as <-; exists new, []; unfold history_post; simpl;
        rewrite !app_nil_r, filter_all_succeeded by done; done.
  { done. }
  unroll_wave Hrun. cbv zeta in Hfacts.
  set (results := (runWave pm dryRun tr ctx (job :: rest)).1) in *.
  set (tr' := (runWave pm dryRun tr ctx (job :: rest)).2) in *.
  destruct Hfacts as [Hndr Hres].
  assert (Hfresh : ∀ r, r ∈ results → jrName r ∉ map jrName new).
  { intros r Hr Hin. destruct (Hres r Hr) as (_ & Hnc & _). apply Hnc.
    rewrite Hdone. apply elem_of_union. right. by apply elem_of_list_to_set. }
  assert (Hnd2 : NoDup (map jrName (new ++ results))).
  { rewrite map_app. apply NoDup_app. split; [done|]. split; [|done].
    intros n Hn (r & -> & Hr)%list_elem_of_fmap. by apply (Hfresh r). }
  assert (Hreg2 : ∀ r, r ∈ new ++ results → jrName r ∈ dom (jobs g0) ∖ completed g0).
  { intros r [Hr|Hr]%elem_of_app; [by apply Hreg|].
    destruct (Hres r Hr) as (Hd & Hnc & _). apply elem_of_difference.
    split; [done|]. intros Hc. apply Hnc. rewrite Hdone. set_solver. }
  assert (Hdeps2 : ∀ r, r ∈ results → ∀ d, d ∈ deps_of g0 (jrName r) →
            d ∈ completed g0 ∨ ∃ r', r' ∈ new ∧ jrName r' = d ∧ jrSuccess r' = true).
  { intros r Hr d Hd. destruct (Hres r Hr) as (_ & _ & Hall).
    specialize (Hall d Hd). rewrite Hdone in Hall.
    apply elem_of_union in Hall as [?|Hin]; [by left|right].
    apply elem_of_list_to_set, list_elem_of_fmap in Hin as (r' & -> & Hr').
    exists r'. split; [done|]. split; [done|].
    rewrite Forall_forall in Hok. by apply Hok. }
  destruct (first_failure results) as [bad|] eqn:Hff.
  - destruct (first_failure_Some _ _ Hff) as (Hbad & Hpre & Hrec & post & Hpost).
    injection Hrun as <-. exists (new ++ recorded results), post.
    unfold history_post. simpl. rewrite Hrec.
    set (sb := succeeded_before results) in *. clearbody sb. clearbody results tr'.
    subst results. rewrite <- !app_assoc. simpl.
    split; [by rewrite Hsr, <- app_assoc|].
    split; [by rewrite concat_app; simpl; rewrite app_nil_r, Hws|].
    split; [done|]. split; [|split; [|split; [done|done]]].
    + rewrite (app_assoc new sb [bad]). apply deps_recorded_before_app.
      * apply deps_recorded_before_app; [done|].
        intros r Hr. apply Hdeps2. apply elem_of_app. by left.
      * intros r ->%list_elem_of_singleton d Hd.
        destruct (Hdeps2 bad) with (d := d) as [?|(r' & Hr' & ? & ?)];
          [apply elem_of_app; right; left|done|by left|].
        right. exists r'. split; [apply elem_of_app; by left|done].
    + rewrite mark_all_completed, Hdone, !filter_app.
      rewrite (filter_all_succeeded new), (filter_all_succeeded sb) by done.
      rewrite filter_cons, decide_False by (unfold failed in Hbad; congruence).
      rewrite filter_nil, app_nil_r, map_app, list_to_set_app_L. set_solver.
  - destruct (first_failure_None _ Hff) as (Hall & Hpre & Hrec).
    rewrite Hpre, Hrec in Hrun.
    apply (IH _ _ _ _ _ (new ++ results)) in Hrun; try done.
    + by rewrite mark_all_jobs.
    + by rewrite mark_all_dependencies.
    + simpl. by rewrite Hsr, <- app_assoc.
    + rewrite concat_app. simpl. by rewrite app_nil_r, Hws.
    + by apply Forall_app.
    + rewrite mark_all_completed, Hdone, map_app, list_to_set_app_L. set_solver.
    + by apply deps_recorded_before_app.
Qed.
End waves_history.

Lemma ExecuteGraph_history ord pm ctx g sr dryRun tr st :
  graph_wf g → (∀ k, NoDup (ord k)) →
  ExecuteGraph ord pm ctx g sr dryRun tr = Some st →
  ∃ rec unrec, history_post g (srJobs sr) st rec unrec.
Proof.
  intros Hwf Hnd. unfold ExecuteGraph, ExecuteGraph_fuel.
  destruct (HasCycles (ord 0) g) as [[]|]; [|intros Hrun|done].
  - intros [= <-]. exists [], []. unfold history_post. simpl.
    rewrite app_nil_r. split; [done|]. split; [done|]. split; [constructor|].
    split; [by intros [|??] ???|]. split; [set_solver|]. split; [|done].
    by intros r ?%elem_of_nil.
  - eapply (waves_history ord pm dryRun ctx g (srJobs sr) Hwf Hnd) with (new := []);
      try exact Hrun; try done.
    + by rewrite app_nil_r.
    + simpl. set_solver.
    + by intros [|??] ???.
    + constructor.
    + by intros r ?%elem_of_nil.
Qed.

(** X5. ExecuteGraph records results in an order that follows the
    dependencies: whatever the order of the map ranges and the outcome
    of the jobs, each result it appends to the stage accumulator comes
    after a successful result of every dependency of its job that was
    not already completed when the execution started. *)
Theorem results_follow_dependencies
    (ord : nat → list string) (pm : Manager) (ctx : Context) (g : JobGraph)
    (sr : StageResult) (dryRun : bool) (tr : Trace) (st : ExecState) :
  graph_wf g → (∀ k, range_of g (ord k)) →
  ExecuteGraph ord pm ctx g sr dryRun tr = Some st →
  ∃ rec, srJobs (exStage st) = srJobs sr ++ rec ∧
         deps_recorded_before g (completed g) rec.
Proof.
  intros Hwf Hord Hrun.
  destruct (ExecuteGraph_history ord pm ctx g sr dryRun tr st Hwf
              (λ k, proj1 (Hord k)) Hrun) as (rec & unrec & H1 & _ & _ & H4 & _).
  by exists rec.
Qed.

Lemma results_follow_dependencies_witness :
  let g := buildDependencyGraph jobs_ABC in
  let ord := fixed_order ["C"; "B"; "A"] in
  graph_wf g ∧ (∀ k, range_of g (ord k)) ∧
  ∃ st, ExecuteGraph ord pm_demo background g (newStageResult "deploy") false []
        = Some st ∧
    ∃ rec, srJobs (exStage st) = srJobs (newStageResult "deploy") ++ rec ∧
           deps_recorded_before g (completed g) rec.
Proof.
  intros g ord.
  assert (H1 : graph_wf g) by apply buildDependencyGraph_wf.
  assert (H2 : ∀ k, range_of g (ord k))
    by (intros k; apply range_of_check_ok; vm_compute; reflexivity).
  split; [exact H1|]. split; [exact H2|].
  eexists. split; [vm_compute; reflexivity|].
  eapply (results_follow_dependencies ord pm_demo background g
            (newStageResult "deploy") false [] _ H1 H2).
  vm_compute; reflexivity.
Defined.

(** X6. ExecuteGraph dispatches every job at most once: over all waves
    the dispatched jobs have distinct names, they are registered jobs
    that were not completed at the start, so there are no more of them
    than jobs; the results recorded are a prefix of the results of the
    dispatched jobs, all of them when no error is returned; and a job is
    marked completed exactly when a successful result was recorded for
    it. *)
Theorem jobs_run_at_most_once
    (ord : nat → list string) (pm : Manager) (ctx : Context) (g : JobGraph)
    (sr : StageResult) (dryRun : bool) (tr : Trace) (st : ExecState) :
  graph_wf g → (∀ k, range_of g (ord k)) →
  ExecuteGraph ord pm ctx g sr dryRun tr = Some st →
  NoDup (map jrName (concat (exWaves st))) ∧
  (∀ r, r ∈ concat (exWaves st) →
        jrName r ∈ dom (jobs g) ∧ jrName r ∉ completed g) ∧
  length (concat (exWaves st)) ≤ size (jobs g) ∧
  ∃ rec, srJobs (exStage st) = srJobs sr ++ rec ∧
         rec `prefix_of` concat (exWaves st) ∧
         (exErr st = None → rec = concat (exWaves st)) ∧
         completed (exGraph st) =
           completed g ∪
           list_to_set (map jrName (filter (λ r, jrSuccess r = true) rec)).
Proof.
  intros Hwf Hord Hrun.
  destruct (ExecuteGraph_history ord pm ctx g sr dryRun tr st Hwf
              (λ k, proj1 (Hord k)) Hrun)
    as (rec & unrec & H1 & H2 & H3 & H4 & H5 & H6 & H7).
  rewrite H2. split; [done|]. split; [|split].
  - intros r Hr. by apply elem_of_difference, H6.
  - rewrite <- (length_map jrName), <- size_dom, <- (size_list_to_set (C := gset string)) by done.
    apply subseteq_size. intros n (r & -> & Hr)%elem_of_list_to_set%list_elem_of_fmap.
    by apply H6 in Hr as [? _]%elem_of_difference.
  - exists rec. split; [done|]. split; [by apply prefix_app_r|]. split; [|done].
    intros He. destruct (H7 He) as [-> _]. by rewrite app_nil_r.
Qed.

Lemma jobs_run_at_most_once_witness :
  let g := buildDependencyGraph jobs_ABC in
  let ord := fixed_order ["C"; "B"; "A"] in
  graph_wf g ∧ (∀ k, range_of g (ord k)) ∧
  ∃ st, ExecuteGraph ord pm_demo background g (newStageResult "deploy") false []
        = Some st ∧
    NoDup (map jrName (concat (exWaves st))) ∧
    (∀ r, r ∈ concat (exWaves st) →
          jrName r ∈ dom (jobs g) ∧ jrName r ∉ completed g) ∧
    length (concat (exWaves st)) ≤ size (jobs g) ∧
    ∃ rec, srJobs (exStage st) = srJobs (newStageResult "deploy") ++ rec ∧
           rec `prefix_of` concat (exWaves st) ∧
           (exErr st = None → rec = concat (exWaves st)) ∧
           completed (exGraph st) =
             completed g ∪
             list_to_set (map jrName (filter (λ r, jrSuccess r = true) rec)).
Proof.
  intros g ord.
  assert (H1 : graph_wf g) by apply buildDependencyGraph_wf.
  assert (H2 : ∀ k, range_of g (ord k))
    by (intros k; apply range_of_check_ok; vm_compute; reflexivity).
  split; [exact H1|]. split; [exact H2|].
  eexists. split; [vm_compute; reflexivity|].
  eapply (jobs_run_at_most_once ord pm_demo background g
            (newStageResult "deploy") false [] _ H1 H2).
  vm_compute; reflexivity.
Defined.

(* --------------------------------------------------------------------- *)
(** ** A job that can never become ready *)
(* --------------------------------------------------------------------- *)

Lemma waves_never_ready ord pm dryRun ctx g0 name d :
  graph_wf g0 → (∀ k, NoDup (ord k)) →
  d ∈ deps_of g0 name → d ∉ dom (jobs g0) →
  ∀ fuel k g sr tr ws st,
    jobs g = jobs g0 → dependencies g = dependencies g0 →
    d ∉ completed g →
    (∀ r, r ∈ concat ws → jrName r ≠ name) →
    waves fuel ord k pm dryRun ctx (GetReadyJobs (ord k) g) g sr tr ws = Some st →
    (∀ r, r ∈ concat (exWaves st) → jrName r ≠ name) ∧ d ∉ completed (exGraph st).
Proof.
  intros Hwf Hnd Hd Hunreg.
  induction fuel as [|f IH]; intros k g sr tr ws st Hjobs Hdeps Hdc Hws Hrun;
    pose proof (ready_results_facts ord pm dryRun ctx g0 Hwf Hnd g k tr Hjobs Hdeps)
      as [_ Hres];
    destruct (GetReadyJobs (ord k) g) as [|job rest] eqn:Hready.
  1, 3: simpl in Hrun; by injection Hrun as <-.
  { done. }
  unroll_wave Hrun.
  set (results := (runWave pm dryRun tr ctx (job :: rest)).1) in *.
  set (tr' := (runWave pm dryRun tr ctx (job :: rest)).2) in *.
  assert (Hws' : ∀ r, r ∈ concat (ws ++ [results]) → jrName r ≠ name).
  { intros r. rewrite concat_app. simpl. rewrite app_nil_r.
    intros [Hr|Hr]%elem_of_app; [by apply Hws|].
    intros Heq. destruct (Hres r Hr) as (_ & _ & Hall). apply Hdc, Hall. by rewrite Heq. }
  assert (Hdc' : d ∉ completed (mark_all (map jrName (succeeded_before results)) g)).
  { rewrite mark_all_completed.
    intros [(r & -> & Hr)%elem_of_list_to_set%list_elem_of_fmap|?]%elem_of_union; [|done].
    assert (r ∈ results) as Hin.
    { destruct (first_failure results) as [bad|] eqn:Hff.
      - destruct (first_failure_Some _ _ Hff) as (_ & _ & _ & post & Hpost).
        rewrite Hpost. apply elem_of_app. by left.
      - destruct (first_failure_None _ Hff) as (_ & Hpre & _). by rewrite <- Hpre. }
    by destruct (Hres r Hin) as (? & _). }
  destruct (first_failure results) as [bad|] eqn:Hff.
  - by injection Hrun as <-.
  - eapply IH; [| | | |exact Hrun]; [by rewrite mark_all_jobs|
      by rewrite mark_all_dependencies|done|done].
Qed.

(** X7. A job one of whose dependencies names no registered job (and is
    not marked completed) is never dispatched and never completed, so the
    graph is not completed afterwards; ExecuteGraph does not report this:
    in a dry run of a graph without cycle it returns [nil]. *)
Theorem unregistered_dependency_blocks_job
    (ord : nat → list string) (pm : Manager) (ctx : Context) (g : JobGraph)
    (sr : StageResult) (dryRun : bool) (tr : Trace) (st : ExecState)
    (name d : string) :
  graph_wf g → (∀ k, range_of g (ord k)) →
  name ∈ dom (jobs g) → name ∉ completed g →
  d ∈ deps_of g name → d ∉ dom (jobs g) → d ∉ completed g →
  ExecuteGraph ord pm ctx g sr dryRun tr = Some st →
  (∀ r, r ∈ concat (exWaves st) → jrName r ≠ name) ∧
  name ∉ completed (exGraph st) ∧
  (∀ keys, range_of g keys → IsCompleted keys (exGraph st) = false) ∧
  (dryRun = true → ¬ cyclic g → exErr st = None).
Proof.
  intros Hwf Hord Hname Hnc Hd Hunreg Hdc Hrun.
  pose proof (λ k, proj1 (Hord k)) as Hnd.
  assert (Hnever : ∀ r, r ∈ concat (exWaves st) → jrName r ≠ name).
  { revert Hrun. unfold ExecuteGraph, ExecuteGraph_fuel.
    destruct (HasCycles (ord 0) g) as [[]|]; [|intros Hrun|done].
    - intros [= <-] r. simpl. by intros ?%elem_of_nil.
    - eapply (waves_never_ready ord pm dryRun ctx g name d Hwf Hnd Hd Hunreg);
        [| | | |exact Hrun]; try done. intros r. simpl. by intros ?%elem_of_nil. }
  destruct (ExecuteGraph_history ord pm ctx g sr dryRun tr st Hwf Hnd Hrun)
    as (rec & unrec & H1 & H2 & H3 & H4 & H5 & H6 & H7).
  assert (Hfinal : name ∉ completed (exGraph st)).
  { rewrite H5.
    intros [?|(r & -> & Hr)%elem_of_list_to_set%list_elem_of_fmap]%elem_of_union; [done|].
    apply list_elem_of_filter in Hr as [_ Hr].
    apply (Hnever r); [|done]. rewrite H2. apply elem_of_app. by left. }
  split; [done|]. split; [done|]. split.
  - intros keys [_ Hkeys]. apply (IsCompleted_false keys _ name); [by apply Hkeys|done].
  - intros -> Hacyc. revert Hrun. unfold ExecuteGraph, ExecuteGraph_fuel.
    destruct (HasCycles_loop_spec g (dfs_budget g) (Nat.lt_succ_diag_r _) (ord 0) ∅
                (dfs_inv_empty g)) as (b & Hb & Hspec).
    unfold HasCycles, HasCycles_fuel. rewrite Hb. destruct b; [done|].
    by intros [_ ?]%waves_dry.
Qed.

Lemma unregistered_dependency_blocks_job_witness :
  let g := buildDependencyGraph [simple_job "A" "ok" ["ghost"]] in
  let ord := fixed_order ["A"] in
  graph_wf g ∧ (∀ k, range_of g (ord k)) ∧
  "A" ∈ dom (jobs g) ∧ "A" ∉ completed g ∧
  "ghost" ∈ deps_of g "A" ∧ "ghost" ∉ dom (jobs g) ∧ "ghost" ∉ completed g ∧
  ∃ st, ExecuteGraph ord pm_demo background g (newStageResult "deploy") true []
        = Some st ∧
    (∀ r, r ∈ concat (exWaves st) → jrName r ≠ "A") ∧
    "A" ∉ completed (exGraph st) ∧
    (∀ keys, range_of g keys → IsCompleted keys (exGraph st) = false) ∧
    (true = true → ¬ cyclic g → exErr st = None).
Proof.
  intros g ord.
  assert (H1 : graph_wf g) by apply buildDependencyGraph_wf.
  assert (H2 : ∀ k, range_of g (ord k))
    by (intros k; apply range_of_check_ok; vm_compute; reflexivity).
  assert (H3 : "A" ∈ dom (jobs g))
    by (apply (bool_decide_eq_true ("A" ∈ dom (jobs g))); vm_compute; reflexivity).
  assert (H4 : "A" ∉ completed g)
    by (apply (bool_decide_eq_true ("A" ∉ completed g)); vm_compute; reflexivity).
  assert (H5 : "ghost" ∈ deps_of g "A")
    by (apply (bool_decide_eq_true ("ghost" ∈ deps_of g "A")); vm_compute; reflexivity).
  assert (H6 : "ghost" ∉ dom (jobs g))
    by (apply (bool_decide_eq_true ("ghost" ∉ dom (jobs g))); vm_compute; reflexivity).
  assert (H7 : "ghost" ∉ completed g)
    by (apply (bool_decide_eq_true ("ghost" ∉ completed g)); vm_compute; reflexivity).
  repeat (split; [assumption|]).
  eexists. split; [vm_compute; reflexivity|].
  eapply (unregistered_dependency_blocks_job ord pm_demo background g
            (newStageResult "deploy") true [] _ "A" "ghost" H1 H2 H3 H4 H5 H6 H7).
  vm_compute; reflexivity.
Defined.

(* --------------------------------------------------------------------- *)
(** ** The plugin registry *)
(* --------------------------------------------------------------------- *)

(** X8. Registering a plugin under a free name succeeds, after which
    GetPlugin returns that plugin under its name, the lookups of all
    other names are unchanged, and a further registration under the same
    name fails and leaves the registry as it is; registering under a
    taken name fails and leaves the registry as it is. *)
Theorem register_then_get (plg : Plugin) (pm : Manager) :
  match registry pm !! PluginName plg with
  | None =>
      ∃ pm', RegisterPlugin plg pm = (None, pm') ∧
        GetPlugin pm' (PluginName plg) = inl plg ∧
        (∀ other, other ≠ PluginName plg → GetPlugin pm' other = GetPlugin pm other) ∧
        (∀ plg2, PluginName plg2 = PluginName plg →
           RegisterPlugin plg2 pm' = (Some (already_registered (PluginName plg)), pm') ∧
           GetPlugin (RegisterPlugin plg2 pm').2 (PluginName plg) = inl plg)
  | Some old =>
      RegisterPlugin plg pm = (Some (already_registered (PluginName plg)), pm) ∧
      GetPlugin pm (PluginName plg) = inl old
  end.
Proof.
  destruct (registry pm !! PluginName plg) as [old|] eqn:Hreg.
  - unfold RegisterPlugin, GetPlugin. by rewrite Hreg.
  - eexists. unfold RegisterPlugin at 1. rewrite Hreg. split; [done|].
    unfold GetPlugin, RegisterPlugin. simpl. rewrite lookup_insert_eq.
    split; [done|]. split.
    + intros other Hne. by rewrite lookup_insert_ne.
    + intros plg2 ->. rewrite !lookup_insert_eq. simpl. by rewrite lookup_insert_eq.
Qed.

Lemma omap_lookup_map_to_list {A} (m : gmap string A) (l : list (string * A)) :
  (∀ k v, (k, v) ∈ l → m !! k = Some v) → omap (λ k, m !! k) l.*1 = l.*2.
Proof.
  induction l as [|[k v] l IH]; intros Hl; simpl; [done|].
  rewrite (Hl k v) by left. f_equal. apply IH. intros k' v' Hin. apply Hl. by right.
Qed.

Lemma omap_lookup_range {A} (m : gmap string A) (keys : list string) :
  NoDup keys → (∀ k, k ∈ keys ↔ k ∈ dom m) →
  omap (λ k, m !! k) keys ≡ₚ (map_to_list m).*2.
Proof.
  intros Hnd Hkeys.
  rewrite <- (omap_lookup_map_to_list m (map_to_list m))
    by (intros k v; apply elem_of_map_to_list).
  apply omap_Permutation, NoDup_Permutation; [done|apply NoDup_fst_map_to_list|].
  intros k. rewrite Hkeys, elem_of_dom. split.
  - intros [v Hv]. apply list_elem_of_fmap. exists (k, v). split; [done|].
    by apply elem_of_map_to_list.
  - intros ([k' v] & -> & Hin)%list_elem_of_fmap. exists v. by apply elem_of_map_to_list.
Qed.

Lemma registry_range_check_ok pm keys :
  registry_range_check pm keys = true → registry_range pm keys.
Proof.
  unfold registry_range_check, registry_range.
  intros [H1%bool_decide_eq_true_1 H2%bool_decide_eq_true_1]%andb_true_iff.
  split; [done|]. intros k. rewrite <- H2. by rewrite elem_of_list_to_set.
Qed.

(** X9. For every order of the range over the registry, ListPlugins
    returns each registered plugin exactly once: as many plugins as the
    registry has names, a plugin being listed exactly when it is
    registered under some name; and after a successful registration the
    listing is, up to order, the registered plugin added to the listing
    before, while a refused registration leaves the listing as it was up
    to order. *)
Theorem ListPlugins_lists_registry
    (pm : Manager) (keys keys' : list string) (plg : Plugin) :
  registry_range pm keys →
  registry_range (RegisterPlugin plg pm).2 keys' →
  length (ListPlugins keys pm) = size (registry pm) ∧
  (∀ p, p ∈ ListPlugins keys pm ↔ ∃ name, registry pm !! name = Some p) ∧
  (registry pm !! PluginName plg = None →
   ListPlugins keys' (RegisterPlugin plg pm).2 ≡ₚ plg :: ListPlugins keys pm) ∧
  (is_Some (registry pm !! PluginName plg) →
   ListPlugins keys' (RegisterPlugin plg pm).2 ≡ₚ ListPlugins keys pm).
Proof.
  intros [Hnd Hkeys] [Hnd' Hkeys']. unfold ListPlugins.
  pose proof (omap_lookup_range (registry pm) keys Hnd Hkeys) as Hperm.
  pose proof (omap_lookup_range _ keys' Hnd' Hkeys') as Hperm'.
  split; [|split; [|split]].
  - rewrite Hperm, length_fmap. apply length_map_to_list.
  - intros p. rewrite Hperm, list_elem_of_fmap. split.
    + intros ([k v] & -> & Hin). exists k. by apply elem_of_map_to_list.
    + intros (name & Hp). exists (name, p). split; [done|]. by apply elem_of_map_to_list.
  - intros Hfree. rewrite Hperm', Hperm. unfold RegisterPlugin. rewrite Hfree. simpl.
    by rewrite map_to_list_insert.
  - intros [old Hold]. rewrite Hperm', Hperm. unfold RegisterPlugin. by rewrite Hold.
Qed.

Lemma ListPlugins_lists_registry_witness :
  registry_range pm_ok ["ok"] ∧
  registry_range (RegisterPlugin plugin_bad pm_ok).2 ["bad"; "ok"] ∧
  length (ListPlugins ["ok"] pm_ok) = size (registry pm_ok) ∧
  (∀ p, p ∈ ListPlugins ["ok"] pm_ok ↔ ∃ name, registry pm_ok !! name = Some p) ∧
  (registry pm_ok !! PluginName plugin_bad = None →
   ListPlugins ["bad"; "ok"] (RegisterPlugin plugin_bad pm_ok).2
     ≡ₚ plugin_bad :: ListPlugins ["ok"] pm_ok) ∧
  (is_Some (registry pm_ok !! PluginName plugin_bad) →
   ListPlugins ["bad"; "ok"] (RegisterPlugin plugin_bad pm_ok).2
     ≡ₚ ListPlugins ["ok"] pm_ok).
Proof.
  assert (H1 : registry_range pm_ok ["ok"])
    by (apply registry_range_check_ok; vm_compute; reflexivity).
  assert (H2 : registry_range (RegisterPlugin plugin_bad pm_ok).2 ["bad"; "ok"])
    by (apply registry_range_check_ok; vm_compute; reflexivity).
  split; [exact H1|]. split; [exact H2|].
  exact (ListPlugins_lists_registry pm_ok ["ok"] ["bad"; "ok"] plugin_bad H1 H2).
Defined.

Lemma ExecutePlugin_cases
    (pm : Manager) (tr : Trace) (ctx : Context) (jobType : string) (config : Config) :
  ExecutePlugin pm tr ctx jobType config =
  match registry pm !! jobType with
  | None => (inr ("plugin " +:+ jobType +:+ " not found"), tr)
  | Some plg =>
      match Validate plg tr ctx config with
      | Some err =>
          (inr ("invalid configuration: " +:+ err),
           tr ++ [EvValidate (PluginName plg) ctx config])
      | None =>
          (Execute plg (tr ++ [EvValidate (PluginName plg) ctx config]) ctx config,
           tr ++ [EvValidate (PluginName plg) ctx config;
                  EvExecute (PluginName plg) ctx config])
      end
  end.
Proof.
  unfold ExecutePlugin, GetPlugin.
  destruct (registry pm !! jobType) as [plg|]; [|done].
  assert (Hctx : (if (0 <? length (default [] (variables ctx))) &&
                     bool_decide (variables ctx = None)
                  then {| executionID := executionID ctx;
                          variables := Some (default [] (variables ctx));
                          stageName := stageName ctx |}
                  else ctx) = ctx).
  { destruct (variables ctx) as [vars|]; simpl; [|done].
    by rewrite andb_false_r. }
  cbv zeta. rewrite Hctx. destruct (Validate plg tr ctx config); [done|].
  by rewrite <- app_assoc.
Qed.

(** X10. ExecutePlugin hands the caller's context and configuration to
    the handler unchanged (the branch that would rebuild the context is
    never taken); for a type without registered handler it calls nothing
    and returns the not-found error; when Validate rejects the
    configuration it returns that error wrapped and never calls Execute;
    otherwise it calls Execute right after Validate and returns its
    answer. *)
Theorem ExecutePlugin_calls
    (pm : Manager) (tr : Trace) (ctx : Context) (jobType : string) (config : Config) :
  ExecutePlugin pm tr ctx jobType config =
  match registry pm !! jobType with
  | None => (inr ("plugin " +:+ jobType +:+ " not found"), tr)
  | Some plg =>
      match Validate plg tr ctx config with
      | Some err =>
          (inr ("invalid configuration: " +:+ err),
           tr ++ [EvValidate (PluginName plg) ctx config])
      | None =>
          (Execute plg (tr ++ [EvValidate (PluginName plg) ctx config]) ctx config,
           tr ++ [EvValidate (PluginName plg) ctx config;
                  EvExecute (PluginName plg) ctx config])
      end
  end.
Proof. apply ExecutePlugin_cases. Qed.

(* --------------------------------------------------------------------- *)
(** ** What ExecutePlan returns *)
(* --------------------------------------------------------------------- *)

Lemma waves_shape ord pm dryRun ctx : ∀ fuel k ready g sr tr ws st,
  Forall succeeded (srJobs sr) →
  waves fuel ord k pm dryRun ctx ready g sr tr ws = Some st →
  match exErr st with
  | None => Forall succeeded (srJobs (exStage st))
  | Some e => ∃ good bad, srJobs (exStage st) = good ++ [bad] ∧
                Forall succeeded good ∧ failed bad ∧ e = job_error bad
  end.
Proof.
  induction fuel as [|f IH]; intros k ready g sr tr ws st Hsr Hrun;
    destruct ready as [|job rest].
  1, 3: simpl in Hrun; injection Hrun as <-; done.
  { done. }
  unroll_wave Hrun.
  set (results := (runWave pm dryRun tr ctx (job :: rest)).1) in *.
  destruct (first_failure results) as [bad|] eqn:Hff.
  - destruct (first_failure_Some _ _ Hff) as (Hbad & Hpre & Hrec & _).
    injection Hrun as <-. simpl. exists (srJobs sr ++ succeeded_before results), bad.
    rewrite Hrec, app_assoc. split; [done|]. split; [by apply Forall_app|done].
  - destruct (first_failure_None _ Hff) as (Hall & Hpre & Hrec).
    apply IH in Hrun; [done|]. simpl. rewrite Hrec. by apply Forall_app.
Qed.

Lemma executeStage_shape ord pm ctx stage options tr st :
  executeStage ord pm ctx stage (newStageResult (StageName stage)) options tr = Some st →
  srName (closeStage st) = StageName stage ∧
  match exErr st with
  | None => stage_succeeded (closeStage st)
  | Some cause => stage_failed (closeStage st) cause
  end.
Proof.
  intros Hrun. split; [by eapply executeStage_name|].
  unfold executeStage, ExecuteGraph, ExecuteGraph_fuel in Hrun.
  destruct (HasCycles _ _) as [[]|]; [| |done].
  - injection Hrun as <-. split; [done|]. by left.
  - apply waves_shape in Hrun; [|constructor].
    unfold stage_succeeded, stage_failed, closeStage. simpl.
    destruct (exErr st) as [e|]; [|done]. split; [done|]. by right.
Qed.

Lemma countJobs_app b l1 l2 : countJobs b (l1 ++ l2) = countJobs b l1 + countJobs b l2.
Proof. unfold countJobs. by rewrite map_app, concat_app, filter_app, length_app. Qed.

Lemma countJobs_sum l :
  countJobs true l + countJobs false l = length (concat (map srJobs l)).
Proof.
  unfold countJobs. induction (concat (map srJobs l)) as [|r rs IH]; [done|].
  rewrite !filter_cons. destruct (jrSuccess r); simpl;
    repeat case_decide; try done; simpl; lia.
Qed.

Lemma countJobs_succeeded l :
  Forall stage_succeeded l →
  countJobs false l = 0 ∧ countJobs true l = length (concat (map srJobs l)).
Proof.
  intros Hl. assert (countJobs false l = 0) as H0; [|pose proof (countJobs_sum l); lia].
  induction Hl as [|sr l [_ Hsr] _ IH]; [done|].
  change (sr :: l) with ([sr] ++ l). rewrite countJobs_app, IH.
  unfold countJobs. simpl. rewrite app_nil_r.
  induction Hsr as [|r rs Hr _ IH2]; [done|].
  rewrite filter_cons, decide_False by (unfold succeeded in Hr; congruence). apply IH2.
Qed.


Lemma countTotalJobs_length plan :
  countTotalJobs plan = length (concat (map Jobs (Stages plan))).
Proof.
  unfold countTotalJobs.
  assert (∀ l n, foldl (λ count stage, count + length (Jobs stage)) n l =
                 n + length (concat (map Jobs l))) as H; [|by rewrite H].
  induction l as [|s l IH]; intros n; simpl; [lia|].
  rewrite IH, length_app. lia.
Qed.

Lemma stages_loop_shape ord rord pm execCtx plan options : ∀ stages i result tr,
  ∃ out, stages_loop ord rord pm execCtx plan options i stages result tr = Some out ∧
    erID (poResult out) = erID result ∧
    erTotalStages (poResult out) = erTotalStages result ∧
    erTotalJobs (poResult out) = erTotalJobs result ∧
    erSuccess (poResult out) = bool_decide (poErr out = None) ∧
    erCompletedJobs (poResult out) =
      erCompletedJobs result + countJobs true (erStages (poResult out)) ∧
    erFailedJobs (poResult out) =
      erFailedJobs result + countJobs false (erStages (poResult out)) ∧
    match poErr out with
    | None =>
        ∃ new, erStages (poResult out) = erStages result ++ new ∧
               map srName new = map StageName stages ∧
               Forall stage_succeeded new
    | Some err =>
        ∃ good bad cause,
          erStages (poResult out) = erStages result ++ good ++ [bad] ∧
          map srName (good ++ [bad]) `prefix_of` map StageName stages ∧
          Forall stage_succeeded good ∧ stage_failed bad cause ∧
          err = stage_error (srName bad) cause
    end.
Proof.
  induction stages as [|stage rest IH]; intros i result tr.
  - eexists. split; [done|]. simpl. repeat (split; [done|]).
    exists []. by rewrite app_nil_r.
  - destruct (executeStage_total (ord i) pm execCtx stage
                (newStageResult (StageName stage)) options tr) as [st Hst].
    destruct (executeStage_shape _ _ _ _ _ _ _ Hst) as [Hname Hshape].
    change (srName (exStage st) = StageName stage) in Hname.
    destruct (exErr st) as [cause|] eqn:Herr.
    + rewrite (stages_loop_fail_step _ _ _ _ _ _ _ _ _ _ _ st cause Hst Herr).
      assert (∃ tr', match AutoRollback options, Rollback_ plan with
                     | true, Some rollback =>
                         executeRollback rord pm execCtx rollback (exTrace st)
                     | _, _ => Some (exTrace st)
                     end = Some tr') as [tr' ->].
      { destruct (AutoRollback options), (Rollback_ plan) as [rb|]; eauto.
        destruct (rollback_loop_runs rord pm execCtx (RollbackStages rb) 0 (exTrace st))
          as (sts & tr' & Hloop & _). by exists tr'. }
      eexists. split; [done|]. simpl. repeat (split; [done|]).
      exists [], (closeStage st), cause. simpl. rewrite Hname.
      split; [done|]. split; [by exists (map StageName rest)|]. done.
    + rewrite (stages_loop_ok_step _ _ _ _ _ _ _ _ _ _ _ st Hst Herr).
      destruct (IH (S i) (appendStage result (closeStage st)) (exTrace st))
        as (out & -> & H1 & H2 & H3 & H4 & H5 & H6 & H7).
      exists out. split; [done|]. simpl in *. repeat (split; [done|]).
      destruct (poErr out) as [err|].
      * destruct H7 as (good & bad & c & Hs & Hp & Hg & Hb & He).
        exists (closeStage st :: good), bad, c. rewrite Hs, <- app_assoc. simpl.
        split; [done|]. rewrite Hname. split; [by apply prefix_cons|].
        split; [by constructor|done].
      * destruct H7 as (new & Hs & Hn & Hall).
        exists (closeStage st :: new). rewrite Hs, <- app_assoc. simpl.
        rewrite Hname, Hn. split; [done|]. split; [done|]. by constructor.
Qed.


(* --------------------------------------------------------------------- *)
(** ** The job results of a plan execution *)
(* --------------------------------------------------------------------- *)

Lemma stage_closed_deps_registered stage :
  stage_closed stage → deps_registered (buildDependencyGraph (Jobs stage)).
Proof.
  intros [_ Hdeps] a b Hedge. unfold edge in Hedge.
  rewrite buildDependencyGraph_deps_of in Hedge.
  apply elem_of_declared_deps in Hedge as (job & Hjob & _ & Hb).
  rewrite buildDependencyGraph_dom. apply elem_of_list_to_set. by eapply Hdeps.
Qed.

Lemma executeStage_recorded ord pm ctx stage options tr st :
  (∀ k, range_of (buildDependencyGraph (Jobs stage)) (ord k)) →
  executeStage ord pm ctx stage (newStageResult (StageName stage)) options tr = Some st →
  stage_recorded stage (closeStage st).
Proof.
  intros Hord Hrun. pose proof (executeStage_name _ _ _ _ _ _ _ Hrun) as Hname.
  unfold executeStage in Hrun.
  set (g := buildDependencyGraph (Jobs stage)) in *.
  set (sctx := mkContext _ _ _) in *.
  assert (Hwf : graph_wf g) by apply buildDependencyGraph_wf.
  destruct (ExecuteGraph_history _ _ _ _ _ _ _ _ Hwf (λ k, proj1 (Hord k)) Hrun)
    as (rec & unrec & H1 & H2 & H3 & H4 & H5 & H6 & H7).
  simpl in H1. unfold stage_recorded, closeStage. simpl. rewrite H1.
  rewrite map_app in H3. apply NoDup_app in H3 as (Hnd & _ & _).
  assert (Hnames : ∀ r, r ∈ rec → jrName r ∈ map Name (Jobs stage)).
  { intros r Hr.
    assert (jrName r ∈ dom (jobs g) ∖ completed g) as [Hd _]%elem_of_difference
      by (apply H6; set_solver).
    unfold g in Hd. rewrite buildDependencyGraph_dom in Hd.
    by apply elem_of_list_to_set in Hd. }
  split; [done|]. split; [done|]. split; [done|]. split.
  - rewrite <- (length_map jrName), <- (length_map Name).
    apply submseteq_length, NoDup_submseteq; [done|].
    intros x (r & -> & Hr)%list_elem_of_fmap. by apply Hnames.
  - intros Hok%bool_decide_eq_true_1 Hclosed.
    pose proof (stage_closed_deps_registered stage Hclosed) as Hreg. fold g in Hreg.
    assert (Hnc : HasCycles (ord 0) g = Some false).
    { unfold ExecuteGraph, ExecuteGraph_fuel in Hrun.
      destruct (HasCycles (ord 0) g) as [[]|]; [|done|done].
      injection Hrun as <-. done. }
    pose proof (acyclic_check_ok g (ord 0) Hreg (Hord 0) Hnc) as Hacyc.
    destruct (ExecuteGraph_fuel_spec (size (jobs g)) ord pm sctx g
                (newStageResult (StageName stage)) (DryRun options) tr
                Hwf Hreg Hacyc Hord) as (st' & Hrun' & _ & Hpost); [done|].
    unfold ExecuteGraph in Hrun. rewrite Hrun in Hrun'. injection Hrun' as <-.
    rewrite Hok in Hpost. destruct Hpost as [_ Hall].
    apply NoDup_Permutation; [done|apply Hclosed|].
    intros x. split.
    + intros (r & -> & Hr)%list_elem_of_fmap. by apply Hnames.
    + intros Hx. assert (x ∈ completed (exGraph st)) as Hc.
      { apply Hall. unfold g. rewrite buildDependencyGraph_dom.
        by apply elem_of_list_to_set. }
      rewrite H5 in Hc. unfold g in Hc. rewrite buildDependencyGraph_completed in Hc.
      apply elem_of_union in Hc as [Hc|Hc]; [set_solver|].
      apply elem_of_list_to_set, list_elem_of_fmap in Hc as (r & -> & Hr).
      apply list_elem_of_fmap. exists r. split; [done|].
      by apply list_elem_of_filter in Hr as [_ ?].
Qed.

Lemma stages_loop_recorded ord rord pm execCtx plan options : ∀ stages i result tr out,
  (∀ j stage, stages !! j = Some stage →
     ∀ k, range_of (buildDependencyGraph (Jobs stage)) (ord (i + j) k)) →
  stages_loop ord rord pm execCtx plan options i stages result tr = Some out →
  ∃ pre new, pre `prefix_of` stages ∧ (poErr out = None → pre = stages) ∧
    erStages (poResult out) = erStages result ++ new ∧
    Forall2 stage_recorded pre new.
Proof.
  induction stages as [|stage rest IH]; intros i result tr out Hord Hrun.
  - simpl in Hrun. injection Hrun as <-. exists [], []. simpl.
    rewrite app_nil_r. repeat (split; [done|]). constructor.
  - destruct (executeStage_total (ord i) pm execCtx stage
                (newStageResult (StageName stage)) options tr) as [st Hst].
    assert (Hrec : stage_recorded stage (closeStage st)).
    { apply (executeStage_recorded (ord i) pm execCtx stage options tr st); [|done].
      intros k. specialize (Hord 0 stage eq_refl k). by rewrite Nat.add_0_r in Hord. }
    destruct (exErr st) as [cause|] eqn:Herr.
    + rewrite (stages_loop_fail_step _ _ _ _ _ _ _ _ _ _ _ st cause Hst Herr) in Hrun.
      destruct (match AutoRollback options, Rollback_ plan with
                | true, Some rollback =>
                    executeRollback rord pm execCtx rollback (exTrace st)
                | _, _ => Some (exTrace st)
                end) as [tr'|]; [|done].
      injection Hrun as <-. exists [stage], [closeStage st]. simpl.
      split; [by exists rest|]. split; [done|]. split; [done|].
      constructor; [done|constructor].
    + rewrite (stages_loop_ok_step _ _ _ _ _ _ _ _ _ _ _ st Hst Herr) in Hrun.
      apply IH in Hrun as (pre & new & Hp & He & Hs & Hall).
      * exists (stage :: pre), (closeStage st :: new).
        split; [by apply prefix_cons|]. split; [intros Hn; by rewrite (He Hn)|].
        split; [rewrite Hs; simpl; by rewrite <- app_assoc|]. by constructor.
      * intros j s Hj k. specialize (Hord (S j) s Hj k).
        by replace (i + S j) with (S i + j) in Hord by lia.
Qed.

Lemma stages_recorded_length pre new :
  Forall2 stage_recorded pre new →
  length (concat (map srJobs new)) ≤ length (concat (map Jobs pre)) ∧
  (Forall stage_succeeded new → Forall stage_closed pre →
   length (concat (map srJobs new)) = length (concat (map Jobs pre))).
Proof.
  induction 1 as [|stage sr pre new (_ & _ & _ & Hlen & Hperm) _ [IH1 IH2]];
    [done|].
  simpl. rewrite !length_app. split; [lia|].
  intros [[Hok _] Hnew]%Forall_cons [Hc Hpre]%Forall_cons.
  rewrite (IH2 Hnew Hpre). f_equal.
  rewrite <- (length_map jrName), <- (length_map Name). by rewrite (Hperm Hok Hc).
Qed.

(** X12. When the map ranges yield each job name of a stage once,
    ExecutePlan records for each stage it ran (a prefix of the plan's
    stages, all of them when no error is returned) results with distinct
    job names that are names of jobs of that stage; so the completed and
    failed counters together never exceed the total job count.  If no
    error is returned and the jobs of every stage have distinct names
    and depend only on jobs of their stage, every job of every stage has
    exactly one result and the completed counter equals the total. *)
Theorem recorded_jobs_are_stage_jobs
    (ord rord : nat → nat → list string) (pm : Manager) (id : string)
    (ctx : Context) (plan : Plan) (options : ExecuteOptions) (out : PlanOutcome) :
  plan_orders plan ord →
  ExecutePlan ord rord pm id ctx plan options = Some out →
  (∃ pre, pre `prefix_of` Stages plan ∧ (poErr out = None → pre = Stages plan) ∧
          Forall2 stage_recorded pre (erStages (poResult out))) ∧
  erCompletedJobs (poResult out) + erFailedJobs (poResult out)
    ≤ erTotalJobs (poResult out) ∧
  (poErr out = None → Forall stage_closed (Stages plan) →
   erCompletedJobs (poResult out) = erTotalJobs (poResult out) ∧
   erFailedJobs (poResult out) = 0).
Proof.
  intros Hord Hrun. unfold ExecutePlan in Hrun.
  destruct (stages_loop_shape ord rord pm
              {| executionID := Some id; variables := Some (Variables plan);
                 stageName := stageName ctx |} plan options (Stages plan) 0
              {| erID := id; erSuccess := false;
                 erTotalStages := length (Stages plan);
                 erTotalJobs := countTotalJobs plan;
                 erCompletedJobs := 0; erFailedJobs := 0; erStages := [] |} [])
    as (out' & Hrun' & _ & _ & H3 & _ & H5 & H6 & H7).
  rewrite Hrun in Hrun'. injection Hrun' as <-.
  apply stages_loop_recorded in Hrun as (pre & new & Hp & He & Hs & Hall);
    [|intros j stage Hj k; by apply (Hord j stage)].
  simpl in *. subst new.
  destruct (stages_recorded_length _ _ Hall) as [Hle Heq].
  pose proof (countJobs_sum (erStages (poResult out))) as Hsum.
  assert (Hpre : length (concat (map Jobs pre)) ≤ length (concat (map Jobs (Stages plan)))).
  { destruct Hp as [more ->]. rewrite map_app, concat_app, length_app. lia. }
  rewrite H3, countTotalJobs_length.
  split; [by exists pre|]. split; [lia|].
  intros Hnone Hclosed. rewrite Hnone in H7. destruct H7 as (new & Hn & _ & Hok).
  simpl in Hn. subst new. rewrite (He Hnone) in Heq.
  destruct (countJobs_succeeded _ Hok) as [H0 H1].
  specialize (Heq Hok Hclosed). lia.
Qed.

Lemma declared_order_valid plan :
  Forall (λ stage, NoDup (map Name (Jobs stage))) (Stages plan) →
  plan_orders plan (forward_order plan).
Proof.
  intros Hall i stage Hs k. unfold forward_order, declared_order. rewrite Hs.
  split; [by eapply (Forall_lookup_1 _ _ _ _ Hall)|].
  intros name. by rewrite buildDependencyGraph_dom, elem_of_list_to_set.
Qed.

Lemma recorded_jobs_are_stage_jobs_witness :
  plan_orders plan_demo (forward_order plan_demo) ∧
  ∃ out, run_sample "run-1" plan_demo options_rollback = Some out ∧
    (∃ pre, pre `prefix_of` Stages plan_demo ∧
            (poErr out = None → pre = Stages plan_demo) ∧
            Forall2 stage_recorded pre (erStages (poResult out))) ∧
    erCompletedJobs (poResult out) + erFailedJobs (poResult out)
      ≤ erTotalJobs (poResult out) ∧
    (poErr out = None → Forall stage_closed (Stages plan_demo) →
     erCompletedJobs (poResult out) = erTotalJobs (poResult out) ∧
     erFailedJobs (poResult out) = 0).
Proof.
  assert (H1 : plan_orders plan_demo (forward_order plan_demo)).
  { apply declared_order_valid.
    apply (bool_decide_eq_true
             (Forall (λ stage, NoDup (map Name (Jobs stage))) (Stages plan_demo))).
    vm_compute; reflexivity. }
  split; [exact H1|]. eexists. split; [vm_compute; reflexivity|].
  apply (recorded_jobs_are_stage_jobs (forward_order plan_demo)
           (rollback_order plan_demo) pm_demo "run-1" background plan_demo
           options_rollback _ H1).
  vm_compute; reflexivity.
Defined.

(* --------------------------------------------------------------------- *)
(** ** When the rollback stages run *)
(* --------------------------------------------------------------------- *)

Lemma stages_loop_no_rollback ord rord rord' pm execCtx plan options :
  ∀ stages i result tr out,
    stages_loop ord rord pm execCtx plan options i stages result tr = Some out →
    poErr out = None ∨ AutoRollback options = false ∨ Rollback_ plan = None →
    stages_loop ord rord' pm execCtx (withRollback None plan)
      (withAutoRollback false options) i stages result tr = Some out.
Proof.
  induction stages as [|stage rest IH]; intros i result tr out Hrun Hcase; [done|].
  destruct (executeStage_total (ord i) pm execCtx stage
              (newStageResult (StageName stage)) options tr) as [st Hst].
  assert (Hst' : executeStage (ord i) pm execCtx stage
                   (newStageResult (StageName stage))
                   (withAutoRollback false options) tr = Some st) by exact Hst.
  destruct (exErr st) as [cause|] eqn:Herr.
  - rewrite (stages_loop_fail_step _ _ _ _ _ _ _ _ _ _ _ st cause Hst Herr) in Hrun.
    rewrite (stages_loop_fail_step _ _ _ _ _ _ _ _ _ _ _ st cause Hst' Herr).
    simpl. destruct Hcase as [Hnone|[Hno|Hno]].
    + destruct (match AutoRollback options, Rollback_ plan with
                | true, Some rollback =>
                    executeRollback rord pm execCtx rollback (exTrace st)
                | _, _ => Some (exTrace st)
                end) as [tr'|]; [|done].
      injection Hrun as <-. done.
    + by rewrite Hno in Hrun.
    + rewrite Hno in Hrun. by destruct (AutoRollback options).
  - rewrite (stages_loop_ok_step _ _ _ _ _ _ _ _ _ _ _ st Hst Herr) in Hrun.
    rewrite (stages_loop_ok_step _ _ _ _ _ _ _ _ _ _ _ st Hst' Herr).
    by apply IH.
Qed.

(** X13. The rollback stages run only after a forward stage failed with
    AutoRollback set and a Rollback section present: when ExecutePlan
    returns no error, or AutoRollback is off, or the plan has no Rollback
    section, what it returns and every handler call it makes are those of
    the same plan without Rollback section run with AutoRollback off. *)
Theorem rollback_only_after_failure
    (ord rord rord' : nat → nat → list string) (pm : Manager) (id : string)
    (ctx : Context) (plan : Plan) (options : ExecuteOptions) (out : PlanOutcome) :
  ExecutePlan ord rord pm id ctx plan options = Some out →
  poErr out = None ∨ AutoRollback options = false ∨ Rollback_ plan = None →
  ExecutePlan ord rord' pm id ctx (withRollback None plan)
    (withAutoRollback false options) = Some out.
Proof.
  intros Hrun Hcase. unfold ExecutePlan in *.
  by apply (stages_loop_no_rollback ord rord rord' pm _ plan options).
Qed.

Lemma rollback_only_after_failure_witness :
  ∃ out, run_sample "run-1" plan_demo options_plain = Some out ∧
    (poErr out = None ∨ AutoRollback options_plain = false ∨ Rollback_ plan_demo = None) ∧
    ExecutePlan (forward_order plan_demo) (declared_order []) pm_demo "run-1" background
      (withRollback None plan_demo) (withAutoRollback false options_plain) = Some out.
Proof.
  eexists. split; [vm_compute; reflexivity|].
  split; [right; left; reflexivity|].
  apply (rollback_only_after_failure (forward_order plan_demo)
           (rollback_order plan_demo) (declared_order []) pm_demo "run-1" background
           plan_demo options_plain).
  - vm_compute; reflexivity.
  - right; left; reflexivity.
Defined.

(* --------------------------------------------------------------------- *)
(** ** The validator's cycle check *)
(* --------------------------------------------------------------------- *)

Section check_circular.
Context (jobs : list Job).
Hypothesis Hdecl : jobs_declared jobs.

#[local] Notation check_inv := (check_inv jobs).
#[local] Notation stack_above := (stack_above jobs).
#[local] Notation check_error := (check_error jobs).
#[local] Notation rec_ok := (rec_ok jobs).

Lemma same_name a b ja jb :
  jobs !! a = Some ja → jobs !! b = Some jb → Name ja = Name jb → a = b.
Proof.
  intros Ha Hb Hn. destruct Hdecl as [Hnd _].
  apply (NoDup_lookup (map Name jobs) a b (Name ja)); [done| |].
  - by rewrite list_lookup_fmap, Ha.
  - by rewrite list_lookup_fmap, Hb, Hn.
Qed.

Lemma dep_index k job d :
  jobs !! k = Some job → d ∈ DependsOn job →
  ∃ k' j', k' ≤ k ∧ jobs !! k' = Some j' ∧ Name j' = d.
Proof.
  intros Hk Hd. destruct Hdecl as [_ Hdeps].
  destruct (Hdeps k job Hk) as (_ & _ & Hin). specialize (Hin d Hd).
  apply list_elem_of_fmap in Hin as (j' & -> & Hj').
  apply list_elem_of_lookup in Hj' as [k' Hk'].
  apply lookup_take_Some in Hk' as [Hk' Hlt]. exists k', j'. split; [lia|done].
Qed.

Lemma check_named_spec rec bound k d : rec_ok rec bound → k < bound →
  ∀ js s, (∀ j, j ∈ js → Name j = d → jobs !! k = Some j) →
    check_inv s → stack_above s.2 k →
    ∃ r, check_named rec d js s = Some r ∧
      match r with
      | inl err => check_error err
      | inr s' => check_inv s' ∧ s'.2 = s.2 ∧ s.1 ⊆ s'.1
      end.
Proof.
  intros Hrec Hk. induction js as [|j rest IH]; intros s Hjs Hinv Habove; simpl.
  - exists (inr s). by split.
  - destruct (String.eqb_spec (Name j) d) as [Hd|Hd].
    + destruct (Hrec k j s) as (r & -> & Hr); [apply Hjs; [left|done]|done..|].
      destruct r as [err|s']; [by exists (inl err)|].
      destruct Hr as (Hinv' & Hs & Hv & _).
      destruct (IH s') as (r & -> & Hr); [intros; apply Hjs; [by right|done]|done| |].
      { by rewrite Hs. }
      exists r. split; [done|]. destruct r as [err|s'']; [done|].
      destruct Hr as (? & ? & ?). split; [done|]. split; [congruence|set_solver].
    + apply IH; [|done..]. intros j' Hj'. apply Hjs. by right.
Qed.

Lemma check_deps_spec rec k job : rec_ok rec k → jobs !! k = Some job →
  ∀ deps s, (∀ d, d ∈ deps → d ∈ DependsOn job) →
    check_inv s → stack_above (s.2 ∖ {[Name job]}) k → Name job ∈ s.2 →
    ∃ r, check_deps rec jobs (Name job) deps s = Some r ∧
      match r with
      | inl err => check_error err
      | inr s' => check_inv s' ∧ s'.2 = s.2 ∧ s.1 ⊆ s'.1 ∧ Name job ∉ deps
      end.
Proof.
  intros Hrec Hjob. induction deps as [|d rest IH]; intros s Hdeps Hinv Habove Hself; simpl.
  - exists (inr s). split; [done|]. split; [done|]. split; [done|]. split; [done|].
    by intros ?%elem_of_nil.
  - assert (Hd : d ∈ DependsOn job) by (apply Hdeps; left).
    assert (Hrest : ∀ d', d' ∈ rest → d' ∈ DependsOn job) by (intros; apply Hdeps; by right).
    destruct (dep_index k job d Hjob Hd) as (k' & j' & Hle & Hk' & Hname).
    destruct Hinv as [Hsub Hdone].
    case_bool_decide as Hvis.
    + (* not visited: descend *)
      assert (d ≠ Name job) as Hne by (intros ->; set_solver).
      assert (k' < k) as Hlt.
      { destruct (decide (k' = k)) as [->|]; [|lia]. congruence. }
      destruct (check_named_spec rec k k' d Hrec Hlt jobs s) as (r & -> & Hr).
      * intros j Hj Hn. apply list_elem_of_lookup in Hj as [i Hi].
        assert (i = k') as -> by (eapply same_name; [done..|congruence]). done.
      * done.
      * intros i ji Hi Hin. destruct (decide (Name ji = Name job)) as [Heq|Hneq].
        -- assert (i = k) as -> by (by eapply same_name). done.
        -- etrans; [exact Hlt|]. apply (Habove i ji Hi). set_solver.
      * destruct r as [err|s']; [by exists (inl err)|].
        destruct Hr as (Hinv' & Hs & Hv).
        destruct (IH s' Hrest Hinv') as (r & -> & Hr); [by rewrite Hs..|].
        exists r. split; [done|]. destruct r as [err|s'']; [done|].
        destruct Hr as (? & ? & ? & ?). split; [done|]. split; [congruence|].
        split; [set_solver|]. by apply not_elem_of_cons.
    + case_bool_decide as Hstack.
      * (* on the stack: the job itself *)
        assert (d = Name job) as ->.
        { destruct (decide (d = Name job)) as [|Hne]; [done|]. exfalso.
          assert (k < k'); [|lia]. apply (Habove k' j' Hk'). set_solver. }
        eexists. split; [done|]. exists job.
        split; [by eapply list_elem_of_lookup_2|]. by split.
      * destruct (IH s Hrest) as (r & -> & Hr); [done..|].
        exists r. split; [done|]. destruct r as [err|s']; [done|].
        destruct Hr as (? & ? & ? & ?). repeat (split; [done|]).
        apply not_elem_of_cons. split; [|done]. intros Heq. by rewrite Heq in Hself.
Qed.

Lemma checkDeps_spec : ∀ fuel, rec_ok (checkDeps fuel jobs) fuel.
Proof.
  induction fuel as [|f IH]; intros k job s Hjob Hk Hinv Habove; [lia|].
  assert (Hfresh : Name job ∉ s.2).
  { intros Hin. specialize (Habove k job Hjob Hin). lia. }
  destruct Hinv as [Hsub Hdone]. cbn [checkDeps].
  set (s0 := ({[Name job]} ∪ s.1, {[Name job]} ∪ s.2)).
  assert (Hrec : rec_ok (checkDeps f jobs) k).
  { intros k' j' s' ? ? ? ?. apply (IH k' j' s'); [done|lia|done..]. }
  destruct (check_deps_spec (checkDeps f jobs) k job Hrec Hjob (DependsOn job) s0)
    as (r & -> & Hr).
  - done.
  - split; [set_solver|]. intros j Hj Hv Hs. apply Hdone; [done|set_solver|set_solver].
  - intros k' j' Hk' Hin. apply (Habove k' j' Hk'). set_solver.
  - set_solver.
  - destruct r as [err|s']; [by exists (inl err)|].
    destruct Hr as ([Hsub' Hdone'] & Hs & Hv & Hno). eexists. split; [done|]. simpl.
    rewrite Hs. simpl. split; [split|].
    + set_solver.
    + intros j Hj Hvis Hnot. destruct (decide (Name j = Name job)) as [Heq|Hne].
      * apply list_elem_of_lookup in Hj as [i Hi].
        assert (i = k) as -> by (by eapply same_name). by simplify_eq.
      * apply Hdone'; [done..|]. rewrite Hs. set_solver.
    + split; [set_solver|]. split; [set_solver|]. set_solver.
Qed.

Lemma check_jobs_spec : ∀ js s,
  js ⊆ jobs → check_inv s → s.2 = ∅ →
  ∃ r, check_jobs (length jobs) jobs js s = Some r ∧
    match r with
    | inl err => check_error err
    | inr s' => check_inv s' ∧ s'.2 = ∅ ∧ s.1 ⊆ s'.1 ∧ ∀ j, j ∈ js → Name j ∈ s'.1
    end.
Proof.
  induction js as [|job rest IH]; intros s Hsub Hinv Hempty; simpl.
  - exists (inr s). repeat (split; [done|]). by intros ? ?%elem_of_nil.
  - assert (Hrest : rest ⊆ jobs) by set_solver.
    case_bool_decide as Hvis.
    + assert (job ∈ jobs) as [k Hk]%list_elem_of_lookup by set_solver.
      destruct (checkDeps_spec (length jobs) k job s Hk) as (r & -> & Hr).
      * by eapply lookup_lt_Some.
      * done.
      * intros k' j' _ Hin. rewrite Hempty in Hin. set_solver.
      * destruct r as [err|s']; [by exists (inl err)|].
        destruct Hr as (Hinv' & Hs & Hv & Hin).
        destruct (IH s' Hrest Hinv') as (r & -> & Hr); [congruence|].
        exists r. split; [done|]. destruct r as [err|s'']; [done|].
        destruct Hr as (? & ? & ? & Hall). repeat (split; [done|]).
        split; [set_solver|]. intros j [->|Hj]%elem_of_cons; [set_solver|by apply Hall].
    + destruct (IH s Hrest Hinv Hempty) as (r & -> & Hr).
      exists r. split; [done|]. destruct r as [err|s']; [done|].
      destruct Hr as (? & ? & ? & Hall). repeat (split; [done|]).
      intros j [->|Hj]%elem_of_cons; [set_solver|by apply Hall].
Qed.

Lemma checkCircularDependencies_spec :
  ∃ r, checkCircularDependencies jobs = Some r ∧
    match r with
    | Some err => check_error err
    | None => no_self_dependency jobs
    end.
Proof.
  unfold checkCircularDependencies.
  destruct (check_jobs_spec jobs (∅, ∅)) as (r & -> & Hr); [done| |done|].
  { split; [done|]. intros j _ Hin. set_solver. }
  destruct r as [err|s']; [by exists (Some err)|].
  exists None. split; [done|]. destruct Hr as ([_ Hdone] & Hs & _ & Hall).
  intros j Hj. apply Hdone; [done|by apply Hall|]. rewrite Hs. set_solver.
Qed.
End check_circular.

(* --------------------------------------------------------------------- *)
(** ** What the validator accepts *)
(* --------------------------------------------------------------------- *)

Lemma validate_deps_spec label stage job names deps :
  validate_deps label stage job names deps = None ↔ ∀ d, d ∈ deps → d ∈ names.
Proof.
  induction deps as [|d rest IH]; simpl.
  - split; [by intros _ d ?%elem_of_nil|done].
  - case_bool_decide as Hd.
    + split; [done|]. intros Hall. destruct Hd. apply Hall. left.
    + rewrite IH. split.
      * intros Hall d' [->|?]%elem_of_cons; [|by apply Hall].
        by destruct (decide (d ∈ names)).
      * intros Hall d' ?. apply Hall. by right.
Qed.

Lemma NoDup_take_iff (l : list string) :
  NoDup l ↔ ∀ i x, l !! i = Some x → x ∉ take i l.
Proof.
  rewrite NoDup_alt. split.
  - intros Hnd i x Hi [j Hj]%list_elem_of_lookup.
    apply lookup_take_Some in Hj as [Hj Hlt]. specialize (Hnd i j x Hi Hj). lia.
  - intros Hno i j x Hi Hj.
    destruct (Nat.lt_trichotomy i j) as [Hlt|[->|Hlt]]; [|done|]; exfalso.
    + apply (Hno j x Hj). apply (list_elem_of_lookup_2 _ i).
      apply lookup_take_Some. by split.
    + apply (Hno i x Hi). apply (list_elem_of_lookup_2 _ j).
      apply lookup_take_Some. by split.
Qed.

Lemma validate_jobs_spec label kind stage : ∀ js pre j seen,
  (∀ x, x ∈ seen ↔ x ∈ map Name pre) →
  validate_jobs label kind stage j seen js = None ↔
  ∀ i job, js !! i = Some job →
    Name job ≠ "" ∧ Type_ job ≠ "" ∧
    Name job ∉ map Name (pre ++ take i js) ∧
    ∀ d, d ∈ DependsOn job → d ∈ map Name (pre ++ take (S i) js).
Proof.
  induction js as [|job rest IH]; intros pre j seen Hseen; simpl.
  - split; [by intros _ i job ?|done].
  - destruct (String.eqb_spec (Name job) "") as [Hname|Hname].
    { split; [done|]. intros Hall. by destruct (Hall 0 job eq_refl). }
    case_bool_decide as Hdup.
    { split; [done|]. intros Hall. destruct (Hall 0 job eq_refl) as (_ & _ & Hno & _).
      destruct Hno. simpl. rewrite app_nil_r. by apply Hseen. }
    destruct (String.eqb_spec (Type_ job) "") as [Htype|Htype].
    { split; [done|]. intros Hall. by destruct (Hall 0 job eq_refl) as (_ & ? & _). }
    assert (Hseen' : ∀ x, x ∈ {[Name job]} ∪ seen ↔ x ∈ map Name (pre ++ [job])).
    { intros x. rewrite map_app, elem_of_app, elem_of_union, Hseen. simpl.
      rewrite list_elem_of_singleton, elem_of_singleton. tauto. }
    destruct (validate_deps label stage (Name job) ({[Name job]} ∪ seen) (DependsOn job))
      as [err|] eqn:Hdeps.
    { split; [done|]. intros Hall. destruct (Hall 0 job eq_refl) as (_ & _ & _ & Hd).
      assert (validate_deps label stage (Name job) ({[Name job]} ∪ seen) (DependsOn job)
              = None); [|congruence].
      apply validate_deps_spec. intros d Hin. apply Hseen'. by apply Hd. }
    rewrite validate_deps_spec in Hdeps.
    rewrite (IH (pre ++ [job]) (S j) _ Hseen'). split.
    + intros Hall [|i] job' Hi; simpl in Hi.
      * injection Hi as <-. split; [done|]. split; [done|]. split.
        -- simpl. rewrite app_nil_r. by rewrite <- Hseen.
        -- intros d Hd. apply Hseen'. by apply Hdeps.
      * destruct (Hall i job' Hi) as (? & ? & Hno & Hd).
        rewrite <- app_assoc in Hno. split; [done|]. split; [done|]. split; [done|].
        intros d Hin. specialize (Hd d Hin). by rewrite <- app_assoc in Hd.
    + intros Hall i job' Hi. destruct (Hall (S i) job' Hi) as (? & ? & Hno & Hd).
      rewrite <- app_assoc. split; [done|]. split; [done|]. split; [done|].
      intros d Hin. specialize (Hd d Hin). by rewrite <- app_assoc.
Qed.

Lemma validate_jobs_declared label kind stage js :
  validate_jobs label kind stage 0 ∅ js = None ↔ jobs_declared js.
Proof.
  rewrite (validate_jobs_spec label kind stage js [] 0 ∅) by set_solver.
  unfold jobs_declared. rewrite NoDup_take_iff. simpl. split.
  - intros Hall. split.
    + intros i x Hi. rewrite list_lookup_fmap in Hi.
      destruct (js !! i) as [job|] eqn:Hjob; [|done]. injection Hi as <-.
      destruct (Hall i job Hjob) as (_ & _ & Hno & _). by rewrite <- fmap_take.
    + intros k job Hk. by destruct (Hall k job Hk) as (? & ? & _ & ?).
  - intros [Hnd Hall] i job Hi. destruct (Hall i job Hi) as (? & ? & ?).
    split; [done|]. split; [done|]. split; [|done].
    rewrite fmap_take. apply Hnd. by rewrite list_lookup_fmap, Hi.
Qed.

Lemma length_zero_iff {A} (l : list A) : (length l =? 0) = true ↔ l = [].
Proof. destruct l; simpl; split; done. Qed.

Lemma validate_stages_spec : ∀ stages i seen,
  ∃ r, validate_stages i seen stages = Some r ∧
    (r = None ↔
     Forall valid_stage stages ∧ NoDup (map StageName stages) ∧
     ∀ stage, stage ∈ stages → StageName stage ∉ seen).
Proof.
  induction stages as [|stage rest IH]; intros i seen; simpl.
  - exists None. split; [done|]. split; [|done]. intros _.
    split; [constructor|]. split; [constructor|]. by intros ? ?%elem_of_nil.
  - destruct (String.eqb_spec (StageName stage) "") as [Hname|Hname].
    { eexists. split; [done|]. split; [done|].
      intros [[[? _] _]%Forall_cons _]. done. }
    case_bool_decide as Hdup.
    { eexists. split; [done|]. split; [done|]. intros (_ & _ & Hno).
      destruct (Hno stage); [left|done]. }
    destruct (length (Jobs stage) =? 0) eqn:Hlen.
    { eexists. split; [done|]. split; [done|].
      intros [[(_ & Hne & _) _]%Forall_cons _]. by apply length_zero_iff in Hlen. }
    assert (Hjobs : Jobs stage ≠ []).
    { intros Hnil%length_zero_iff. congruence. }
    destruct (validate_jobs "stage[" "stage " (StageName stage) 0 ∅ (Jobs stage))
      as [err|] eqn:Hv.
    { eexists. split; [done|]. split; [done|].
      intros [[(_ & _ & Hd & _) _]%Forall_cons _].
      apply (validate_jobs_declared "stage[" "stage " (StageName stage)) in Hd.
      congruence. }
    apply validate_jobs_declared in Hv.
    destruct (checkCircularDependencies_spec (Jobs stage) Hv) as (c & -> & Hc).
    destruct c as [err|].
    { eexists. split; [done|]. split; [done|].
      intros [[(_ & _ & _ & Hself) _]%Forall_cons _].
      destruct Hc as (j & Hj & Hin & _). by destruct (Hself j Hj). }
    destruct (IH (S i) ({[StageName stage]} ∪ seen)) as (r & -> & Hr).
    exists r. split; [done|]. rewrite Hr. rewrite Forall_cons, NoDup_cons. split.
    + intros (Hall & Hnd & Hno). split; [done|]. split.
      * split; [|done]. intros (s & Heq & Hs)%list_elem_of_fmap.
        apply (Hno s Hs). rewrite <- Heq. set_solver.
      * intros s [->|Hs]%elem_of_cons; [done|]. specialize (Hno s Hs). set_solver.
    + intros ([_ Hall] & [Hfresh Hnd] & Hno). split; [done|]. split; [done|].
      intros s Hs [Heq%elem_of_singleton|Hin]%elem_of_union.
      * apply Hfresh. apply list_elem_of_fmap. by exists s.
      * apply (Hno s); [by right|done].
Qed.

Lemma validate_rollback_stages_spec : ∀ stages i,
  validate_rollback_stages i stages = None ↔ Forall valid_rollback_stage stages.
Proof.
  induction stages as [|stage rest IH]; intros i; simpl.
  - split; [constructor|done].
  - rewrite Forall_cons. unfold valid_rollback_stage at 1.
    destruct (String.eqb_spec (StageName stage) "") as [Hname|Hname].
    { split; [done|]. by intros [[? _] _]. }
    destruct (length (Jobs stage) =? 0) eqn:Hlen.
    { split; [done|]. intros [(_ & Hne & _) _]. by apply length_zero_iff in Hlen. }
    assert (Hjobs : Jobs stage ≠ []).
    { intros Hnil%length_zero_iff. congruence. }
    destruct (validate_jobs "rollback.stage[" "rollback stage " (StageName stage) 0 ∅
                (Jobs stage)) as [err|] eqn:Hv.
    { split; [done|]. intros [(_ & _ & Hd) _].
      apply (validate_jobs_declared "rollback.stage[" "rollback stage "
               (StageName stage)) in Hd. congruence. }
    apply validate_jobs_declared in Hv. rewrite IH. tauto.
Qed.

Lemma ValidatePlan_spec (plan : option PlanDoc) :
  ∃ r, ValidatePlan plan = Some r ∧ (r = None ↔ valid_plan plan).
Proof.
  unfold ValidatePlan, valid_plan. destruct plan as [doc|].
  2: { eexists. split; [done|]. split; [done|]. by intros (? & ? & _). }
  destruct (String.eqb_spec (APIVersion doc) "") as [H1|H1].
  { eexists. split; [done|]. split; [done|]. intros (? & [= <-] & ? & _). done. }
  destruct (String.eqb_spec (Kind doc) "") as [H2|H2].
  { eexists. split; [done|]. split; [done|]. intros (? & [= <-] & _ & ? & _). done. }
  destruct (String.eqb_spec (MetaName (Metadata_ doc)) "") as [H3|H3].
  { eexists. split; [done|]. split; [done|].
    intros (? & [= <-] & _ & _ & ? & _). done. }
  destruct (length (Stages (Body doc)) =? 0) eqn:H4.
  { eexists. split; [done|]. split; [done|].
    intros (? & [= <-] & _ & _ & _ & ? & _). by apply length_zero_iff in H4. }
  assert (H4' : Stages (Body doc) ≠ []).
  { intros Hnil%length_zero_iff. congruence. }
  destruct (validate_stages_spec (Stages (Body doc)) 0 ∅) as (r & -> & Hr).
  destruct r as [err|].
  { eexists. split; [done|]. split; [done|].
    intros (? & [= <-] & _ & _ & _ & _ & Hnd & Hall & _).
    assert (Some err = None) as Habs; [|done]. apply Hr. set_solver. }
  assert (Hstages : Forall valid_stage (Stages (Body doc)) ∧
                    NoDup (map StageName (Stages (Body doc)))).
  { destruct Hr as [Hr _]. destruct (Hr eq_refl) as (? & ? & _). done. }
  destruct Hstages as [Hall Hnd].
  destruct (Rollback_ (Body doc)) as [rb|] eqn:Hrb.
  2: { exists None. split; [done|]. split; [|done]. intros _. exists doc.
       by rewrite Hrb. }
  destruct (length (RollbackStages rb) =? 0) eqn:H5.
  { eexists. split; [done|]. split; [done|].
    intros (? & [= <-] & _ & _ & _ & _ & _ & _ & Hvalid). rewrite Hrb in Hvalid.
    destruct Hvalid as [? _]. by apply length_zero_iff in H5. }
  assert (H5' : RollbackStages rb ≠ []).
  { intros Hnil%length_zero_iff. congruence. }
  eexists. split; [done|]. rewrite validate_rollback_stages_spec. split.
  - intros Hvalid. exists doc. by rewrite Hrb.
  - intros (? & [= <-] & _ & _ & _ & _ & _ & _ & Hvalid). rewrite Hrb in Hvalid.
    by destruct Hvalid.
Qed.

(** X14. ValidatePlan always returns, and it accepts exactly the plans
    that are not nil, have an apiVersion, a kind, a metadata name and at
    least one stage, whose stages have distinct non-empty names and at
    least one job each, the jobs of a stage having distinct non-empty
    names, a type, and dependencies only on jobs declared before them;
    and whose rollback section, if present, has at least one stage, each
    with a name and at least one job, the jobs of a rollback stage having
    distinct non-empty names, a type, and dependencies only on jobs
    declared no later than themselves. *)
Theorem ValidatePlan_accepts_iff (plan : option PlanDoc) :
  ∃ r, ValidatePlan plan = Some r ∧ (r = None ↔ valid_plan plan).
Proof. apply ValidatePlan_spec. Qed.

(* --------------------------------------------------------------------- *)
(** ** The validator and the engine *)
(* --------------------------------------------------------------------- *)

Lemma jobs_declared_closed js : jobs_declared js →
  NoDup (map Name js) ∧
  ∀ job d, job ∈ js → d ∈ DependsOn job → d ∈ map Name js.
Proof.
  intros [Hnd Hall]. split; [done|]. intros job d [k Hk]%list_elem_of_lookup Hd.
  destruct (Hall k job Hk) as (_ & _ & Hin). specialize (Hin d Hd).
  apply list_elem_of_fmap in Hin as (j' & -> & Hj'). apply list_elem_of_fmap.
  exists j'. split; [done|]. apply list_elem_of_lookup in Hj' as [i Hi].
  apply lookup_take_Some in Hi as [Hi _]. by eapply list_elem_of_lookup_2.
Qed.

Lemma jobs_declared_registered js :
  jobs_declared js → deps_registered (buildDependencyGraph js).
Proof.
  intros [_ Hclosed]%jobs_declared_closed a b Hedge. unfold edge in Hedge.
  rewrite buildDependencyGraph_deps_of in Hedge.
  apply elem_of_declared_deps in Hedge as (job & Hjob & _ & Hb).
  rewrite buildDependencyGraph_dom. apply elem_of_list_to_set. by eapply Hclosed.
Qed.

Lemma declared_edges_go_back js :
  jobs_declared js → no_self_dependency js →
  ∀ x y, tc (edge (buildDependencyGraph js)) x y →
    ∃ i j ji jj, j < i ∧ js !! i = Some ji ∧ Name ji = x ∧
                 js !! j = Some jj ∧ Name jj = y.
Proof.
  intros Hdecl Hself.
  assert (Hbase : ∀ x y, edge (buildDependencyGraph js) x y →
            ∃ i j ji jj, j < i ∧ js !! i = Some ji ∧ Name ji = x ∧
                         js !! j = Some jj ∧ Name jj = y).
  { intros x y Hedge. unfold edge in Hedge.
    rewrite buildDependencyGraph_deps_of in Hedge.
    apply elem_of_declared_deps in Hedge as (job & Hjob & Hx & Hy).
    pose proof Hjob as [i Hi]%list_elem_of_lookup.
    destruct (dep_index js Hdecl i job y Hi Hy) as (j & jj & Hle & Hj & Hn).
    exists i, j, job, jj. split; [|done].
    destruct (decide (j = i)) as [->|]; [|lia].
    assert (jj = job) as -> by congruence. exfalso. apply (Hself job Hjob).
    by rewrite Hn. }
  intros x y Htc. induction Htc as [x y Hxy|x y z Hxy _ IH]; [by apply Hbase|].
  destruct (Hbase x y Hxy) as (i1 & j1 & a1 & b1 & Hlt1 & Hi1 & Ha1 & Hj1 & Hb1).
  destruct IH as (i2 & j2 & a2 & b2 & Hlt2 & Hi2 & Ha2 & Hj2 & Hb2).
  assert (j1 = i2) as -> by (eapply (same_name js Hdecl); [done..|congruence]).
  exists i1, j2, a1, b2. split; [lia|done].
Qed.

Lemma declared_cyclic_iff js :
  jobs_declared js →
  cyclic (buildDependencyGraph js) ↔ ∃ job, job ∈ js ∧ Name job ∈ DependsOn job.
Proof.
  intros Hdecl. split.
  - intros [x Hx].
    destruct (decide (Exists (λ job, Name job ∈ DependsOn job) js)) as [Hex|Hno].
    { apply Exists_exists in Hex as (job & Hjob & Hself). by exists job. }
    exfalso. assert (Hself : no_self_dependency js).
    { intros job Hjob Hin. apply Hno, Exists_exists. by exists job. }
    destruct (declared_edges_go_back js Hdecl Hself x x Hx)
      as (i & j & ji & jj & Hlt & Hi & Hni & Hj & Hnj).
    assert (i = j); [|lia]. eapply (same_name js Hdecl); [done..|congruence].
  - intros (job & Hjob & Hself). exists (Name job). apply tc_once. unfold edge.
    rewrite buildDependencyGraph_deps_of. apply elem_of_declared_deps. by exists job.
Qed.

(** X15. On the jobs of a stage that passed the validator's checks of
    its jobs, the validator's cycle check and the executor's cycle check
    agree: checkCircularDependencies returns, and it returns no error
    exactly when HasCycles returns false on the graph built from the
    jobs, that is exactly when the dependencies have no cycle; the error
    it returns names a job that depends on itself, the only cycle such a
    stage can have. *)
Theorem cycle_checks_agree (js : list Job) (keys : list string) :
  jobs_declared js → range_of (buildDependencyGraph js) keys →
  ∃ r, checkCircularDependencies js = Some r ∧
    (r = None ↔ HasCycles keys (buildDependencyGraph js) = Some false) ∧
    (r = None ↔ ¬ cyclic (buildDependencyGraph js)) ∧
    (∀ err, r = Some err →
       ∃ job, job ∈ js ∧ Name job ∈ DependsOn job ∧
              err = self_dependency_error (Name job)).
Proof.
  intros Hdecl Hkeys.
  pose proof (jobs_declared_registered js Hdecl) as Hreg.
  destruct (checkCircularDependencies_spec js Hdecl) as (r & Hrun & Hr).
  exists r. split; [done|].
  assert (Hiff : r = None ↔ ¬ cyclic (buildDependencyGraph js)).
  { rewrite (declared_cyclic_iff js Hdecl). destruct r as [err|].
    - split; [done|]. intros Hno. destruct Hno.
      destruct Hr as (j & ? & ? & _). by exists j.
    - split; [|done]. intros _ (job & Hjob & Hself). by apply (Hr job). }
  split; [|split; [done|]].
  - rewrite Hiff. split; [by apply HasCycles_acyclic|by apply acyclic_check_ok].
  - intros err ->. exact Hr.
Qed.

Lemma cycle_checks_agree_witness :
  jobs_declared jobs_ABC ∧
  range_of (buildDependencyGraph jobs_ABC) ["C"; "B"; "A"] ∧
  ∃ r, checkCircularDependencies jobs_ABC = Some r ∧
    (r = None ↔ HasCycles ["C"; "B"; "A"] (buildDependencyGraph jobs_ABC) = Some false) ∧
    (r = None ↔ ¬ cyclic (buildDependencyGraph jobs_ABC)) ∧
    (∀ err, r = Some err →
       ∃ job, job ∈ jobs_ABC ∧ Name job ∈ DependsOn job ∧
              err = self_dependency_error (Name job)).
Proof.
  assert (H1 : jobs_declared jobs_ABC).
  { apply (validate_jobs_declared "stage[" "stage " "deploy"). vm_compute; reflexivity. }
  assert (H2 : range_of (buildDependencyGraph jobs_ABC) ["C"; "B"; "A"])
    by (apply range_of_check_ok; vm_compute; reflexivity).
  split; [exact H1|]. split; [exact H2|].
  exact (cycle_checks_agree jobs_ABC ["C"; "B"; "A"] H1 H2).
Defined.







(* --------------------------------------------------------------------- *)
(** ** Resolution of configuration trees *)
(* --------------------------------------------------------------------- *)

Lemma Value_nested_ind (P : Value → Prop) :
  P VNil → (∀ b, P (VBool b)) → (∀ n, P (VInt n)) → (∀ r, P (VFloat r)) →
  (∀ s, P (VStr s)) →
  (∀ items, Forall P items → P (VList items)) →
  (∀ entries, Forall (λ kv, P kv.2) entries → P (VMap entries)) →
  ∀ v, P v.
Proof.
  intros Hnil Hbool Hint Hfloat Hstr Hlist Hmap. fix IH 1.
  intros [ |b|n|r|s|items|entries]; [done..| |].
  - apply Hlist. induction items as [|x xs IHxs]; constructor; [apply IH|apply IHxs].
  - apply Hmap. induction entries as [|[k x] xs IHxs]; constructor; [apply IH|apply IHxs].
Qed.

Lemma resolveValue_VMap cfg context :
  resolveValue (VMap cfg) context =
  match ResolveValues cfg context with
  | inr err => inr err
  | inl result => inl (VMap result)
  end.
Proof.
  cbn [resolveValue].
  match goal with
  | |- match ?f cfg with _ => _ end = _ =>
      assert (H : ∀ c, f c = ResolveValues c context); [|by rewrite H]
  end.
  induction c as [|[k v] rest IH]; [done|]. cbn [ResolveValues].
  destruct (resolveValue v context); [|done]. by rewrite IH.
Qed.

Lemma resolveValue_VList slice context :
  resolveValue (VList slice) context =
  match resolveSlice slice context with
  | inr err => inr err
  | inl result => inl (VList result)
  end.
Proof.
  cbn [resolveValue]. unfold resolveSlice.
  match goal with
  | |- match ?f 0 slice with _ => _ end = _ =>
      assert (H : ∀ l i, f i l = resolveSlice_from i l context); [|by rewrite H]
  end.
  induction l as [|v rest IH]; intros i; [done|]. cbn [resolveSlice_from].
  destruct (resolveValue v context); [|done]. by rewrite IH.
Qed.

Lemma resolveString_cases s context :
  resolveString s context =
  if taken_for_reference s then resolvePath (ref_path s) context
  else inl (VStr (ReplaceAllStringFunc s (substitute context))).
Proof.
  unfold resolveString, taken_for_reference.
  destruct (MatchString s && HasPrefix s "${" && HasSuffix s "}"); [|done].
  by destruct (resolvePath (ref_path s) context).
Qed.

Lemma resolveString_no_match s context :
  MatchString s = false → resolveString s context = inl (VStr s).
Proof.
  intros Hno. rewrite resolveString_cases. unfold taken_for_reference. rewrite Hno.
  simpl. unfold ReplaceAllStringFunc, MatchString in *.
  destruct (find_ref s) eqn:Hfind; [done|].
  destruct (String.length s); simpl; by rewrite ?Hfind.
Qed.

Lemma ResolveValues_fails cfg context :
  (∃ err, ResolveValues cfg context = inr err) ↔
  Exists (λ kv, ∃ err, resolveValue kv.2 context = inr err) cfg.
Proof.
  induction cfg as [|[k v] rest IH]; simpl.
  - rewrite Exists_nil. split; [by intros [? ?]|done].
  - rewrite Exists_cons. simpl. destruct (resolveValue v context) as [v'|e].
    + rewrite <- IH. destruct (ResolveValues rest context) as [r|e].
      * split; [by intros [? ?]|]. by intros [[? ?]|[? ?]].
      * split; [intros _; right; by exists e|intros _; by exists e].
    + split; [intros _; left; by exists e|intros _; by eexists].
Qed.

Lemma resolveSlice_from_fails slice context : ∀ i,
  (∃ err, resolveSlice_from i slice context = inr err) ↔
  Exists (λ v, ∃ err, resolveValue v context = inr err) slice.
Proof.
  induction slice as [|v rest IH]; intros i; simpl.
  - rewrite Exists_nil. split; [by intros [? ?]|done].
  - rewrite Exists_cons. destruct (resolveValue v context) as [v'|e].
    + rewrite <- (IH (S i)). destruct (resolveSlice_from (S i) rest context) as [r|e].
      * split; [by intros [? ?]|]. by intros [[? ?]|[? ?]].
      * split; [intros _; right; by exists e|intros _; by exists e].
    + split; [intros _; left; by exists e|intros _; by eexists].
Qed.

Lemma resolveValue_fails_iff context : ∀ v,
  (∃ err, resolveValue v context = inr err) ↔
  ∃ s, s ∈ strings_of v ∧ unresolvable context s.
Proof.
  induction v as [ |b|n|r|s|items IH|entries IH] using Value_nested_ind;
    try (split; [by intros [? ?]|by intros (? & ?%elem_of_nil & _)]).
  - cbn [resolveValue strings_of]. rewrite resolveString_cases. unfold unresolvable.
    split.
    + intros [err Herr]. exists s. split; [left|].
      destruct (taken_for_reference s); [|done]. split; [done|by exists err].
    + intros (s' & ->%list_elem_of_singleton & Ht & err & Herr).
      rewrite Ht. by exists err.
  - rewrite resolveValue_VList. cbn [strings_of]. unfold resolveSlice.
    transitivity (∃ err, resolveSlice_from 0 items context = inr err).
    { destruct (resolveSlice_from 0 items context) as [?|e];
        (split; intros [? ?]; [done || by eexists..]). }
    rewrite resolveSlice_from_fails. rewrite Exists_exists. split.
    + intros (v & Hv & Hfail). rewrite Forall_forall in IH.
      apply (IH v Hv) in Hfail as (s & Hs & Hun). exists s. split; [|done].
      apply list_elem_of_In, in_concat. exists (strings_of v).
      split; [by apply in_map, list_elem_of_In|by apply list_elem_of_In].
    + intros (s & Hs & Hun). apply list_elem_of_In, in_concat in Hs as (l & Hl & Hs).
      apply in_map_iff in Hl as (v & <- & Hv). exists v.
      split; [by apply list_elem_of_In|]. rewrite Forall_forall in IH.
      apply IH; [by apply list_elem_of_In|]. exists s. split; [by apply list_elem_of_In|done].
  - rewrite resolveValue_VMap. cbn [strings_of].
    transitivity (∃ err, ResolveValues entries context = inr err).
    { destruct (ResolveValues entries context) as [?|e];
        (split; intros [? ?]; [done || by eexists..]). }
    rewrite ResolveValues_fails. rewrite Exists_exists. split.
    + intros ([k v] & Hv & Hfail). rewrite Forall_forall in IH.
      apply (IH (k, v) Hv) in Hfail as (s & Hs & Hun). exists s. split; [|done].
      apply list_elem_of_In, in_concat. exists (strings_of v).
      split; [|by apply list_elem_of_In].
      apply in_map_iff. exists (k, v). split; [done|by apply list_elem_of_In].
    + intros (s & Hs & Hun). apply list_elem_of_In, in_concat in Hs as (l & Hl & Hs).
      apply in_map_iff in Hl as ([k v] & <- & Hv). exists (k, v).
      split; [by apply list_elem_of_In|]. rewrite Forall_forall in IH.
      apply (IH (k, v)); [by apply list_elem_of_In|].
      exists s. split; [by apply list_elem_of_In|done].
Qed.

Lemma append_assoc (a b c : string) : (a +:+ b) +:+ c = a +:+ b +:+ c.
Proof.
  induction a as [|x a IH]; [done|].
  change (String x ((a +:+ b) +:+ c) = String x (a +:+ b +:+ c)). by rewrite IH.
Qed.

Lemma resolveSlice_from_error slice context : ∀ i err,
  resolveSlice_from i slice context = inr err →
  ∃ l1 x l2 ex, slice = l1 ++ x :: l2 ∧
    Forall (λ v, ∃ v', resolveValue v context = inl v') l1 ∧
    resolveValue x context = inr ex ∧
    err = "error resolving array item " +:+ pretty (i + length l1) +:+ ": " +:+ ex.
Proof.
  induction slice as [|v rest IH]; intros i err; simpl; [done|].
  destruct (resolveValue v context) as [v'|e] eqn:Hv.
  - destruct (resolveSlice_from (S i) rest context) as [r|e] eqn:Hrest; [done|].
    intros [= <-]. destruct (IH _ _ Hrest) as (l1 & x & l2 & ex & -> & Hl1 & Hx & ->).
    exists (v :: l1), x, l2, ex. split; [done|]. split; [constructor; by eauto|].
    split; [done|]. simpl. by replace (i + S (length l1)) with (S i + length l1) by lia.
  - intros [= <-]. exists [], v, rest, e. split; [done|]. split; [constructor|].
    split; [done|]. simpl. by rewrite Nat.add_0_r.
Qed.

Lemma ResolveValues_error cfg context : ∀ err,
  ResolveValues cfg context = inr err →
  ∃ l1 k x l2 ex, cfg = l1 ++ (k, x) :: l2 ∧
    Forall (λ kv, ∃ v', resolveValue kv.2 context = inl v') l1 ∧
    resolveValue x context = inr ex ∧
    err = "error resolving value for key " +:+ k +:+ ": " +:+ ex.
Proof.
  induction cfg as [|[k v] rest IH]; intros err; simpl; [done|].
  destruct (resolveValue v context) as [v'|e] eqn:Hv.
  - destruct (ResolveValues rest context) as [r|e] eqn:Hrest; [done|].
    intros [= <-]. destruct (IH _ eq_refl) as (l1 & k' & x & l2 & ex & -> & Hl1 & Hx & ->).
    exists ((k, v) :: l1), k', x, l2, ex. split; [done|].
    split; [constructor; by eauto|done].
  - intros [= <-]. exists [], k, v, rest, e. split; [done|]. split; [constructor|done].
Qed.

Lemma resolved_strings context (vs : list Value) :
  Forall (λ v, ∃ v', resolveValue v context = inl v') vs →
  Forall (λ s, ¬ unresolvable context s) (concat (map strings_of vs)).
Proof.
  induction 1 as [|v vs [v' Hv] _ IH]; simpl; [constructor|].
  apply Forall_app. split; [|done]. apply Forall_forall. intros s Hs Hun.
  assert (∃ err, resolveValue v context = inr err) as [err Herr].
  { apply resolveValue_fails_iff. by exists s. }
  congruence.
Qed.

Lemma resolveValue_error context : ∀ v err,
  resolveValue v context = inr err →
  ∃ s e wrap, first_unresolvable context v s ∧
    resolvePath (ref_path s) context = inr e ∧ err = wrap +:+ e.
Proof.
  induction v as [ |b|n|r|s|items IH|entries IH] using Value_nested_ind;
    intros err; try done.
  - cbn [resolveValue]. rewrite resolveString_cases.
    destruct (taken_for_reference s) eqn:Ht; [|done]. intros Herr.
    exists s, err, "". split; [|done]. exists [], []. split; [done|].
    split; [constructor|]. split; [done|by exists err].
  - rewrite resolveValue_VList. unfold resolveSlice.
    destruct (resolveSlice_from 0 items context) as [?|e] eqn:Hrun; [done|].
    intros [= <-].
    destruct (resolveSlice_from_error _ _ _ _ Hrun)
      as (l1 & x & l2 & ex & -> & Hl1 & Hx & ->).
    apply Forall_app in IH as [_ [IHx _]%Forall_cons].
    destruct (IHx ex Hx) as (s & e & wrap & (pre & post & Hs & Hpre & Hun) & He & ->).
    exists s, e. eexists. split; [|split; [done|]].
    + exists (concat (map strings_of l1) ++ pre),
             (post ++ concat (map strings_of l2)).
      cbn [strings_of]. rewrite map_app, concat_app. simpl. rewrite Hs.
      split; [by rewrite <- !app_assoc|]. split; [|done].
      apply Forall_app. split; [by apply resolved_strings|done].
    + by rewrite <- !append_assoc.
  - rewrite resolveValue_VMap.
    destruct (ResolveValues entries context) as [?|e] eqn:Hrun; [done|].
    intros [= <-].
    destruct (ResolveValues_error _ _ _ Hrun)
      as (l1 & k & x & l2 & ex & -> & Hl1 & Hx & ->).
    apply Forall_app in IH as [_ [IHx _]%Forall_cons].
    simpl in IHx.
    destruct (IHx ex Hx) as (s & e & wrap & (pre & post & Hs & Hpre & Hun) & He & ->).
    exists s, e. eexists. split; [|split; [done|]].
    + exists (concat (map strings_of (map snd l1)) ++ pre),
             (post ++ concat (map (λ kv, match kv with (_, y) => strings_of y end) l2)).
      cbn [strings_of]. rewrite map_app, concat_app. simpl. rewrite Hs.
      split.
      * rewrite <- !app_assoc. f_equal. f_equal. rewrite map_map. apply map_ext.
        by intros [? ?].
      * split; [|done]. apply Forall_app. split; [|done]. apply resolved_strings.
        by apply Forall_fmap.
    + by rewrite <- !append_assoc.
Qed.

Lemma resolveValue_identity context : ∀ v,
  (∀ s, s ∈ strings_of v → resolveString s context = inl (VStr s)) →
  resolveValue v context = inl v.
Proof.
  induction v as [ |b|n|r|s|items IH|entries IH] using Value_nested_ind;
    intros Hfree; try done.
  - apply Hfree. left.
  - rewrite resolveValue_VList. unfold resolveSlice. cbn [strings_of] in Hfree.
    assert (H : ∀ i, resolveSlice_from i items context = inl items); [|by rewrite H].
    induction items as [|x xs IHxs]; intros i; [done|].
    apply Forall_cons in IH as [IHx IH]. simpl.
    rewrite IHx, IHxs; [done|done| |].
    + intros s Hs. apply Hfree. simpl. apply elem_of_app. by right.
    + intros s Hs. apply Hfree. simpl. apply elem_of_app. by left.
  - rewrite resolveValue_VMap. cbn [strings_of] in Hfree.
    assert (H : ResolveValues entries context = inl entries); [|by rewrite H].
    induction entries as [|[k x] xs IHxs]; [done|].
    apply Forall_cons in IH as [IHx IH]. simpl in *.
    rewrite IHx, IHxs; [done|done| |].
    + intros s Hs. apply Hfree. apply elem_of_app. by right.
    + intros s Hs. apply Hfree. apply elem_of_app. by left.
Qed.

Lemma resolveValue_structure context : ∀ v v',
  resolveValue v context = inl v' → same_structure v v'.
Proof.
  induction v as [ |b|n|r|s|items IH|entries IH] using Value_nested_ind;
    intros v'; try (by intros [= <-]); [done| |].
  - rewrite resolveValue_VList. unfold resolveSlice.
    destruct (resolveSlice_from 0 items context) as [items'|] eqn:Hrun; [|done].
    intros [= <-]. cbn [same_structure]. revert items' Hrun. generalize 0.
    induction items as [|x xs IHxs]; intros i items'; simpl.
    + by intros [= <-].
    + apply Forall_cons in IH as [IHx IH].
      destruct (resolveValue x context) as [x'|] eqn:Hx; [|done].
      destruct (resolveSlice_from (S i) xs context) as [xs'|] eqn:Hxs; [|done].
      intros [= <-]. split; [by apply IHx|by eapply IHxs].
  - rewrite resolveValue_VMap.
    destruct (ResolveValues entries context) as [entries'|] eqn:Hrun; [|done].
    intros [= <-]. cbn [same_structure]. revert entries' Hrun.
    induction entries as [|[k x] xs IHxs]; intros entries'; simpl.
    + by intros [= <-].
    + apply Forall_cons in IH as [IHx IH]. simpl in IHx.
      destruct (resolveValue x context) as [x'|] eqn:Hx; [|done].
      destruct (ResolveValues xs context) as [xs'|] eqn:Hxs; [|done].
      intros [= <-]. split; [done|]. split; [by apply IHx|by apply IHxs].
Qed.

(** X17. A configuration none of whose strings contains a reference is
    returned unchanged by ResolveValues, whatever the context: nested
    mappings and lists, numbers, booleans and strings are all kept. *)
Theorem reference_free_config_unchanged (config context : Config) :
  (∀ s, s ∈ strings_of (VMap config) → MatchString s = false) →
  ResolveValues config context = inl config.
Proof.
  intros Hfree.
  assert (H : resolveValue (VMap config) context = inl (VMap config)).
  { apply resolveValue_identity. intros s Hs. by apply resolveString_no_match, Hfree. }
  rewrite resolveValue_VMap in H.
  destruct (ResolveValues config context); by simplify_eq.
Qed.

Lemma reference_free_config_unchanged_witness :
  (∀ s, s ∈ strings_of (VMap config_plain) → MatchString s = false) ∧
  ResolveValues config_plain (Variables plan_vars) = inl config_plain.
Proof.
  assert (H : ∀ s, s ∈ strings_of (VMap config_plain) → MatchString s = false).
  { apply Forall_forall.
    apply (bool_decide_eq_true
             (Forall (λ s, MatchString s = false) (strings_of (VMap config_plain)))).
    vm_compute; reflexivity. }
  split; [exact H|].
  exact (reference_free_config_unchanged config_plain (Variables plan_vars) H).
Defined.


Lemma same_structure_keys (m m' : Config) :
  same_structure (VMap m) (VMap m') → map fst m' = map fst m.
Proof.
  cbn [same_structure]. revert m'.
  induction m as [|[k x] m IH]; intros [|[k' x'] m']; try done.
  intros (-> & _ & Hrest). simpl. f_equal. by apply IH.
Qed.

(** X19. When the resolution of a configuration value succeeds the
    result has the structure of the value: the same mappings with the
    same keys in the same order, lists of the same lengths, and the same
    numbers, booleans and nils; only strings are replaced.  So
    ResolveValues returns a configuration with the keys of its
    argument. *)
Theorem resolution_keeps_structure (v v' : Value) (context : Config) :
  resolveValue v context = inl v' →
  same_structure v v' ∧
  (∀ config, v = VMap config →
     ∃ config', v' = VMap config' ∧ ResolveValues config context = inl config' ∧
                map fst config' = map fst config).
Proof.
  intros Hres. pose proof (resolveValue_structure context v v' Hres) as Hsame.
  split; [done|]. intros config ->. rewrite resolveValue_VMap in Hres.
  destruct (ResolveValues config context) as [config'|]; [|done].
  injection Hres as <-. exists config'. split; [done|]. split; [done|].
  by apply same_structure_keys.
Qed.

Lemma resolution_keeps_structure_witness :
  resolveValue (VMap config_ref) (Variables plan_vars) = inl (VMap [("port", VInt 8080)]) ∧
  same_structure (VMap config_ref) (VMap [("port", VInt 8080)]) ∧
  (∀ config, VMap config_ref = VMap config →
     ∃ config', VMap [("port", VInt 8080)] = VMap config' ∧
                ResolveValues config (Variables plan_vars) = inl config' ∧
                map fst config' = map fst config).
Proof.
  split; [vm_compute; reflexivity|].
  apply (resolution_keeps_structure (VMap config_ref) (VMap [("port", VInt 8080)])
           (Variables plan_vars)).
  vm_compute; reflexivity.
Defined.

(* --------------------------------------------------------------------- *)
(** ** What the job results record *)
(* --------------------------------------------------------------------- *)

Lemma runJob_by_mode pm dryRun tr ctx job :
  result_by_mode pm dryRun (runJob pm dryRun tr ctx job).1.
Proof.
  unfold result_by_mode, runJob. destruct dryRun; [done|].
  unfold executeJob. rewrite ExecutePlugin_cases.
  destruct (registry pm !! Type_ job) as [plg|] eqn:Hreg; simpl; [|by rewrite Hreg].
  destruct (Validate plg tr ctx (Config_ job)) as [err|] eqn:Hv; simpl.
  { rewrite Hreg. exists tr, ctx, (Config_ job). by rewrite Hv. }
  destruct (Execute plg _ ctx (Config_ job)) as [result|err] eqn:He; simpl.
  - destruct (Success result) eqn:Hs; simpl; rewrite Hreg;
      exists tr, ctx, (Config_ job); by rewrite Hv, He, Hs.
  - rewrite Hreg. exists tr, ctx, (Config_ job). by rewrite Hv, He.
Qed.

Section results_forall.
Context (pm : Manager) (dryRun : bool) (P : JobResult → Prop).
Hypothesis HP : ∀ tr ctx job, P (runJob pm dryRun tr ctx job).1.

Lemma runWave_forall ctx jobs : ∀ tr, Forall P (runWave pm dryRun tr ctx jobs).1.
Proof.
  induction jobs as [|job rest IH]; intros tr; [constructor|].
  rewrite runWave_cons. simpl. constructor; [apply HP|apply IH].
Qed.

Lemma recorded_forall results : Forall P results → Forall P (recorded results).
Proof.
  induction 1 as [|r rest Hr _ IH]; [constructor|].
  destruct (jrSuccess r) eqn:Hs.
  - rewrite recorded_cons_ok by done. by constructor.
  - rewrite recorded_cons_fail by done. by repeat constructor.
Qed.

Lemma waves_forall ord ctx : ∀ fuel k ready g sr tr ws st,
  Forall P (srJobs sr) →
  waves fuel ord k pm dryRun ctx ready g sr tr ws = Some st →
  Forall P (srJobs (exStage st)).
Proof.
  induction fuel as [|f IH]; intros k ready g sr tr ws st Hsr Hrun;
    destruct ready as [|job rest].
  1, 3: simpl in Hrun; injection Hrun as <-; done.
  { done. }
  unroll_wave Hrun.
  assert (Hrec : Forall P (srJobs sr ++
                   recorded (runWave pm dryRun tr ctx (job :: rest)).1)).
  { apply Forall_app. split; [done|]. apply recorded_forall, runWave_forall. }
  destruct (first_failure _) as [bad|].
  - by injection Hrun as <-.
  - by apply IH in Hrun.
Qed.

Lemma executeStage_forall ord ctx stage options tr st :
  DryRun options = dryRun →
  executeStage ord pm ctx stage (newStageResult (StageName stage)) options tr = Some st →
  Forall P (srJobs (closeStage st)).
Proof.
  intros Hdry Hrun. unfold executeStage, ExecuteGraph, ExecuteGraph_fuel in Hrun.
  rewrite Hdry in Hrun. destruct (HasCycles _ _) as [[]|]; [| |done].
  - injection Hrun as <-. constructor.
  - apply waves_forall in Hrun; [done|constructor].
Qed.

Lemma stages_loop_forall ord rord execCtx plan options :
  DryRun options = dryRun →
  ∀ stages i result tr out,
    Forall P (allJobs result) →
    stages_loop ord rord pm execCtx plan options i stages result tr = Some out →
    Forall P (allJobs (poResult out)).
Proof.
  intros Hdry. induction stages as [|stage rest IH]; intros i result tr out Hres Hrun.
  - simpl in Hrun. by injection Hrun as <-.
  - destruct (executeStage_total (ord i) pm execCtx stage
                (newStageResult (StageName stage)) options tr) as [st Hst].
    pose proof (executeStage_forall _ _ _ _ _ _ Hdry Hst) as Hnew.
    assert (Hres' : Forall P (allJobs (appendStage result (closeStage st)))).
    { unfold allJobs, appendStage in *. simpl. rewrite map_app, concat_app. simpl.
      rewrite app_nil_r. by apply Forall_app. }
    destruct (exErr st) as [cause|] eqn:Herr.
    + rewrite (stages_loop_fail_step _ _ _ _ _ _ _ _ _ _ _ st cause Hst Herr) in Hrun.
      destruct (match AutoRollback options, Rollback_ plan with
                | true, Some rollback =>
                    executeRollback rord pm execCtx rollback (exTrace st)
                | _, _ => Some (exTrace st)
                end) as [tr'|]; [|done].
      by injection Hrun as <-.
    + rewrite (stages_loop_ok_step _ _ _ _ _ _ _ _ _ _ _ st Hst Herr) in Hrun.
      by apply IH in Hrun.
Qed.
End results_forall.

(** X20. Every job result in the result of ExecutePlan records exactly
    how its job was run.  In a dry run it is the simulated success.
    Otherwise, for a job whose type has no registered handler it is a
    failure with the message that the plugin was not found; and for a
    job whose type has a handler it is, for some call of that handler,
    the rejection by Validate, the error of Execute, or the success
    flag, message and data Execute returned. *)
Theorem job_results_by_mode
    (ord rord : nat → nat → list string) (pm : Manager) (id : string)
    (ctx : Context) (plan : Plan) (options : ExecuteOptions) (out : PlanOutcome) :
  ExecutePlan ord rord pm id ctx plan options = Some out →
  Forall (result_by_mode pm (DryRun options)) (allJobs (poResult out)).
Proof.
  intros Hrun. unfold ExecutePlan in Hrun.
  eapply (stages_loop_forall pm (DryRun options)); [|done| |exact Hrun].
  - intros tr c job. apply runJob_by_mode.
  - constructor.
Qed.

Lemma job_results_by_mode_witness :
  ∃ out, run_sample "run-1" plan_demo options_rollback = Some out ∧
    Forall (result_by_mode pm_demo (DryRun options_rollback)) (allJobs (poResult out)).
Proof.
  eexists. split; [vm_compute; reflexivity|].
  apply (job_results_by_mode (forward_order plan_demo) (rollback_order plan_demo)
           pm_demo "run-1" background plan_demo options_rollback).
  vm_compute; reflexivity.
Defined.

(* --------------------------------------------------------------------- *)
(** ** Loading a plan *)
(* --------------------------------------------------------------------- *)

Lemma until_close_decompose t : ∀ p r,
  until_close t = Some (p, r) → t = p +:+ String "}" r.
Proof.
  induction t as [|c t IH]; intros p r; simpl; [done|].
  destruct (Ascii.eqb_spec c "}") as [->|_]; [by intros [= <- <-]|].
  destruct (until_close t) as [[p' r']|]; [|done].
  intros [= <- <-]. by rewrite (IH p' r' eq_refl) at 1.
Qed.

Lemma find_ref_decompose s : ∀ pre p r,
  find_ref s = Some (pre, p, r) → s = pre +:+ ("${" +:+ p +:+ "}") +:+ r.
Proof.
  induction s as [|c s IH]; intros pre p r; [done|].
  cbn [find_ref]. destruct (match_here (String c s)) as [[p' r']|] eqn:Hm.
  - intros [= <- <- <-]. apply match_here_inv in Hm as (t' & -> & Hu).
    apply until_close_decompose in Hu as ->.
    change ("" +:+ ("${" +:+ p' +:+ "}") +:+ r')
      with (String "$" (String "{" ((p' +:+ "}") +:+ r'))).
    by rewrite append_assoc.
  - destruct (find_ref s) as [[[pre' p'] r']|]; [|done].
    intros [= <- <- <-]. by rewrite (IH pre' p' r' eq_refl) at 1.
Qed.

Lemma ReplaceAllStringFunc_same repl :
  (∀ m, repl m = m) → ∀ s, ReplaceAllStringFunc s repl = s.
Proof.
  intros Hrepl s. remember (String.length s) as n eqn:Hn.
  revert s Hn. induction n as [n IH] using lt_wf_ind. intros s ->.
  rewrite ReplaceAllStringFunc_unroll.
  destruct (find_ref s) as [[[pre p] r]|] eqn:Hfind; [|done].
  rewrite Hrepl, (IH (String.length r)); [|by eapply find_ref_shorter|done].
  symmetry. by apply find_ref_decompose.
Qed.

Lemma Split_dot_nonempty s : Split_dot s ≠ [].
Proof.
  destruct s as [|c s]; simpl; [done|].
  destruct (Ascii.eqb c "."); [done|]. by destruct (Split_dot s).
Qed.

Lemma resolvePath_empty path :
  resolvePath path [] = inr ("reference path not found: " +:+ path).
Proof.
  unfold resolvePath. pose proof (Split_dot_nonempty path).
  by destruct (Split_dot path).
Qed.

Lemma resolveString_empty s :
  resolveString s [] =
  if taken_for_reference s then inr ("reference path not found: " +:+ ref_path s)
  else inl (VStr s).
Proof.
  rewrite resolveString_cases. destruct (taken_for_reference s).
  - apply resolvePath_empty.
  - rewrite ReplaceAllStringFunc_same; [done|].
    intros m. unfold substitute. by rewrite resolvePath_empty.
Qed.

(** X21. A plan without includes cannot refer to anything, not even to
    its own variables: for a parsed plan that has the required fields
    and no includes entry, loaded by a fresh loader, LoadPlan resolves
    the document to itself when none of its strings is taken for a
    single reference, and otherwise fails, reporting as not found the
    path of the first string that is. *)
Theorem plan_without_includes_resolves_nothing
    (readInclude : string → Config + error) (Base : string → string)
    (Join : string → string → string) (baseDir : string) (rawPlan : Config) :
  validateRawPlan rawPlan = None →
  lookup_key "includes" rawPlan = None →
  ((∀ s, s ∈ strings_of (VMap rawPlan) → taken_for_reference s = false) →
   LoadPlan_parsed readInclude Base Join baseDir rawPlan [] = (inl rawPlan, [])) ∧
  ((∃ s, s ∈ strings_of (VMap rawPlan) ∧ taken_for_reference s = true) →
   ∃ s wrap, first_unresolvable [] (VMap rawPlan) s ∧
     LoadPlan_parsed readInclude Base Join baseDir rawPlan [] =
       (inr ("failed to resolve variables: " +:+ wrap +:+
             "reference path not found: " +:+ ref_path s), [])).
Proof.
  intros Hvalid Hinc. unfold LoadPlan_parsed. rewrite Hvalid, Hinc. split.
  - intros Hfree.
    assert (H : resolveValue (VMap rawPlan) [] = inl (VMap rawPlan)).
    { apply resolveValue_identity. intros s Hs. rewrite resolveString_empty.
      by rewrite (Hfree s Hs). }
    rewrite resolveValue_VMap in H.
    destruct (ResolveValues rawPlan []); by simplify_eq.
  - intros (s & Hs & Ht).
    assert (∃ err, resolveValue (VMap rawPlan) [] = inr err) as [err Herr].
    { apply resolveValue_fails_iff. exists s. split; [done|]. split; [done|].
      eexists. apply resolvePath_empty. }
    destruct (resolveValue_error [] _ _ Herr) as (s' & e & wrap & Hfirst & He & ->).
    rewrite resolvePath_empty in He. injection He as <-.
    exists s', wrap. split; [done|]. rewrite resolveValue_VMap in Herr.
    destruct (ResolveValues rawPlan []); by simplify_eq.
Qed.

Lemma plan_without_includes_resolves_nothing_witness :
  validateRawPlan raw_demo = None ∧
  lookup_key "includes" raw_demo = None ∧
  ((∀ s, s ∈ strings_of (VMap raw_demo) → taken_for_reference s = false) →
   LoadPlan_parsed no_files id String.append "plans/" raw_demo [] = (inl raw_demo, [])) ∧
  ((∃ s, s ∈ strings_of (VMap raw_demo) ∧ taken_for_reference s = true) →
   ∃ s wrap, first_unresolvable [] (VMap raw_demo) s ∧
     LoadPlan_parsed no_files id String.append "plans/" raw_demo [] =
       (inr ("failed to resolve variables: " +:+ wrap +:+
             "reference path not found: " +:+ ref_path s), [])).
Proof.
  split; [reflexivity|]. split; [reflexivity|].
  apply (plan_without_includes_resolves_nothing no_files id String.append "plans/"
           raw_demo); reflexivity.
Defined.

Example own_variable_is_not_found :
  LoadPlan_parsed no_files id String.append "plans/" raw_demo [] =
  (inr ("failed to resolve variables: error resolving value for key stages: " +:+
        "error resolving array item 0: error resolving value for key jobs: " +:+
        "error resolving array item 0: error resolving value for key config: " +:+
        "error resolving value for key port: " +:+
        "reference path not found: variables.port"), []).
Proof. vm_compute. reflexivity. Qed.

(* --------------------------------------------------------------------- *)
(** ** The Kubernetes plugin *)
(* --------------------------------------------------------------------- *)

Lemma missing_field_None required config :
  missing_field required config = None ↔
  ∀ field, field ∈ required → is_Some (lookup_key field config).
Proof.
  induction required as [|f rest IH]; simpl.
  - split; [by intros _ ? ?%elem_of_nil|done].
  - destruct (lookup_key f config) as [v|] eqn:Hf.
    + rewrite IH. split.
      * intros Hall field [->|?]%elem_of_cons; [by rewrite Hf|by apply Hall].
      * intros Hall field ?. apply Hall. by right.
    + split; [done|]. intros Hall. destruct (Hall f) as [? Hv]; [left|]. congruence.
Qed.

(** X22. A configuration that KubernetesPlugin.Validate accepts has the
    fields namespace, resource and action, its action is one of the
    strings apply, delete, restart and scale, and for apply it has a
    manifest that is not nil.  This does not make Execute safe: on an
    accepted configuration Execute returns (a successful result that
    carries the execution id of the context and echoes namespace,
    resource and action) exactly when namespace and resource are strings
    and the context carries an execution id; otherwise it panics. *)
Theorem kubernetes_validate_then_execute
    (now : string) (ctx : Context) (config : Config) :
  k8s_Validate config = None →
  (∃ action, lookup_key "action" config = Some (VStr action) ∧
     action ∈ validActions ∧
     is_Some (lookup_key "namespace" config) ∧
     is_Some (lookup_key "resource" config) ∧
     (action = "apply" → is_nil (lookup_key "manifest" config) = false)) ∧
  match k8s_Execute now ctx config with
  | Returned (inl result) =>
      is_string (lookup_key "namespace" config) ∧
      is_string (lookup_key "resource" config) ∧
      Success result = true ∧ executionID ctx = Some (ExecutionID result) ∧
      lookup_key "namespace" (Data result) = lookup_key "namespace" config ∧
      lookup_key "resource" (Data result) = lookup_key "resource" config ∧
      lookup_key "action" (Data result) = lookup_key "action" config
  | Returned (inr _) => False
  | Panicked =>
      ¬ is_string (lookup_key "namespace" config) ∨
      ¬ is_string (lookup_key "resource" config) ∨
      executionID ctx = None
  end.
Proof.
  unfold k8s_Validate, k8s_Execute.
  destruct (missing_field _ config) as [?|] eqn:Hreq; [done|].
  rewrite missing_field_None in Hreq.
  destruct (Hreq "namespace") as [ns Hns]; [set_solver|].
  destruct (Hreq "resource") as [res Hres]; [set_solver|].
  destruct (Hreq "action") as [act Hact]; [set_solver|].
  rewrite Hns, Hres, Hact.
  case_bool_decide as Hvalid; [done|].
  destruct (String.eqb _ "apply" && is_nil (lookup_key "manifest" config)) eqn:Hman;
    [done|].
  intros _.
  assert (∃ action, act = VStr action) as [action ->].
  { destruct act; try (exfalso; set_solver). by eexists. }
  split.
  - exists action. split; [done|]. split; [done|]. split; [done|]. split; [done|].
    intros ->. by rewrite String.eqb_refl in Hman.
  - destruct ns as [| | | |namespace| |];
      try (left; by intros [? [=]]).
    destruct res as [| | | |resource| |];
      try (right; left; by intros [? [=]]).
    destruct (executionID ctx) as [id|]; [|by right; right].
    split; [by eexists|]. split; [by eexists|]. done.
Qed.

Lemma kubernetes_validate_then_execute_witness :
  k8s_Validate config_k8s = None ∧
  k8s_Execute "2024-01-01T00:00:00Z" (planContext "run-1" background plan_demo)
    config_k8s = Panicked ∧
  (∃ action, lookup_key "action" config_k8s = Some (VStr action) ∧
     action ∈ validActions ∧
     is_Some (lookup_key "namespace" config_k8s) ∧
     is_Some (lookup_key "resource" config_k8s) ∧
     (action = "apply" → is_nil (lookup_key "manifest" config_k8s) = false)) ∧
  match k8s_Execute "2024-01-01T00:00:00Z" (planContext "run-1" background plan_demo)
          config_k8s with
  | Returned (inl result) =>
      is_string (lookup_key "namespace" config_k8s) ∧
      is_string (lookup_key "resource" config_k8s) ∧
      Success result = true ∧
      executionID (planContext "run-1" background plan_demo)
        = Some (ExecutionID result) ∧
      lookup_key "namespace" (Data result) = lookup_key "namespace" config_k8s ∧
      lookup_key "resource" (Data result) = lookup_key "resource" config_k8s ∧
      lookup_key "action" (Data result) = lookup_key "action" config_k8s
  | Returned (inr _) => False
  | Panicked =>
      ¬ is_string (lookup_key "namespace" config_k8s) ∨
      ¬ is_string (lookup_key "resource" config_k8s) ∨
      executionID (planContext "run-1" background plan_demo) = None
  end.
Proof.
  split; [vm_compute; reflexivity|]. split; [reflexivity|].
  apply (kubernetes_validate_then_execute "2024-01-01T00:00:00Z"
           (planContext "run-1" background plan_demo) config_k8s).
  vm_compute; reflexivity.
Defined.

(* --------------------------------------------------------------------- *)
(** ** The validator's cycle check on arbitrary jobs *)
(* --------------------------------------------------------------------- *)

Lemma size_list_to_set_le (l : list string) :
  size (list_to_set l : gset string) ≤ length l.
Proof.
  induction l as [|x l IH]; simpl; [done|].
  rewrite size_union_alt, size_singleton.
  assert (size (list_to_set l ∖ {[x]} : gset string) ≤ size (list_to_set l : gset string))
    by (apply subseteq_size; set_solver).
  lia.
Qed.

Section check_general.
Context (jobs : list Job).

#[local] Notation g := (buildDependencyGraph jobs).
#[local] Notation names := (list_to_set (map Name jobs) : gset string).

Lemma job_edge job d : job ∈ jobs → d ∈ DependsOn job → edge g (Name job) d.
Proof.
  intros Hjob Hd. unfold edge. rewrite buildDependencyGraph_deps_of.
  apply elem_of_declared_deps. by exists job.
Qed.

Lemma check_named_sound rec bound d (V0 : gset string) :
  rec_sound jobs rec bound → d ∉ V0 → size (names ∖ V0) ≤ bound →
  ∀ js s, js ⊆ jobs → V0 ⊆ s.1 → s.2 ⊆ s.1 → d ∉ s.2 →
    (∀ x, x ∈ s.2 → rtc (edge g) x d) →
    ∃ r, check_named rec d js s = Some r ∧
      match r with
      | inl err => reports_cycle g err
      | inr s' => s'.2 = s.2 ∧ s.1 ⊆ s'.1
      end.
Proof.
  intros Hrec Hd Hsize. induction js as [|j rest IH];
    intros s Hsub HV Hstack Hfresh Hreach; simpl.
  - exists (inr s). by split.
  - assert (Hrest : rest ⊆ jobs) by set_solver.
    destruct (String.eqb_spec (Name j) d) as [Hname|Hname]; [|by apply IH].
    assert (Hj : j ∈ jobs) by set_solver.
    destruct (Hrec j s Hj) as (r & -> & Hr); [|done|by rewrite Hname|by rewrite Hname|].
    + assert (d ∈ names) by (apply elem_of_list_to_set, list_elem_of_fmap; by exists j).
      assert (names ∖ ({[Name j]} ∪ s.1) ⊂ names ∖ V0) as Hlt%subset_size;
        [|lia].
      rewrite Hname. set_solver.
    + destruct r as [err|s']; [by exists (inl err)|].
      destruct Hr as [Hs Hv].
      destruct (IH s') as (r & -> & Hr); [done|set_solver|set_solver|by rewrite Hs| |].
      { intros x Hx. apply Hreach. by rewrite <- Hs. }
      exists r. split; [done|]. destruct r as [err|s'']; [done|].
      destruct Hr as [? ?]. split; [congruence|set_solver].
Qed.

Lemma check_deps_sound rec bound job (V0 : gset string) :
  rec_sound jobs rec bound → job ∈ jobs → size (names ∖ V0) ≤ bound →
  ∀ deps s, (∀ d, d ∈ deps → d ∈ DependsOn job) →
    V0 ⊆ s.1 → s.2 ⊆ s.1 → Name job ∈ s.2 →
    (∀ x, x ∈ s.2 → rtc (edge g) x (Name job)) →
    ∃ r, check_deps rec jobs (Name job) deps s = Some r ∧
      match r with
      | inl err => reports_cycle g err
      | inr s' => s'.2 = s.2 ∧ s.1 ⊆ s'.1
      end.
Proof.
  intros Hrec Hjob Hsize. induction deps as [|d rest IH];
    intros s Hdeps HV Hstack Hself Hreach; simpl.
  - exists (inr s). by split.
  - assert (Hd : d ∈ DependsOn job) by (apply Hdeps; left).
    assert (Hrest : ∀ d', d' ∈ rest → d' ∈ DependsOn job) by (intros; apply Hdeps; by right).
    pose proof (job_edge job d Hjob Hd) as Hedge.
    case_bool_decide as Hvis.
    + destruct (check_named_sound rec bound d V0 Hrec) with (js := jobs) (s := s)
        as (r & -> & Hr); [set_solver|done|done|done|done|set_solver| |].
      { intros x Hx. eapply rtc_r; [by apply Hreach|done]. }
      destruct r as [err|s']; [by exists (inl err)|].
      destruct Hr as [Hs Hv].
      destruct (IH s' Hrest) as (r & -> & Hr); [set_solver|set_solver|by rewrite Hs| |].
      { intros x Hx. apply Hreach. by rewrite <- Hs. }
      exists r. split; [done|]. destruct r as [err|s'']; [done|].
      destruct Hr as [? ?]. split; [congruence|set_solver].
    + case_bool_decide as Hon.
      * eexists. split; [done|]. exists (Name job), d. split; [done|].
        split; [by apply Hreach|done].
      * by apply IH.
Qed.

Lemma checkDeps_sound : ∀ fuel, rec_sound jobs (checkDeps fuel jobs) fuel.
Proof.
  induction fuel as [|f IH]; intros job s Hjob Hsize Hstack Hfresh Hreach; [lia|].
  cbn [checkDeps].
  destruct (check_deps_sound (checkDeps f jobs) f job ({[Name job]} ∪ s.1) IH Hjob)
    with (deps := DependsOn job) (s := ({[Name job]} ∪ s.1, {[Name job]} ∪ s.2))
    as (r & -> & Hr); [lia|done|done|set_solver|set_solver| |].
  { simpl. intros x [->%elem_of_singleton|Hx]%elem_of_union; [done|by apply Hreach]. }
  destruct r as [err|s']; [by exists (inl err)|].
  destruct Hr as [Hs Hv]. eexists. split; [done|]. simpl in *.
  split; [rewrite Hs; set_solver|done].
Qed.

Lemma check_jobs_sound : ∀ js s,
  js ⊆ jobs → s.2 = ∅ →
  ∃ r, check_jobs (length jobs) jobs js s = Some r ∧
    match r with
    | inl err => reports_cycle g err
    | inr s' => s'.2 = ∅
    end.
Proof.
  induction js as [|job rest IH]; intros s Hsub Hempty; simpl.
  - by exists (inr s).
  - assert (Hrest : rest ⊆ jobs) by set_solver.
    case_bool_decide as Hvis; [|by apply IH].
    assert (Hjob : job ∈ jobs) by set_solver.
    destruct (checkDeps_sound (length jobs) job s Hjob) as (r & -> & Hr).
    + assert (Name job ∈ names)
        by (apply elem_of_list_to_set, list_elem_of_fmap; by exists job).
      assert (names ∖ ({[Name job]} ∪ s.1) ⊂ names) as Hlt%subset_size by set_solver.
      pose proof (size_list_to_set_le (map Name jobs)) as Hle.
      rewrite length_map in Hle. lia.
    + rewrite Hempty. set_solver.
    + rewrite Hempty. set_solver.
    + intros x Hx. rewrite Hempty in Hx. set_solver.
    + destruct r as [err|s']; [by exists (inl err)|].
      destruct Hr as [Hs _]. apply IH; [done|congruence].
Qed.
End check_general.

(** X23. checkCircularDependencies returns on every list of jobs,
    whatever their names and dependencies (the recursion of its closure
    never nests deeper than there are jobs), and an error it returns is
    justified: it names a declared dependency [a -> b] such that [b]
    leads back to [a] along declared dependencies, so the graph built
    from the jobs has a cycle. *)
Theorem checkCircularDependencies_sound (jobs : list Job) :
  ∃ r, checkCircularDependencies jobs = Some r ∧
    ∀ err, r = Some err →
      reports_cycle (buildDependencyGraph jobs) err ∧
      cyclic (buildDependencyGraph jobs).
Proof.
  unfold checkCircularDependencies.
  destruct (check_jobs_sound jobs jobs (∅, ∅)) as (r & -> & Hr); [done..|].
  destruct r as [err|s']; eexists; (split; [done|]); [|done].
  intros ? [= <-]. split; [done|].
  destruct Hr as (a & b & Hedge & Hback & _). exists a.
  eapply tc_rtc_r; [by apply tc_once|done].
Qed.

(** Without the validator's check of the job names the converse fails:
    the cycle check looks at the first job of a name only. *)
Example duplicate_name_hides_cycle :
  checkCircularDependencies jobs_twice = Some None ∧
  HasCycles ["X"] (buildDependencyGraph jobs_twice) = Some true.
Proof. split; vm_compute; reflexivity. Qed.

(* --------------------------------------------------------------------- *)
(** ** The cycle check on the graphs the engine builds *)
(* --------------------------------------------------------------------- *)

Lemma built_edge_source js a b :
  edge (buildDependencyGraph js) a b → a ∈ dom (jobs (buildDependencyGraph js)).
Proof.
  unfold edge. rewrite buildDependencyGraph_deps_of, buildDependencyGraph_dom.
  intros (job & Hjob & <- & _)%elem_of_declared_deps.
  apply elem_of_list_to_set, list_elem_of_fmap. by exists job.
Qed.

Lemma HasCycles_built js keys :
  range_of (buildDependencyGraph js) keys →
  ∃ b, HasCycles keys (buildDependencyGraph js) = Some b ∧
       (b = true ↔ cyclic (buildDependencyGraph js)).
Proof.
  intros [_ Hkeys]. unfold HasCycles, HasCycles_fuel, dfs_budget.
  destruct (HasCycles_loop_spec (buildDependencyGraph js)
              (S (size (dom (dependencies (buildDependencyGraph js)))))
              ltac:(lia) keys ∅ (dfs_inv_empty _)) as (b & -> & Hb).
  exists b. split; [done|]. destruct b; [done|].
  split; [done|]. intros [x Hcyc]. exfalso.
  destruct Hb as (V' & Hinv & _ & Hall).
  apply (inv_nocyc _ _ _ Hinv x); [|set_solver|done].
  apply Hall, Hkeys.
  destruct (cycle_through_target _ x Hcyc) as (y & Hxy & _).
  by eapply built_edge_source.
Qed.

Lemma waves_error ord pm dryRun ctx : ∀ fuel k ready g sr tr ws st,
  waves fuel ord k pm dryRun ctx ready g sr tr ws = Some st →
  exErr st = None ∨ ∃ bad, exErr st = Some (job_error bad).
Proof.
  induction fuel as [|f IH]; intros k ready g sr tr ws st Hrun;
    destruct ready as [|job rest].
  1, 3: simpl in Hrun; injection Hrun as <-; by left.
  { done. }
  unroll_wave Hrun. destruct (first_failure _) as [bad|].
  - injection Hrun as <-. right. by exists bad.
  - by apply IH in Hrun.
Qed.

(** X24. On every graph that buildDependencyGraph builds, whether or not
    the dependencies name jobs of the stage, and for every order of the
    range over its jobs, HasCycles returns, and it returns [true]
    exactly when the declared dependencies contain a cycle; so
    ExecuteGraph refuses a stage for a cycle exactly when it has one,
    and then runs no job and calls no handler. *)
Theorem HasCycles_on_built_graph
    (js : list Job) (ord : nat → list string) (pm : Manager) (ctx : Context)
    (sr : StageResult) (dryRun : bool) (tr : Trace) :
  (∀ k, range_of (buildDependencyGraph js) (ord k)) →
  let g := buildDependencyGraph js in
  ∃ b, HasCycles (ord 0) g = Some b ∧
       (b = true ↔ cyclic g) ∧
       (cyclic g →
        ExecuteGraph ord pm ctx g sr dryRun tr =
          Some (mkExecState (Some cycle_error) g sr tr [])) ∧
       (∀ st, ExecuteGraph ord pm ctx g sr dryRun tr = Some st →
              exErr st = Some cycle_error → cyclic g).
Proof.
  intros Hord g. destruct (HasCycles_built js (ord 0) (Hord 0)) as (b & Hb & Hiff).
  fold g in Hb, Hiff. exists b. split; [done|]. split; [done|].
  unfold ExecuteGraph, ExecuteGraph_fuel. rewrite Hb. split.
  - intros Hcyc. apply Hiff in Hcyc as ->. done.
  - intros st Hrun Herr. apply Hiff. destruct b; [done|].
    apply waves_error in Hrun as [Hnone|[bad Hbad]]; [congruence|].
    rewrite Herr in Hbad. discriminate Hbad.
Qed.

Lemma HasCycles_on_built_graph_witness :
  let js := [simple_job "A" "ok" ["ghost"; "B"]; simple_job "B" "ok" ["A"]] in
  let ord := fixed_order ["B"; "A"] in
  let g := buildDependencyGraph js in
  (∀ k, range_of g (ord k)) ∧
  ∃ b, HasCycles (ord 0) g = Some b ∧
       (b = true ↔ cyclic g) ∧
       (cyclic g →
        ExecuteGraph ord pm_demo background g (newStageResult "deploy") false [] =
          Some (mkExecState (Some cycle_error) g (newStageResult "deploy") [] [])) ∧
       (∀ st, ExecuteGraph ord pm_demo background g (newStageResult "deploy") false []
                = Some st →
              exErr st = Some cycle_error → cyclic g).
Proof.
  intros js ord g.
  assert (H : ∀ k, range_of g (ord k))
    by (intros k; apply range_of_check_ok; vm_compute; reflexivity).
  split; [exact H|].
  exact (HasCycles_on_built_graph js ord pm_demo background (newStageResult "deploy")
           false [] H).
Defined.

(* --------------------------------------------------------------------- *)
(** ** Rollback stages that validation lets through *)
(* --------------------------------------------------------------------- *)

(** X25. ValidatePlan accepts a rollback stage in which a job depends on
    itself (it checks rollback stages for names, types and declared
    dependencies, not for cycles), and executeRollback then skips such a
    stage entirely: the cycle check refuses its graph, no job of it is
    run and no handler called, and the rollback goes on with the next
    stage as if the stage were not there. *)
Theorem self_dependent_rollback_stage_is_skipped
    (rord : nat → nat → list string) (pm : Manager) (ctx : Context)
    (j : nat) (stage : Stage) (rest : list Stage) (tr : Trace) (job : Job) :
  valid_rollback_stage stage →
  job ∈ Jobs stage → Name job ∈ DependsOn job →
  (∀ k, range_of (buildDependencyGraph (Jobs stage)) (rord j k)) →
  (∀ i, validate_rollback_stages i [stage] = None) ∧
  ExecuteGraph (rord j) pm ctx (buildDependencyGraph (Jobs stage))
    (newStageResult (StageName stage)) false tr =
    Some (mkExecState (Some cycle_error) (buildDependencyGraph (Jobs stage))
            (newStageResult (StageName stage)) tr []) ∧
  rollback_loop rord pm ctx j (stage :: rest) tr =
    rollback_loop rord pm ctx (S j) rest tr.
Proof.
  intros Hvalid Hjob Hself Hord.
  assert (Hcyc : cyclic (buildDependencyGraph (Jobs stage))).
  { destruct Hvalid as (_ & _ & Hdecl). apply (declared_cyclic_iff _ Hdecl).
    by exists job. }
  destruct (HasCycles_built _ _ (Hord 0)) as (b & Hb & Hiff).
  apply Hiff in Hcyc as ->.
  assert (Hrun : ExecuteGraph (rord j) pm ctx (buildDependencyGraph (Jobs stage))
                   (newStageResult (StageName stage)) false tr =
                 Some (mkExecState (Some cycle_error)
                         (buildDependencyGraph (Jobs stage))
                         (newStageResult (StageName stage)) tr [])).
  { unfold ExecuteGraph, ExecuteGraph_fuel. by rewrite Hb. }
  split; [|split; [done|]].
  - intros i. apply validate_rollback_stages_spec. constructor; [done|constructor].
  - cbn [rollback_loop]. unfold newStageResult in Hrun. by rewrite Hrun.
Qed.

Lemma self_dependent_rollback_stage_is_skipped_witness :
  let stage := simple_stage "undo" [simple_job "X" "ok" ["X"]] in
  valid_rollback_stage stage ∧
  (∀ k, range_of (buildDependencyGraph (Jobs stage)) (fixed_order ["X"] k)) ∧
  (∀ i, validate_rollback_stages i [stage] = None) ∧
  ExecuteGraph (fixed_order ["X"]) pm_demo background
    (buildDependencyGraph (Jobs stage)) (newStageResult (StageName stage)) false [] =
    Some (mkExecState (Some cycle_error) (buildDependencyGraph (Jobs stage))
            (newStageResult (StageName stage)) [] []) ∧
  rollback_loop (λ _, fixed_order ["X"]) pm_demo background 0 [stage] [] =
    rollback_loop (λ _, fixed_order ["X"]) pm_demo background 1 [] [].
Proof.
  intros stage.
  assert (H1 : valid_rollback_stage stage).
  { split; [done|]. split; [done|].
    apply (validate_jobs_declared "rollback.stage[" "rollback stage " "undo").
    vm_compute; reflexivity. }
  assert (H2 : ∀ k, range_of (buildDependencyGraph (Jobs stage)) (fixed_order ["X"] k))
    by (intros k; apply range_of_check_ok; vm_compute; reflexivity).
  split; [exact H1|]. split; [exact H2|].
  apply (self_dependent_rollback_stage_is_skipped (λ _, fixed_order ["X"]) pm_demo
           background 0 stage [] [] (simple_job "X" "ok" ["X"]) H1).
  - left.
  - left.
  - exact H2.
Defined.

